(** * pub-time: version resolution and changelog generation

    A shallow embedding of [src/lib/version.ts] and [src/lib/conventional.ts]
    together with the parts of the JavaScript runtime they rely on
    (strings, numbers, regular expressions), and the properties of the
    release computation proved over it. *)

From Stdlib Require Import NArith ZArith Ascii String Bool Lia Arith List.
From Stdlib Require DecimalString DecimalN DecimalFacts.
From Stdlib Require Import Permutation.
Import ListNotations.

Set Implicit Arguments.
Set Warnings "-notation-for-abbreviation".
Local Open Scope list_scope.

(* ================================================================== *)
(** * JavaScript strings *)
(* ================================================================== *)

(** A JavaScript string is a sequence of UTF-16 code units.  The model keeps
    the code units below 256 (Basic Latin and Latin-1 Supplement), which is
    where every character the program inspects lives; a code unit is an
    [ascii]. *)
Module JsString.

Local Notation t := (list ascii).

(** Literals. *)
Definition str (s : string) : t := list_ascii_of_string s.

Definition code (c : ascii) : N := N_of_ascii c.

Definition in_range (lo hi c : ascii) : bool :=
  (code lo <=? code c)%N && (code c <=? code hi)%N.

Definition is_digit (c : ascii) : bool := in_range "0" "9" c.
Definition is_lower (c : ascii) : bool := in_range "a" "z" c.
Definition is_upper (c : ascii) : bool := in_range "A" "Z" c.

Definition eqb (a b : t) : bool :=
  if list_eq_dec ascii_dec a b then true else false.

(** WhiteSpace and LineTerminator code units below 256: TAB, LF, VT, FF, CR,
    SP and NBSP. *)
Definition is_space (c : ascii) : bool :=
  let n := code c in
  ((9 <=? n) && (n <=? 13) || (n =? 32) || (n =? 160))%N.

Fixpoint trimStart (s : t) : t :=
  match s with
  | c :: s' => if is_space c then trimStart s' else s
  | [] => []
  end.

Definition trimEnd (s : t) : t := rev (trimStart (rev s)).

(** [String.prototype.trim]. *)
Definition trim (s : t) : t := trimEnd (trimStart s).

(** [String.prototype.startsWith]. *)
Fixpoint startsWith (s p : t) : bool :=
  match p, s with
  | [], _ => true
  | a :: p', b :: s' => Ascii.eqb a b && startsWith s' p'
  | _ :: _, [] => false
  end.

(** [String.prototype.includes]. *)
Fixpoint includes (s p : t) : bool :=
  startsWith s p ||
  match s with
  | [] => false
  | _ :: s' => includes s' p
  end.

(** [String.prototype.indexOf] for a single code unit; [None] is [-1]. *)
Fixpoint indexOf (s : t) (c : ascii) : option nat :=
  match s with
  | [] => None
  | a :: s' => if Ascii.eqb a c then Some 0
               else option_map S (indexOf s' c)
  end.

(** Lower-casing of one code unit below 256: A-Z, and the Latin-1 capitals
    U+00C0..U+00DE except the multiplication sign U+00D7. *)
Definition lower_char (c : ascii) : ascii :=
  let n := code c in
  if ((65 <=? n) && (n <=? 90) ||
      (192 <=? n) && (n <=? 222) && negb (n =? 215))%N
  then ascii_of_N (n + 32) else c.

(** [String.prototype.toLowerCase]. *)
Definition toLowerCase (s : t) : t := map lower_char s.

(** [String.prototype.slice(a, b)] for [0 <= a] and [0 <= b]. *)
Definition slice (s : t) (a b : nat) : t := firstn (b - a) (skipn a s).

(** [Array.prototype.join] on strings. *)
Fixpoint join (sep : t) (l : list t) : t :=
  match l with
  | [] => []
  | [x] => x
  | x :: l' => x ++ sep ++ join sep l'
  end.

(** [String.prototype.split] with a one-code-unit separator. *)
Fixpoint split_aux (sep : ascii) (acc : t) (s : t) : list t :=
  match s with
  | [] => [rev acc]
  | c :: s' => if Ascii.eqb c sep then rev acc :: split_aux sep [] s'
               else split_aux sep (c :: acc) s'
  end.

Definition split (sep : ascii) (s : t) : list t := split_aux sep [] s.

End JsString.

Import JsString.
Notation jsstring := (list ascii).

(* ================================================================== *)
(** * JavaScript numbers *)
(* ================================================================== *)

(** The Number values the program can hold in a [Version]: the results of
    [Number.parseInt] on a string of decimal digits, the literals [0] and
    [1], and sums of those.  They are the non-negative integers that are
    doubles, [Infinity] (a digit string beyond the double range) and [NaN].
    A finite value is kept as the integer it denotes. *)
Module Number.

Inductive t : Set :=
| NaN
| Fin (n : N)
| Infinity.

Local Open Scope N_scope.

(** Round a non-negative integer to the nearest double, ties to even
    (53 bits of mantissa, largest finite exponent 1023). *)
Definition round_double (n : N) : t :=
  if n <? 2 ^ 53 then Fin n
  else
    let e := N.log2 n - 52 in
    let q := N.shiftr n e in
    let r := n mod 2 ^ e in
    let half := 2 ^ (e - 1) in
    let q' := if (half <? r) || ((r =? half) && N.odd q) then q + 1 else q in
    let m := q' * 2 ^ e in
    if m <? 2 ^ 1024 then Fin m else Infinity.

(** [a === b]. *)
Definition eqb (a b : t) : bool :=
  match a, b with
  | Fin x, Fin y => x =? y
  | Infinity, Infinity => true
  | _, _ => false
  end.

(** [a !== b]. *)
Definition neqb (a b : t) : bool := negb (eqb a b).

(** [a < b]. *)
Definition ltb (a b : t) : bool :=
  match a, b with
  | Fin x, Fin y => x <? y
  | Fin _, Infinity => true
  | _, _ => false
  end.

(** [a >= b]. *)
Definition geb (a b : t) : bool :=
  match a, b with
  | NaN, _ | _, NaN => false
  | _, _ => negb (ltb a b)
  end.

(** [a + b]. *)
Definition add (a b : t) : t :=
  match a, b with
  | NaN, _ | _, NaN => NaN
  | Infinity, _ | _, Infinity => Infinity
  | Fin x, Fin y => round_double (x + y)
  end.

(** Decimal digits of a non-negative integer. *)
Definition decimal (n : N) : jsstring :=
  list_ascii_of_string (DecimalString.NilEmpty.string_of_uint (N.to_uint n)).

(** The value of a non-empty string of decimal digits. *)
Definition decimal_value (s : jsstring) : option N :=
  match s with
  | [] => None
  | _ => option_map N.of_uint (DecimalString.NilEmpty.uint_of_string (string_of_list_ascii s))
  end.

(** [Number.parseInt] on a string of decimal digits, which is what groups
    1 to 3 of [SEMVER_REGEX] capture: the double nearest to the value of
    the digits (beyond 20 significant digits an implementation is allowed
    to approximate; the exact rounding is taken here).  Signs, leading
    white space, radix prefixes and trailing garbage are not modelled: such
    a string is given [NaN] here. *)
Definition parseInt (s : jsstring) : t :=
  match decimal_value s with
  | Some n => round_double n
  | None => NaN
  end.

(** ** Number::toString, radix 10

    The digits are those of the integer with the fewest significant digits
    that still rounds to the number, the closest one if there are several. *)

Definition rounds_to (x c : N) : bool :=
  match round_double c with
  | Fin y => y =? x
  | _ => false
  end.

Definition nb_digits (x : N) : nat := length (decimal x).

(** The candidates with [k] significant digits next to [x]. *)
Definition candidate (x : N) (nd k : nat) : option N :=
  let e := N.of_nat (nd - k) in
  let lo := x / 10 ^ e in
  let c1 := lo * 10 ^ e in
  let c2 := (lo + 1) * 10 ^ e in
  match rounds_to x c1, rounds_to x c2 with
  | true, true =>
      if x - c1 <? c2 - x then Some c1
      else if c2 - x <? x - c1 then Some c2
      else if N.even lo then Some c1 else Some c2
  | true, false => Some c1
  | false, true => Some c2
  | false, false => None
  end.

Fixpoint shortest_from (x : N) (nd k fuel : nat) : N :=
  match fuel with
  | O => x
  | S fuel' =>
      match candidate x nd k with
      | Some c => c
      | None => shortest_from x nd (S k) fuel'
      end
  end.

Definition shortest (x : N) : N :=
  let nd := nb_digits x in shortest_from x nd 1 nd.

Fixpoint strip_zeros (rs : jsstring) : jsstring :=
  match rs with
  | c :: rs' => if Ascii.eqb c "0" then strip_zeros rs' else rs
  | [] => []
  end.

Definition toString (a : t) : jsstring :=
  match a with
  | NaN => str "NaN"
  | Infinity => str "Infinity"
  | Fin x =>
      if x <? 2 ^ 53 then decimal x
      else
        let c := shortest x in
        if c <? 10 ^ 21 then decimal c
        else
          let ds := decimal c in
          let e := str "e+" ++ decimal (N.of_nat (length ds - 1)) in
          match rev (strip_zeros (rev ds)) with
          | [d] => d :: e
          | d :: ds' => d :: "."%char :: ds' ++ e
          | [] => e
          end
  end.

End Number.

Notation number := Number.t.
Notation Fin := Number.Fin.
Notation Infinity := Number.Infinity.
Notation NaN := Number.NaN.

(* ================================================================== *)
(** * src/lib/version.ts: the version model *)
(* ================================================================== *)

(** [type Version = { major; minor; patch; suffix?: string }].  An absent
    [suffix] (the property missing, or [undefined]) is [None]. *)
Record Version : Set := mkVersion {
  major : number;
  minor : number;
  patch : number;
  suffix : option jsstring
}.

(** Truthiness of an optional string: [undefined] and [""] are falsy. *)
Definition truthy (s : option jsstring) : bool :=
  match s with
  | Some (_ :: _) => true
  | _ => false
  end.

Definition isFirstBefore (first second : Version) : bool :=
  if Number.neqb (major first) (major second) then
    Number.ltb (major first) (major second)
  else if Number.neqb (minor first) (minor second) then
    Number.ltb (minor first) (minor second)
  else if Number.neqb (patch first) (patch second) then
    Number.ltb (patch first) (patch second)
  else
    truthy (suffix first) && negb (truthy (suffix second)).

Definition versionToSemverString (version : Version) : jsstring :=
  Number.toString (major version) ++ str "." ++
  Number.toString (minor version) ++ str "." ++
  Number.toString (patch version) ++
  (if truthy (suffix version)
   then str "-" ++ match suffix version with Some s => s | None => [] end
   else []).

(** The condition reads [major === 0 && major === 0 && patch === 0 && suffix],
    as the source has it. *)
Definition versionToHumanString (version : Version) : jsstring :=
  if Number.eqb (major version) (Fin 0) && Number.eqb (major version) (Fin 0)
     && Number.eqb (patch version) (Fin 0) && truthy (suffix version)
  then str "[" ++ match suffix version with Some s => s | None => [] end ++ str "]"
  else versionToSemverString version.

(* ================================================================== *)
(** * JavaScript regular expressions *)
(* ================================================================== *)

(** The patterns of the program use character classes, sequence,
    alternation, the greedy quantifiers, capturing groups, and the
    zero-width assertions [^], [$] and one lookbehind.  The matcher is the
    backtracking matcher of the language definition, in continuation-passing
    style: alternatives are tried left to right, a quantifier takes as many
    iterations as it can before it gives some back, and an iteration that
    consumes nothing is refused. *)
Module Regex.

Inductive regex : Type :=
| Eps
| Cls (p : ascii -> bool)
| Seq (r1 r2 : regex)
| Alt (r1 r2 : regex)
| Star (r : regex)
| Group (i : nat) (r : regex)
| Assert (f : jsstring -> jsstring -> bool).

(** The position in the input: the code units already passed, last one
    first, and those still ahead. *)
Definition state : Type := jsstring * jsstring.

(** Captures, the latest binding of a group first. *)
Definition caps : Type := list (nat * jsstring).

Fixpoint group (c : caps) (i : nat) : option jsstring :=
  match c with
  | [] => None
  | (j, s) :: c' => if Nat.eqb i j then Some s else group c' i
  end.

Definition cont : Type := state -> caps -> option (state * caps).

(** The code units between two positions of the same input. *)
Definition between (st st' : state) : jsstring :=
  firstn (length (snd st) - length (snd st')) (snd st).

Fixpoint m_star (fuel : nat) (body : state -> caps -> cont -> option (state * caps))
    (st : state) (c : caps) (k : cont) : option (state * caps) :=
  match fuel with
  | O => k st c
  | S fuel' =>
      match body st c (fun st' c' =>
               if length (snd st') <? length (snd st)
               then m_star fuel' body st' c' k
               else None) with
      | Some res => Some res
      | None => k st c
      end
  end.

Fixpoint m (r : regex) (st : state) (c : caps) (k : cont) : option (state * caps) :=
  match r with
  | Eps => k st c
  | Cls p =>
      match snd st with
      | a :: rest => if p a then k (a :: fst st, rest) c else None
      | [] => None
      end
  | Seq r1 r2 => m r1 st c (fun st' c' => m r2 st' c' k)
  | Alt r1 r2 =>
      match m r1 st c k with
      | Some res => Some res
      | None => m r2 st c k
      end
  | Star r' => m_star (S (length (snd st))) (m r') st c k
  | Group i r' => m r' st c (fun st' c' => k st' ((i, between st st') :: c'))
  | Assert f => if f (fst st) (snd st) then k st c else None
  end.

(** The result of a successful match: [index], the match itself (group 0)
    and the groups. *)
Record MatchResult : Type := mkMatch {
  index : nat;
  matched : jsstring;
  groups : caps
}.

Definition accept : cont := fun st c => Some (st, c).

(** The first position at or after the current one where the pattern
    matches. *)
Fixpoint exec_at (r : regex) (b a : jsstring) : option (state * state * caps) :=
  match m r (b, a) [] accept with
  | Some (st', c) => Some ((b, a), st', c)
  | None =>
      match a with
      | [] => None
      | x :: a' => exec_at r (x :: b) a'
      end
  end.

Definition result_of (x : state * state * caps) : MatchResult :=
  let '(st, st', c) := x in
  mkMatch (length (fst st)) (between st st') c.

(** [RegExp.prototype.exec] and [String.prototype.match] for a pattern
    without the [g] flag. *)
Definition exec (r : regex) (s : jsstring) : option MatchResult :=
  option_map result_of (exec_at r [] s).

(** [RegExp.prototype.test]. *)
Definition test (r : regex) (s : jsstring) : bool :=
  match exec r s with Some _ => true | None => false end.

(** [String.prototype.matchAll] with a [g] pattern: the next search starts
    where the last match ended, one code unit further after an empty
    match. *)
Fixpoint matchAll_from (fuel : nat) (r : regex) (b a : jsstring) : list MatchResult :=
  match fuel with
  | O => []
  | S fuel' =>
      match exec_at r b a with
      | None => []
      | Some (st, (b', a'), c) =>
          result_of (st, (b', a'), c) ::
          (if length a' <? length (snd st) then matchAll_from fuel' r b' a'
           else match a' with
                | [] => []
                | x :: a'' => matchAll_from fuel' r (x :: b') a''
                end)
      end
  end.

Definition matchAll (r : regex) (s : jsstring) : list MatchResult :=
  matchAll_from (S (length s)) r [] s.

(** ** Pattern syntax *)

Definition chr (a : ascii) : regex := Cls (Ascii.eqb a).
Definition opt (r : regex) : regex := Alt r Eps.
Definition plus (r : regex) : regex := Seq r (Star r).

Fixpoint lit (s : jsstring) : regex :=
  match s with
  | [] => Eps
  | a :: s' => Seq (chr a) (lit s')
  end.

Fixpoint seqs (l : list regex) : regex :=
  match l with
  | [] => Eps
  | [r] => r
  | r :: l' => Seq r (seqs l')
  end.

Fixpoint alts (r : regex) (l : list regex) : regex :=
  match l with
  | [] => r
  | r' :: l' => Alt r (alts r' l')
  end.

Fixpoint times (n : nat) (r : regex) : regex :=
  match n with
  | O => Eps
  | S n' => Seq r (times n' r)
  end.

(** [^] and [$] without the [m] flag. *)
Definition bol : regex := Assert (fun b _ => match b with [] => true | _ => false end).
Definition eol : regex := Assert (fun _ a => match a with [] => true | _ => false end).

(** [(?<=^|\n)]: the position is the start of the input or follows a line
    feed. *)
Definition after_bol_or_lf : regex :=
  Assert (fun b _ => match b with
                     | [] => true
                     | x :: _ => Ascii.eqb x "010"
                     end).

(** [.] without the [s] flag: anything but a line terminator. *)
Definition dot : ascii -> bool :=
  fun a => negb (Ascii.eqb a "010" || Ascii.eqb a "013").

Definition none_of (a : ascii) : ascii -> bool := fun x => negb (Ascii.eqb x a).

End Regex.

Import Regex.

(* ================================================================== *)
(** * src/lib/version.ts: parsing *)
(* ================================================================== *)

Definition digit19 : ascii -> bool := in_range "1" "9".
Definition alpha_hyphen : ascii -> bool :=
  fun c => is_upper c || is_lower c || Ascii.eqb c "-".
Definition alnum_hyphen : ascii -> bool :=
  fun c => is_digit c || is_upper c || is_lower c || Ascii.eqb c "-".

(** [0|[1-9]\d*] *)
Definition numeric_re : regex :=
  Alt (chr "0") (Seq (Cls digit19) (Star (Cls is_digit))).

(** [0|[1-9]\d*|\d*[A-Za-z-][\dA-Za-z-]*] *)
Definition prerelease_id_re : regex :=
  alts (chr "0")
    [Seq (Cls digit19) (Star (Cls is_digit));
     seqs [Star (Cls is_digit); Cls alpha_hyphen; Star (Cls alnum_hyphen)]].

(** [[\dA-Za-z-]+] *)
Definition build_id_re : regex := plus (Cls alnum_hyphen).

Definition prerelease_re : regex :=
  Seq prerelease_id_re (Star (Seq (chr ".") prerelease_id_re)).

Definition build_re : regex :=
  Seq build_id_re (Star (Seq (chr ".") build_id_re)).

Definition SEMVER_REGEX : regex :=
  seqs [bol;
        Group 1 numeric_re; chr "."; Group 2 numeric_re; chr ".";
        Group 3 numeric_re;
        opt (Seq (chr "-") (Group 4 prerelease_re));
        opt (Seq (chr "+") (Group 5 build_re));
        eol].

(** [Number.parseInt(match[i])]; an unset group is [undefined], which
    parses to [NaN]. *)
Definition parseInt_group (c : caps) (i : nat) : number :=
  match group c i with
  | Some s => Number.parseInt s
  | None => NaN
  end.

Definition parseVersion (version : jsstring) : Version :=
  match exec SEMVER_REGEX (trim version) with
  | Some mt =>
      mkVersion (parseInt_group (groups mt) 1)
                (parseInt_group (groups mt) 2)
                (parseInt_group (groups mt) 3)
                (group (groups mt) 4)
  | None => mkVersion (Fin 0) (Fin 0) (Fin 0) (Some (str "new"))
  end.

(* ================================================================== *)
(** * The outside world *)
(* ================================================================== *)

(** A computation either returns or throws an [Error] with a message. *)
Inductive result (A : Type) : Type :=
| Ok (a : A)
| Throw (message : jsstring).

Arguments Ok {A} a.
Arguments Throw {A} message.

Definition bind {A B : Type} (x : result A) (f : A -> result B) : result B :=
  match x with
  | Ok a => f a
  | Throw e => Throw e
  end.

Notation "x <- e ;; k" := (bind e (fun x => k))
  (at level 61, e at next level, right associativity).

(** What the program asks of its surroundings: the [name] that [pkgJson]
    reads in [package.json], or the error it throws ([pkgJson] lives in a
    module of its own; only its result matters here); the output of a
    shell command, or the error [execSync] throws (through [run]); and
    whether the network answers (through [isOnline]). *)
Record World : Type := mkWorld {
  pkgJson_name : result (option jsstring);
  execSync : jsstring -> result jsstring;
  isOnline : bool
}.

Definition run (w : World) (command : jsstring) : result jsstring :=
  execSync w command.

Definition getPublishedVersion (w : World) : result Version :=
  name <- pkgJson_name w ;;
  if negb (truthy name) then
    Throw (str "package.json needs a name")
  else
    let name := match name with Some n => n | None => [] end in
    currVersionStr <-
      match run w (str "npm show '" ++ name ++ str "' version") with
      | Ok out => Ok out
      | Throw _ =>
          if isOnline w then Ok (str "0.0.0-new")
          else Throw (str "need to be online to determine latest npm version of '"
                        ++ name ++ str "'")
      end ;;
    Ok (parseVersion currVersionStr).

(* ================================================================== *)
(** * src/lib/conventional.ts *)
(* ================================================================== *)

Inductive Semver : Set :=
| SemverMajor
| SemverMinor
| SemverPatch
| SemverUnknown.

Record Commit : Type := mkCommit {
  hash : jsstring;
  message : jsstring;
  footer : jsstring;
  versions : list Version;
  semver : Semver
}.

(** [\([^)]+\)] in a capturing group. *)
Definition scope_re : regex :=
  Group 1 (seqs [chr "("; plus (Cls (none_of ")")); chr ")"]).

(** [/^feat(\([^)]+\))?!?:/] *)
Definition FEAT_REGEX : regex :=
  seqs [bol; lit (str "feat"); opt scope_re; opt (chr "!"); chr ":"].

(** [/^[a-z]+(\([^)]+\))?!:/] *)
Definition BREAKING_CHANGE_REGEX : regex :=
  seqs [bol; plus (Cls is_lower); opt scope_re; chr "!"; chr ":"].

(** [/^[a-z]+(\([^)]+\))?!?:/] *)
Definition CONVENTIONAL_COMMIT_REGEX : regex :=
  seqs [bol; plus (Cls is_lower); opt scope_re; opt (chr "!"); chr ":"].

(** The classification of one commit, lines 37 to 44 of [getAllCommits]. *)
Definition semverOf (message footer : jsstring) : Semver :=
  if test BREAKING_CHANGE_REGEX message || includes footer (str "BREAKING CHANGE: ")
  then SemverMajor
  else if test FEAT_REGEX message then SemverMinor
  else if test CONVENTIONAL_COMMIT_REGEX message then SemverPatch
  else SemverUnknown.

Definition hex_digit : ascii -> bool :=
  fun c => is_digit c || in_range "a" "f" c.

(** The [g] pattern of [getAllCommits]: the lookbehind [(?<=^|\n)], group 1
    [[\da-f]{40}], a dollar sign, and group 2, any run of [.]. *)
Definition COMMIT_HEADER_REGEX : regex :=
  seqs [after_bol_or_lf; Group 1 (times 40 (Cls hex_digit)); chr "$";
        Group 2 (Star (Cls dot))].

(** A group that took part in the match; both groups of the header pattern
    always do. *)
Definition group_str (mt : MatchResult) (i : nat) : jsstring :=
  match group (groups mt) i with
  | Some s => s
  | None => []
  end.

Definition versionsOf (refNames : jsstring) : list Version :=
  map parseVersion
    (filter (test SEMVER_REGEX)
       (map (skipn 6)
          (filter (fun part => startsWith part (str "tag: v"))
             (map trim (split "," refNames))))).

(** One turn of the loop of [getAllCommits]: the commit of the match [mt],
    [prevIndex] being the index of the next header (or the length of the
    text). *)
Definition commitOf (rawGitLogStr : jsstring) (mt : MatchResult) (prevIndex : nat) : Commit :=
  let currIndex := index mt in
  let hash := group_str mt 1 in
  let refNames := group_str mt 2 in
  let versions := versionsOf refNames in
  let body := slice rawGitLogStr (currIndex + 42 + length (group_str mt 2)) (prevIndex - 1) in
  let '(message, footer) :=
    match indexOf body "010" with
    | Some firstNewlineIndex =>
        (trim (slice body 0 firstNewlineIndex),
         trim (skipn (firstNewlineIndex + 1) body))
    | None => (trim body, trim [])
    end in
  mkCommit hash message footer versions (semverOf message footer).

(** The loop runs from the last match to the first; each turn hands its
    index to the turn before it. *)
Fixpoint commitsOf (rawGitLogStr : jsstring) (matches : list MatchResult) : list Commit * nat :=
  match matches with
  | [] => ([], length rawGitLogStr)
  | mt :: matches' =>
      let '(commits, prevIndex) := commitsOf rawGitLogStr matches' in
      (commitOf rawGitLogStr mt prevIndex :: commits, index mt)
  end.

Definition parseGitLog (rawGitLogStr : jsstring) : list Commit :=
  fst (commitsOf rawGitLogStr (matchAll COMMIT_HEADER_REGEX rawGitLogStr)).

Definition git_log_command : jsstring :=
  str "git --no-pager log --format=format:'%H$%D%n%B'".

Definition getAllCommits (w : World) : result (list Commit) :=
  rawGitLogStr <- run w git_log_command ;;
  Ok (parseGitLog rawGitLogStr).

(** The loops of [getCommitsSinceLastRelease]: the index at which [i]
    stops. *)
Fixpoint scan (stop : Commit -> bool) (allCommits : list Commit) : nat :=
  match allCommits with
  | [] => 0
  | c :: rest => if stop c then 0 else S (scan stop rest)
  end.

Definition windowOf (allCommits : list Commit) (lastHash : option jsstring) : list Commit :=
  let i :=
    if truthy lastHash then
      let lastHashLower :=
        toLowerCase (match lastHash with Some h => h | None => [] end) in
      scan (fun c => startsWith (hash c) lastHashLower) allCommits
    else
      scan (fun c => 0 <? length (versions c)) allCommits in
  firstn i allCommits.

Definition getCommitsSinceLastRelease (w : World) (lastHash : option jsstring)
  : result (list Commit) :=
  allCommits <- getAllCommits w ;;
  Ok (windowOf allCommits lastHash).

Record ReleaseData : Type := mkReleaseData {
  prev : Version;
  next : Version;
  commits : list Commit;
  majors : list Commit;
  minors : list Commit;
  patches : list Commit
}.

Inductive Increment : Set :=
| IncMajor
| IncMinor
| IncPatch.

(** The accumulators of the loop of [generateRelease]. *)
Record Buckets : Type := mkBuckets {
  increment : Increment;
  b_majors : list Commit;
  b_minors : list Commit;
  b_patches : list Commit
}.

Definition withMessage (c : Commit) (msg : jsstring) : Commit :=
  mkCommit (hash c) msg (footer c) (versions c) (semver c).

(** One turn of the loop: [push] appends. *)
Definition bucketStep (b : Buckets) (commit : Commit) : Buckets :=
  match semver commit with
  | SemverMajor =>
      mkBuckets IncMajor (b_majors b ++ [commit]) (b_minors b) (b_patches b)
  | SemverMinor =>
      mkBuckets (match increment b with IncPatch => IncMinor | i => i end)
                (b_majors b) (b_minors b ++ [commit]) (b_patches b)
  | SemverPatch =>
      mkBuckets (increment b) (b_majors b) (b_minors b) (b_patches b ++ [commit])
  | SemverUnknown =>
      mkBuckets (increment b) (b_majors b) (b_minors b)
                (b_patches b ++ [withMessage commit (str "unknown: " ++ message commit)])
  end.

Definition bucketsOf (commits : list Commit) : Buckets :=
  fold_left bucketStep commits (mkBuckets IncPatch [] [] []).

Definition version3 (a b c : number) : Version := mkVersion a b c None.

Definition nextVersion (prev : Version) (increment : Increment) : Version :=
  if Number.geb (major prev) (Fin 1)
     && isFirstBefore prev (version3 (major prev) (Fin 0) (Fin 0))
  then version3 (major prev) (Fin 0) (Fin 0)
  else if isFirstBefore prev (version3 (Fin 0) (Fin 1) (Fin 0))
  then version3 (major prev) (Fin 1) (Fin 0)
  else
    match increment with
    | IncMajor => version3 (Number.add (major prev) (Fin 1)) (Fin 0) (Fin 0)
    | IncMinor => version3 (major prev) (Number.add (minor prev) (Fin 1)) (Fin 0)
    | IncPatch => version3 (major prev) (minor prev) (Number.add (patch prev) (Fin 1))
    end.

(** The body of [generateRelease] after its two awaits. *)
Definition releaseOf (prev : Version) (commits : list Commit) : ReleaseData :=
  let b := bucketsOf commits in
  mkReleaseData prev (nextVersion prev (increment b)) commits
                (b_majors b) (b_minors b) (b_patches b).

Definition generateRelease (w : World) (lastHash : option jsstring) : result ReleaseData :=
  prev <- getPublishedVersion w ;;
  commits <- getCommitsSinceLastRelease w lastHash ;;
  Ok (releaseOf prev commits).

(** The filter of [toMarkdownList]: an element is dropped when it equals
    the element before it in the array that is filtered. *)
Fixpoint dropRepeats (prevLine : option jsstring) (arr : list jsstring) : list jsstring :=
  match arr with
  | [] => []
  | x :: arr' =>
      match prevLine with
      | Some p => if JsString.eqb p x then dropRepeats (Some x) arr'
                  else x :: dropRepeats (Some x) arr'
      | None => x :: dropRepeats (Some x) arr'
      end
  end.

Definition LF : jsstring := ["010"%char].

Definition toMarkdownList (commits : list Commit) : jsstring :=
  join LF (dropRepeats None (map (fun c => str "- " ++ message c) commits)).

Definition nonEmpty (s : jsstring) : bool :=
  match s with [] => false | _ => true end.

Definition generateChangelogMarkdown (r : ReleaseData) : jsstring :=
  let output :=
    join (LF ++ LF)
      (filter nonEmpty
         [ if 0 <? length (majors r)
           then str "# Major changes (breaking)" ++ LF ++ LF ++ toMarkdownList (majors r)
           else [];
           if 0 <? length (minors r)
           then str "# Feature updates" ++ LF ++ LF ++ toMarkdownList (minors r)
           else [];
           if 0 <? length (patches r)
           then str "# Other commits" ++ LF ++ LF ++ toMarkdownList (patches r)
           else [] ]) in
  if nonEmpty output then output ++ LF else [].


(* ================================================================== *)
(** * What a pattern matches *)
(* ================================================================== *)

(** [Matches r st c st' c']: the pattern [r] can take the matcher from the
    position [st] with captures [c] to the position [st'] with captures
    [c'].  This is the relation the backtracking matcher searches. *)
Inductive Matches : regex -> state -> caps -> state -> caps -> Prop :=
| M_Eps st c : Matches Eps st c st c
| M_Cls (p : ascii -> bool) a b rest c :
    p a = true -> Matches (Cls p) (b, a :: rest) c (a :: b, rest) c
| M_Seq r1 r2 st c st1 c1 st2 c2 :
    Matches r1 st c st1 c1 -> Matches r2 st1 c1 st2 c2 ->
    Matches (Seq r1 r2) st c st2 c2
| M_AltL r1 r2 st c st' c' :
    Matches r1 st c st' c' -> Matches (Alt r1 r2) st c st' c'
| M_AltR r1 r2 st c st' c' :
    Matches r2 st c st' c' -> Matches (Alt r1 r2) st c st' c'
| M_Star0 r st c : Matches (Star r) st c st c
| M_StarS r st c st1 c1 st2 c2 :
    Matches r st c st1 c1 ->
    length (snd st1) < length (snd st) ->
    Matches (Star r) st1 c1 st2 c2 ->
    Matches (Star r) st c st2 c2
| M_Group i r st c st' c' :
    Matches r st c st' c' ->
    Matches (Group i r) st c st' ((i, between st st') :: c')
| M_Assert (f : jsstring -> jsstring -> bool) st c :
    f (fst st) (snd st) = true -> Matches (Assert f) st c st c.

Fixpoint no_group (r : regex) : Prop :=
  match r with
  | Seq r1 r2 | Alt r1 r2 => no_group r1 /\ no_group r2
  | Star r' => no_group r'
  | Group _ _ => False
  | _ => True
  end.

(** Every class of the pattern lies within [P]. *)
Fixpoint classes_within (P : ascii -> bool) (r : regex) : Prop :=
  match r with
  | Cls p => forall a, p a = true -> P a = true
  | Seq r1 r2 | Alt r1 r2 => classes_within P r1 /\ classes_within P r2
  | Star r' | Group _ r' => classes_within P r'
  | _ => True
  end.

(* ================================================================== *)
(** * The words of the specification *)
(* ================================================================== *)

(** The human string as the specification words it: the bracketed suffix
    for the all-zero version with a suffix, the semver string otherwise. *)
Definition humanStringInWords (version : Version) : jsstring :=
  if Number.eqb (major version) (Fin 0) && Number.eqb (minor version) (Fin 0)
     && Number.eqb (patch version) (Fin 0) && truthy (suffix version)
  then str "[" ++ match suffix version with Some s => s | None => [] end ++ str "]"
  else versionToSemverString version.

(** The two conditions that override the bump in [generateRelease]. *)
Definition normalizes (prev : Version) : bool :=
  Number.geb (major prev) (Fin 1)
  && isFirstBefore prev (version3 (major prev) (Fin 0) (Fin 0)).

Definition bootstraps (prev : Version) : bool :=
  isFirstBefore prev (version3 (Fin 0) (Fin 1) (Fin 0)).

Definition Semver_eqb (a b : Semver) : bool :=
  match a, b with
  | SemverMajor, SemverMajor | SemverMinor, SemverMinor
  | SemverPatch, SemverPatch | SemverUnknown, SemverUnknown => true
  | _, _ => false
  end.

Definition impactIs (s : Semver) (c : Commit) : bool := Semver_eqb (semver c) s.

(** The aggregated bump: major if any commit is major, else minor if any
    is minor, else patch. *)
Definition aggregated (commits : list Commit) : Increment :=
  if existsb (impactIs SemverMajor) commits then IncMajor
  else if existsb (impactIs SemverMinor) commits then IncMinor
  else IncPatch.

Definition bumped (prev : Version) (i : Increment) : Version :=
  match i with
  | IncMajor => version3 (Number.add (major prev) (Fin 1)) (Fin 0) (Fin 0)
  | IncMinor => version3 (major prev) (Number.add (minor prev) (Fin 1)) (Fin 0)
  | IncPatch => version3 (major prev) (minor prev) (Number.add (patch prev) (Fin 1))
  end.

(** The bump after some more commits, [i] being the bump so far. *)
Definition merge (i : Increment) (commits : list Commit) : Increment :=
  if existsb (impactIs SemverMajor) commits then IncMajor
  else match i with
       | IncPatch => if existsb (impactIs SemverMinor) commits then IncMinor else IncPatch
       | _ => i
       end.

(** A commit as it is listed among the patches. *)
Definition listed (c : Commit) : Commit :=
  match semver c with
  | SemverUnknown => withMessage c (str "unknown: " ++ message c)
  | _ => c
  end.

Definition inPatches (c : Commit) : bool :=
  impactIs SemverPatch c || impactIs SemverUnknown c.

(** A history of three commits with the subjects [fix: x], [feat: y] and
    [feat!: z], as [git log] prints it. *)
Definition three_commits_log : jsstring :=
  str "0123456789abcdef0123456789abcdef01234567$HEAD -> main" ++ LF ++
  str "fix: x" ++ LF ++ LF ++
  str "89abcdef0123456789abcdef0123456789abcdef$" ++ LF ++
  str "feat: y" ++ LF ++ LF ++
  str "fedcba9876543210fedcba9876543210fedcba98$" ++ LF ++
  str "feat!: z" ++ LF.

Definition v (a b c : N) : Version := version3 (Fin a) (Fin b) (Fin c).

(** The consecutive-duplicate filter: a message equal to the last one kept
    is dropped. *)
Fixpoint collapse_after (last : jsstring) (l : list jsstring) : list jsstring :=
  match l with
  | [] => []
  | x :: l' => if JsString.eqb last x then collapse_after last l'
               else x :: collapse_after x l'
  end.

Definition collapse (l : list jsstring) : list jsstring :=
  match l with
  | [] => []
  | x :: l' => x :: collapse_after x l'
  end.

(** The section of one bucket: the heading, an empty line, and one bullet
    per message. *)
Definition section (heading : jsstring) (bucket : list Commit) : list jsstring :=
  match bucket with
  | [] => []
  | _ => [str "# " ++ heading ++ LF ++ LF ++
          join LF (map (fun msg => str "- " ++ msg) (collapse (map message bucket)))]
  end.

(** The changelog in the words of the specification: the sections of the
    non-empty buckets, Major, Minor, Patch, one empty line between two
    sections and a line feed at the end. *)
Definition rendered (r : ReleaseData) : jsstring :=
  match section (str "Major changes (breaking)") (majors r) ++
        section (str "Feature updates") (minors r) ++
        section (str "Other commits") (patches r) with
  | [] => []
  | sections => join (LF ++ LF) sections ++ LF
  end.

Definition ends_in (a : ascii) (s : jsstring) : Prop := exists b, s = b ++ [a].

Definition single_line (c : Commit) : Prop := ~ In "010"%char (message c).

Definition commit_with (msg : jsstring) (s : Semver) : Commit :=
  mkCommit (str "0123456789abcdef0123456789abcdef01234567") msg [] [] s.

Definition release_with (majors minors patches : list Commit) : ReleaseData :=
  mkReleaseData (v 1 0 0) (v 2 0 0) (majors ++ minors ++ patches) majors minors patches.

(** A boundary matches a hash when, case set aside, it is a prefix of it. *)
Definition ci_prefix (boundary h : jsstring) : bool :=
  startsWith (toLowerCase h) (toLowerCase boundary).

(** [window] is what is strictly newer than the first commit of [all]
    (newest first) that satisfies [P], and all of [all] when there is no such
    commit. *)
Definition newer_than_first (P : Commit -> Prop) (all window : list Commit) : Prop :=
  (exists c older, all = window ++ c :: older /\ P c /\
                   Forall (fun x => ~ P x) window) \/
  (Forall (fun x => ~ P x) all /\ window = all).

(** A world in which [package.json] has a name, [npm show] answers
    [version] and [git log] prints [log]. *)
Definition world_with (version log : jsstring) : World :=
  mkWorld (Ok (Some (str "pkg")))
          (fun command => if JsString.eqb command git_log_command then Ok log
                          else Ok version)
          true.

(** ** The language of a pattern *)

Definition cat (L1 L2 : jsstring -> Prop) : jsstring -> Prop :=
  fun x => exists x1 x2, x = x1 ++ x2 /\ L1 x1 /\ L2 x2.

Inductive star (L : jsstring -> Prop) : jsstring -> Prop :=
| star_nil : star L []
| star_app x y : x <> [] -> L x -> star L y -> star L (x ++ y).

(** The strings a pattern without assertions can consume. *)
Fixpoint Lang (r : regex) : jsstring -> Prop :=
  match r with
  | Eps => fun x => x = []
  | Cls p => fun x => exists a, x = [a] /\ p a = true
  | Seq r1 r2 => cat (Lang r1) (Lang r2)
  | Alt r1 r2 => fun x => Lang r1 x \/ Lang r2 x
  | Star r' => star (Lang r')
  | Group _ r' => Lang r'
  | Assert _ => fun x => x = []
  end.

Fixpoint assert_free (r : regex) : Prop :=
  match r with
  | Seq r1 r2 | Alt r1 r2 => assert_free r1 /\ assert_free r2
  | Star r' | Group _ r' => assert_free r'
  | Assert _ => False
  | _ => True
  end.

(** ** Conventional-commit subjects, in words *)

(** One or more lower-case letters. *)
Definition lower_word (ty : jsstring) : Prop :=
  ty <> [] /\ Forall (fun a => is_lower a = true) ty.

(** Nothing, or a non-empty scope without closing parenthesis, in
    parentheses. *)
Definition scope_part (sc : jsstring) : Prop :=
  sc = [] \/
  exists x, x <> [] /\ Forall (fun a => a <> ")"%char) x /\
            sc = "("%char :: x ++ [")"%char].

Definition bang (b : jsstring) : Prop := b = ["!"%char].
Definition optional_bang (b : jsstring) : Prop := b = [] \/ b = ["!"%char].

(** [subject] starts with a type, an optional scope, a bang part and a
    colon. *)
Definition subject_form (type_ok bang_ok : jsstring -> Prop) (subject : jsstring) : Prop :=
  exists ty sc b rest,
    subject = ty ++ sc ++ b ++ ":"%char :: rest /\
    type_ok ty /\ scope_part sc /\ bang_ok b.

Definition breaking_subject : jsstring -> Prop := subject_form lower_word bang.
Definition feat_subject : jsstring -> Prop :=
  subject_form (fun ty => ty = str "feat") optional_bang.
Definition conventional_subject : jsstring -> Prop :=
  subject_form lower_word optional_bang.

Definition contains (s marker : jsstring) : Prop :=
  exists a b, s = a ++ marker ++ b.

Definition breaking_footer (footer : jsstring) : Prop :=
  contains footer (str "BREAKING CHANGE: ").

(** The type token of a subject: what stands before the first
    parenthesis, bang or colon. *)
Fixpoint type_token (subject : jsstring) : jsstring :=
  match subject with
  | [] => []
  | a :: s =>
      if Ascii.eqb a "(" || Ascii.eqb a "!" || Ascii.eqb a ":" then []
      else a :: type_token s
  end.

(** ** Version strings, in words *)

(** A safe integer: a number below 2^53, where the doubles are exactly the
    integers. *)
Definition safe (x : number) : Prop := exists n, x = Fin n /\ (n < 2 ^ 53)%N.

(** A version string without its build metadata: what stands before the
    first plus sign. *)
Fixpoint without_build (s : jsstring) : jsstring :=
  match s with
  | [] => []
  | a :: s' => if Ascii.eqb a "+" then [] else a :: without_build s'
  end.

(** The code units of a pre-release or build part. *)
Definition part_char : ascii -> bool :=
  fun c => alnum_hyphen c || Ascii.eqb c ".".

(** A version string put together from its parts. *)
Definition version_string (g1 g2 g3 : jsstring) (pre bld : option jsstring) : jsstring :=
  g1 ++ "."%char :: g2 ++ "."%char :: g3 ++
  match pre with Some p => "-"%char :: p | None => [] end ++
  match bld with Some b => "+"%char :: b | None => [] end.

Definition version_char : ascii -> bool :=
  fun c => part_char c || Ascii.eqb c "+".

(** The message of the error thrown when the published version cannot be
    looked up. *)
Definition offline_message (name : jsstring) : jsstring :=
  str "need to be online to determine latest npm version of '" ++ name ++ str "'".

Definition npm_show_command (name : jsstring) : jsstring :=
  str "npm show '" ++ name ++ str "' version".

(** The published version can be found out: the lookup answers, or it
    fails while the network is there (nothing is published yet). *)
Definition version_resolves (w : World) (name : jsstring) : Prop :=
  (exists out, run w (npm_show_command name) = Ok out) \/ isOnline w = true.

(** ** The SemVer grammar, in words *)

(** [0], or a digit from 1 to 9 followed by digits. *)
Definition numeric_identifier (x : jsstring) : Prop :=
  x = ["0"%char] \/
  exists d ds, x = d :: ds /\ digit19 d = true /\
               Forall (fun a => is_digit a = true) ds.

(** Letters, digits and hyphens, one of them at least not a digit. *)
Definition alphanumeric_identifier (x : jsstring) : Prop :=
  Forall (fun a => alnum_hyphen a = true) x /\
  exists a, In a x /\ is_digit a = false.

Definition prerelease_identifier (x : jsstring) : Prop :=
  numeric_identifier x \/ alphanumeric_identifier x.

(** One or more letters, digits and hyphens. *)
Definition build_identifier (x : jsstring) : Prop :=
  x <> [] /\ Forall (fun a => alnum_hyphen a = true) x.

(** One or more identifiers separated by dots. *)
Definition dotted (id : jsstring -> Prop) (x : jsstring) : Prop :=
  exists first others,
    id first /\ Forall id others /\ x = join ["."%char] (first :: others).

(** [MAJOR.MINOR.PATCH], then maybe [-PRERELEASE], then maybe [+BUILD]. *)
Definition semver_grammar (s : jsstring) : Prop :=
  exists g1 g2 g3 pre bld,
    s = version_string g1 g2 g3 pre bld /\
    numeric_identifier g1 /\ numeric_identifier g2 /\ numeric_identifier g3 /\
    (forall p, pre = Some p -> dotted prerelease_identifier p) /\
    (forall b, bld = Some b -> dotted build_identifier b).

(* ================================================================== *)
(** * Further notions used in the properties of the code *)
(* ================================================================== *)

(** The three numbers of a version are numbers indeed, not [NaN]. *)
Definition numeric (ver : Version) : Prop :=
  major ver <> NaN /\ minor ver <> NaN /\ patch ver <> NaN.

(** Two versions at the same tier: the same three numbers, and both with
    or both without a suffix. *)
Definition same_tier (a b : Version) : Prop :=
  major a = major b /\ minor a = minor b /\ patch a = patch b /\
  truthy (suffix a) = truthy (suffix b).

(** The version that stands for "nothing published yet". *)
Definition unpublished : Version :=
  mkVersion (Fin 0) (Fin 0) (Fin 0) (Some (str "new")).

(** A version as [parseVersion] makes them: three safe integers, and a
    suffix that is absent or a pre-release. *)
Definition well_formed (ver : Version) : Prop :=
  safe (major ver) /\ safe (minor ver) /\ safe (patch ver) /\
  forall p, suffix ver = Some p -> dotted prerelease_identifier p.

(** [r] is empty or starts with a code unit outside [P]. *)
Definition stops (P : ascii -> bool) (r : jsstring) : Prop :=
  match r with
  | [] => True
  | c :: _ => P c = false
  end.

(** A number that can be raised by one without leaving the safe
    integers. *)
Definition can_bump (x : number) : Prop :=
  exists n, x = Fin n /\ (n + 1 < 2 ^ 53)%N.

(** The published version could not be found out and the network is
    there, or what was found is not a version. *)
Definition nothing_published (w : World) (name : jsstring) : Prop :=
  ((exists e, run w (npm_show_command name) = Throw e) /\ isOnline w = true) \/
  (exists out, run w (npm_show_command name) = Ok out /\
               ~ semver_grammar (trim out)).

(** What holds of every commit the parser makes. *)
Definition parsed_commit (c : Commit) : Prop :=
  length (hash c) = 40 /\
  Forall (fun a => hex_digit a = true) (hash c) /\
  trim (message c) = message c /\
  ~ In "010"%char (message c) /\
  trim (footer c) = footer c /\
  semver c = semverOf (message c) (footer c) /\
  Forall (fun ver => exists s, semver_grammar s /\ ver = parseVersion s) (versions c).

(** No two neighbours of the list are equal. *)
Fixpoint no_neighbours_equal (l : list jsstring) : Prop :=
  match l with
  | x :: l' =>
      match l' with
      | y :: _ => x <> y /\ no_neighbours_equal l'
      | [] => True
      end
  | [] => True
  end.

(** The boundary cannot be the start of any hash: it holds a code unit
    that, in lower case, is neither a digit nor a letter from a to f, or it
    is longer than a hash. *)
Definition not_a_hash_prefix (boundary : jsstring) : Prop :=
  (exists a, In a (toLowerCase boundary) /\ hex_digit a = false) \/
  40 < length boundary.

(* ================================================================== *)
(** * The command line, [src/unnamed/part_000] *)
(* ================================================================== *)

(** The part of the configuration that the command line sets. *)
Record Config : Type := mkConfig {
  prevHash : option jsstring;
  dryRun : bool
}.

(** [args] are the arguments after the command and the file name;
    [find] is [Array.prototype.find], [existsb] is [includes]. *)
Definition cliConfig (args : list jsstring) : Config :=
  mkConfig (find (fun arg => negb (JsString.eqb arg (str "--dry-run"))) args)
           (existsb (fun arg => JsString.eqb arg (str "--dry-run")) args).

(* ================================================================== *)
(** * Asking for confirmation *)
(* ================================================================== *)

Definition endsWith (s p : jsstring) : bool := startsWith (rev s) (rev p).

(** The text that [ask] hands to [question]. *)
Definition questionOf (prompt : jsstring) : jsstring :=
  let shouldAddSpace :=
    negb (endsWith prompt (str " ") || endsWith prompt LF || JsString.eqb prompt []) in
  prompt ++ (if shouldAddSpace then str " " else []).

(** The loop of [publish] that asks [release? [N/y]]: [answers] are the
    lines that the user gives, one per turn.  [Some true] goes on with the
    release, [Some false] returns [false]; [None]: the loop is still asking
    when the answers are used up. *)
Fixpoint confirmRelease (answers : list jsstring) : option bool :=
  match answers with
  | [] => None
  | a :: rest =>
      let answer := toLowerCase (trim a) in
      if JsString.eqb answer (str "y") then Some true
      else if JsString.eqb answer (str "n") then Some false
      else confirmRelease rest
  end.

Definition blank (s : jsstring) : Prop := Forall (fun a => is_space a = true) s.

(* ================================================================== *)
(** * The banner of the built files *)
(* ================================================================== *)

(** The comment that [publish] puts into the built files.  [authorStr] is
    computed from the author of the package, whose type is declared
    outside these sources; it is taken as given. *)
Definition commentOf (name : option jsstring) (authorStr : jsstring)
    (license : option jsstring) : jsstring :=
  let licenceStr :=
    if truthy license
    then str "@license " ++ (match license with Some l => l | None => [] end) ++ str " "
    else [] in
  str "/**! " ++
  join (str " | ") [match name with Some n => n | None => [] end; authorStr; licenceStr] ++
  str " */".

(** What [publish] writes back to a built file.  Without a line feed
    [eol1Index] is infinite: [line1] is the whole text and nothing
    follows it. *)
Definition withBanner (comment distFileContents : jsstring) : jsstring :=
  let '(line1, rest) :=
    match indexOf distFileContents "010" with
    | Some eol1Index =>
        (slice distFileContents 0 eol1Index, skipn (eol1Index + 1) distFileContents)
    | None => (distFileContents, [])
    end in
  if startsWith line1 (str "#!")
  then line1 ++ LF ++ comment ++ LF ++ rest
  else comment ++ LF ++ distFileContents.

(* ================================================================== *)
(** * The commands of the release *)
(* ================================================================== *)

(** What the release does, in order: a command handed to [run], or a
    message handed to [cfg.log]. *)
Inductive Action : Type :=
| Ran (command : jsstring)
| Logged (message : jsstring).

(** A step takes the actions so far and gives the actions after it, with
    its outcome. *)
Definition Step : Type := list Action -> list Action * result unit.

Definition runUnlessDry (w : World) (cfg_dryRun : bool) (command : jsstring) : Step :=
  fun trace =>
    if cfg_dryRun
    then (trace ++ [Logged (str "dry run (skip): " ++ command)], Ok tt)
    else (trace ++ [Ran command], _ <- run w command ;; Ok tt).

(** One statement after the other: a throw ends the sequence. *)
Definition andThen (s1 s2 : Step) : Step :=
  fun trace =>
    match s1 trace with
    | (trace', Ok _) => s2 trace'
    | (trace', Throw e) => (trace', Throw e)
    end.

(** The last statements of the [try] block of [publish], from [git add] to
    [npm publish].  [isFile_npmrc] is the outcome of [isFile] on the
    [.npmrc] of the home directory. *)
Definition release (w : World) (cfg_dryRun : bool) (nextSemver : jsstring)
    (isFile_npmrc : result bool) : Step :=
  andThen (runUnlessDry w cfg_dryRun (str "git add ."))
  (andThen (runUnlessDry w cfg_dryRun
              (str "git commit -m 'ci: release v" ++ nextSemver ++ str "'"))
  (andThen (runUnlessDry w cfg_dryRun
              (str "git tag -a v" ++ nextSemver ++ str " -m '" ++ nextSemver ++ str "'"))
  (andThen (runUnlessDry w cfg_dryRun (str "git push"))
  (andThen (runUnlessDry w cfg_dryRun (str "git push origin v" ++ nextSemver))
  (andThen (fun trace =>
              match isFile_npmrc with
              | Throw e => (trace, Throw e)
              | Ok true => (trace, Ok tt)
              | Ok false => runUnlessDry w cfg_dryRun (str "npm login") trace
              end)
           (runUnlessDry w cfg_dryRun (str "npm publish"))))))).

(** A world in which every command succeeds. *)
Definition obliging (w : World) : Prop := forall command, exists out, run w command = Ok out.

(** The commands of the release, in words: the five of git, then, when the
    [.npmrc] of the home directory can be looked at, the login if it is
    not a file, and the publication. *)
Definition git_commands (nextSemver : jsstring) : list jsstring :=
  [str "git add .";
   str "git commit -m 'ci: release v" ++ nextSemver ++ str "'";
   str "git tag -a v" ++ nextSemver ++ str " -m '" ++ nextSemver ++ str "'";
   str "git push";
   str "git push origin v" ++ nextSemver].

Definition npm_commands (isFile_npmrc : result bool) : list jsstring :=
  match isFile_npmrc with
  | Ok true => [str "npm publish"]
  | Ok false => [str "npm login"; str "npm publish"]
  | Throw _ => []
  end.

(** The outcome of a release whose commands all succeed: the error of the
    look at [.npmrc], if there is one. *)
Definition outcome_of (isFile_npmrc : result bool) : result unit :=
  match isFile_npmrc with
  | Ok _ => Ok tt
  | Throw e => Throw e
  end.

(* ================================================================== *)
(** * A history as [git log] prints it *)
(* ================================================================== *)

(** One commit of the history: what [%H], [%D] and [%B] stand for. *)
Record LogEntry : Type := mkLogEntry {
  entry_hash : jsstring;
  entry_refs : jsstring;
  entry_body : jsstring
}.

(** [%H$%D%n%B] for one commit. *)
Definition printed (e : LogEntry) : jsstring :=
  entry_hash e ++ "$"%char :: entry_refs e ++ LF ++ entry_body e.

(** The commits in the order of the history, a line feed between two of
    them. *)
Definition gitLog (es : list LogEntry) : jsstring := join LF (map printed es).

(** The text begins like a header: forty digits or letters from a to f
    and a dollar sign. *)
Definition header_start (a : jsstring) : Prop :=
  exists h rest, a = h ++ "$"%char :: rest /\ length h = 40 /\
                 Forall (fun x => hex_digit x = true) h.

(** No line of the body begins like a header. *)
Definition header_free (body : jsstring) : Prop :=
  forall pre post, body = pre ++ post -> pre = [] \/ ends_in "010" pre ->
                   ~ header_start post.

(** A commit as [git log] can print it: a hash of forty lower-case
    hexadecimal digits, ref names on one line, and a body that is empty or
    ends in a line feed and has no line that begins like a header. *)
Definition entry_ok (e : LogEntry) : Prop :=
  length (entry_hash e) = 40 /\
  Forall (fun a => hex_digit a = true) (entry_hash e) /\
  Forall (fun a => dot a = true) (entry_refs e) /\
  (entry_body e = [] \/ ends_in "010" (entry_body e)) /\
  header_free (entry_body e).

Definition first_line (body : jsstring) : jsstring := hd [] (split "010" body).

Definition after_first_line (body : jsstring) : jsstring :=
  skipn (S (length (first_line body))) body.

(** The commit that an entry stands for: the subject is the first line of
    the body, the footer is what follows it, both without the white space
    around them. *)
Definition commit_of_entry (e : LogEntry) : Commit :=
  let message := trim (first_line (entry_body e)) in
  let footer := trim (after_first_line (entry_body e)) in
  mkCommit (entry_hash e) message footer (versionsOf (entry_refs e))
           (semverOf message footer).

(** The matches of the header pattern in a printed history that starts at
    [offset]. *)
Fixpoint matches_of (offset : nat) (es : list LogEntry) : list MatchResult :=
  match es with
  | [] => []
  | e :: es' =>
      mkMatch offset (entry_hash e ++ "$"%char :: entry_refs e)
              [(2, entry_refs e); (1, entry_hash e)] ::
      matches_of (offset + length (printed e) + 1) es'
  end.

(* ================================================================== *)
(** * The state of the checkout *)
(* ================================================================== *)



(* ================================================================== *)
(** * The matcher finds what the pattern matches *)
(* ================================================================== *)

Section Matcher.

Lemma Matches_consumes r st c st' c' :
  Matches r st c st' c' ->
  exists x, snd st = x ++ snd st' /\ fst st' = rev x ++ fst st.
Proof.
  induction 1; simpl.
  - exists []; auto.
  - exists [a]; auto.
  - destruct IHMatches1 as (x1 & E1 & F1), IHMatches2 as (x2 & E2 & F2).
    exists (x1 ++ x2). rewrite E1, E2, F2, F1, rev_app_distr, !app_assoc; auto.
  - assumption.
  - assumption.
  - exists []; auto.
  - destruct IHMatches1 as (x1 & E1 & F1), IHMatches2 as (x2 & E2 & F2).
    exists (x1 ++ x2). rewrite E1, E2, F2, F1, rev_app_distr, !app_assoc; auto.
  - assumption.
  - exists []; auto.
Qed.

Lemma between_app b b' x a : between (b, x ++ a) (b', a) = x.
Proof.
  unfold between; simpl. rewrite length_app.
  replace (length x + length a - length a) with (length x) by lia.
  rewrite firstn_app, Nat.sub_diag, firstn_all; simpl. apply app_nil_r.
Qed.

Lemma Matches_no_group r st c st' c' :
  Matches r st c st' c' -> no_group r -> c' = c.
Proof.
  induction 1; simpl; intros G; try tauto; try reflexivity.
  - destruct G. rewrite IHMatches2, IHMatches1; auto.
  - rewrite IHMatches2, IHMatches1; auto.
Qed.

Lemma Matches_alphabet P r st c st' c' :
  Matches r st c st' c' -> classes_within P r ->
  exists x, snd st = x ++ snd st' /\ fst st' = rev x ++ fst st /\
            Forall (fun a => P a = true) x.
Proof.
  induction 1; simpl; intros W.
  - exists []; auto.
  - exists [a]; auto.
  - destruct W as [W1 W2].
    destruct (IHMatches1 W1) as (x1 & E1 & F1 & A1).
    destruct (IHMatches2 W2) as (x2 & E2 & F2 & A2).
    exists (x1 ++ x2). rewrite E1, E2, F2, F1, rev_app_distr, !app_assoc.
    repeat split; auto. apply Forall_app; auto.
  - apply IHMatches; tauto.
  - apply IHMatches; tauto.
  - exists []; auto.
  - destruct (IHMatches1 W) as (x1 & E1 & F1 & A1).
    destruct (IHMatches2 W) as (x2 & E2 & F2 & A2).
    exists (x1 ++ x2). rewrite E1, E2, F2, F1, rev_app_distr, !app_assoc.
    repeat split; auto. apply Forall_app; auto.
  - auto.
  - exists []; auto.
Qed.

(** Soundness: a result of the matcher comes from a match of the pattern
    followed by a success of the continuation. *)
Lemma m_star_sound r :
  (forall st c k res, m r st c k = Some res ->
     exists st' c', Matches r st c st' c' /\ k st' c' = Some res) ->
  forall fuel st c k res, m_star fuel (m r) st c k = Some res ->
    exists st' c', Matches (Star r) st c st' c' /\ k st' c' = Some res.
Proof.
  intros IH fuel; induction fuel as [|fuel IHf]; simpl; intros st c k res H.
  - exists st, c; split; [constructor | assumption].
  - destruct (m r st c _) as [res0|] eqn:E.
    + inversion H; subst res0; clear H.
      apply IH in E. destruct E as (st1 & c1 & M1 & K1).
      destruct (length (snd st1) <? length (snd st)) eqn:L; [|discriminate].
      apply Nat.ltb_lt in L.
      apply IHf in K1. destruct K1 as (st2 & c2 & M2 & K2).
      exists st2, c2; split; [eapply M_StarS; eauto | assumption].
    + exists st, c; split; [constructor | assumption].
Qed.

Theorem m_sound r : forall st c k res,
  m r st c k = Some res ->
  exists st' c', Matches r st c st' c' /\ k st' c' = Some res.
Proof.
  induction r; simpl; intros st c k res H.
  - exists st, c; split; [constructor | assumption].
  - destruct st as [b a]; simpl in H. destruct a as [|x rest]; [discriminate|].
    destruct (p x) eqn:P; [|discriminate].
    exists (x :: b, rest), c; split; [constructor; assumption | assumption].
  - apply IHr1 in H. destruct H as (st1 & c1 & M1 & H).
    apply IHr2 in H. destruct H as (st2 & c2 & M2 & H).
    exists st2, c2; split; [econstructor; eauto | assumption].
  - destruct (m r1 st c k) as [res0|] eqn:E.
    + inversion H; subst res0. apply IHr1 in E.
      destruct E as (st' & c' & M1 & K). exists st', c'; split; [apply M_AltL|]; auto.
    + apply IHr2 in H. destruct H as (st' & c' & M1 & K).
      exists st', c'; split; [apply M_AltR|]; auto.
  - exact (@m_star_sound r IHr (S (length (snd st))) st c k res H).
  - apply IHr in H. destruct H as (st' & c' & M1 & K).
    exists st', ((i, between st st') :: c'); split; [constructor|]; auto.
  - destruct (f (fst st) (snd st)) eqn:F; [|discriminate].
    exists st, c; split; [constructor|]; auto.
Qed.

(** Completeness: when the pattern matches and the continuation accepts
    the match, the matcher returns a result (that of the first path that
    succeeds, which may be another one). *)
Theorem m_complete r st c st' c' :
  Matches r st c st' c' ->
  forall k res, k st' c' = Some res ->
  (exists res', m r st c k = Some res') /\
  (forall r' fuel, r = Star r' -> length (snd st) < fuel ->
     exists res', m_star fuel (m r') st c k = Some res').
Proof.
  induction 1; intros k res K;
    (split; [|try (intros r' fuel E; discriminate E)]); simpl.
  - eauto.
  - rewrite H; eauto.
  - destruct (IHMatches2 k res K) as [[res2 E2] _].
    destruct (IHMatches1 (fun st' c' => m r2 st' c' k) res2 E2) as [[res1 E1] _]. eauto.
  - destruct (IHMatches k res K) as [[res1 E1] _]. rewrite E1; eauto.
  - destruct (m r1 st c k); eauto. apply (IHMatches k res K).
  - destruct (m r st c _); eauto.
  - intros r' fuel E L; inversion E; subst r'.
    destruct fuel; simpl; [lia|]. destruct (m r st c _); eauto.
  - destruct (IHMatches2 k res K) as [_ S2].
    destruct (S2 r (length (snd st)) eq_refl H0) as [res2 E2].
    set (k1 := fun (st' : state) (c' : caps) => if length (snd st') <? length (snd st)
                             then m_star (length (snd st)) (m r) st' c' k else None).
    assert (K1 : k1 st1 c1 = Some res2).
    { unfold k1. cbv beta. apply Nat.ltb_lt in H0. rewrite H0. assumption. }
    destruct (IHMatches1 k1 res2 K1) as [[res1 E1] _].
    fold k1. rewrite E1. eauto.
  - intros r' fuel E L; inversion E; subst r'.
    destruct fuel as [|fuel]; [lia|]. simpl.
    destruct (IHMatches2 k res K) as [_ S2].
    assert (L1 : length (snd st1) < fuel) by lia.
    destruct (S2 r fuel eq_refl L1) as [res2 E2].
    set (k1 := fun (st' : state) (c' : caps) => if length (snd st') <? length (snd st)
                             then m_star fuel (m r) st' c' k else None).
    assert (K1 : k1 st1 c1 = Some res2).
    { unfold k1. cbv beta. apply Nat.ltb_lt in H0. rewrite H0. assumption. }
    destruct (IHMatches1 k1 res2 K1) as [[res1 E1] _].
    rewrite E1. eauto.
  - destruct (IHMatches (fun st' c' => k st' ((i, between st st') :: c')) res K)
      as [[res1 E1] _]. eauto.
  - rewrite H; eauto.
Qed.

End Matcher.

(** ** Patterns anchored at the start of the input *)

Lemma exec_at_bol_later r : forall a b,
  b <> [] -> exec_at (Seq bol r) b a = None.
Proof.
  induction a as [|x a IH]; intros b Hb; simpl;
    (destruct b; [congruence|]); [reflexivity|].
  apply IH; discriminate.
Qed.

Lemma exec_at_anchored r s :
  exec_at (Seq bol r) [] s =
  match m r ([], s) [] accept with
  | Some (st', c) => Some (([], s), st', c)
  | None => None
  end.
Proof.
  destruct s as [|x s]; simpl.
  - destruct (m r ([], []) [] accept) as [[st' c]|]; reflexivity.
  - destruct (m r ([], x :: s) [] accept) as [[st' c]|]; [reflexivity|].
    apply exec_at_bol_later; discriminate.
Qed.

Lemma exec_anchored_Some r s mt :
  exec (Seq bol r) s = Some mt ->
  exists st' c', Matches r ([], s) [] st' c' /\
                 mt = mkMatch 0 (between ([], s) st') c'.
Proof.
  unfold exec. rewrite exec_at_anchored.
  destruct (m r ([], s) [] accept) as [[st' c]|] eqn:E; [|discriminate].
  simpl. intros H; inversion H; subst mt; clear H.
  apply m_sound in E. destruct E as (st1 & c1 & M1 & A).
  inversion A; subst. eauto.
Qed.

Lemma test_anchored r s :
  test (Seq bol r) s = true <-> exists st' c', Matches r ([], s) [] st' c'.
Proof.
  unfold test, exec. rewrite exec_at_anchored. split.
  - destruct (m r ([], s) [] accept) as [[st' c]|] eqn:E; [|discriminate].
    intros _. apply m_sound in E. destruct E as (st1 & c1 & M1 & A). eauto.
  - intros (st' & c' & M1).
    destruct (@m_complete r _ _ _ _ M1 accept (st', c') eq_refl) as [[res E] _].
    rewrite E. destruct res; reflexivity.
Qed.

(* ================================================================== *)
(** * Numbers and versions *)
(* ================================================================== *)

Lemma Number_eqb_eq a n : Number.eqb a (Fin n) = true <-> a = Fin n.
Proof.
  destruct a; simpl; split; try discriminate.
  - intros H. apply N.eqb_eq in H. congruence.
  - intros H. inversion H. apply N.eqb_refl.
Qed.

Lemma Number_ltb_0 a : Number.ltb a (Fin 0) = false.
Proof. destruct a; simpl; auto. apply N.ltb_ge, N.le_0_l. Qed.

Lemma Number_neqb_false a b : Number.neqb a b = false -> a = b.
Proof.
  unfold Number.neqb. destruct a, b; simpl; try discriminate; auto.
  intros H. apply negb_false_iff, N.eqb_eq in H. congruence.
Qed.

Lemma Number_neqb_refl_geb a n : Number.geb a (Fin n) = true -> Number.neqb a a = false.
Proof.
  destruct a; simpl; try discriminate; intros _; unfold Number.neqb; simpl; auto.
  rewrite N.eqb_refl; reflexivity.
Qed.

(** The first override applies to the pre-releases of [X.0.0], [X >= 1],
    and to nothing else. *)
Lemma normalizes_iff prev :
  normalizes prev = true <->
  Number.geb (major prev) (Fin 1) = true /\ minor prev = Fin 0 /\
  patch prev = Fin 0 /\ truthy (suffix prev) = true.
Proof.
  unfold normalizes, isFirstBefore; simpl. split.
  - intros H. apply andb_true_iff in H. destruct H as [G H]. split; [assumption|].
    rewrite (Number_neqb_refl_geb _ _ G) in H.
    destruct (Number.neqb (minor prev) (Fin 0)) eqn:E1.
    { rewrite Number_ltb_0 in H; discriminate. }
    destruct (Number.neqb (patch prev) (Fin 0)) eqn:E2.
    { rewrite Number_ltb_0 in H; discriminate. }
    apply Number_neqb_false in E1, E2. rewrite andb_true_r in H. auto.
  - intros (G & E1 & E2 & T). rewrite G, (Number_neqb_refl_geb _ _ G), E1, E2, T.
    reflexivity.
Qed.

Lemma bootstraps_major prev : bootstraps prev = true -> major prev = Fin 0.
Proof.
  unfold bootstraps, isFirstBefore; simpl.
  destruct (Number.neqb (major prev) (Fin 0)) eqn:E.
  - rewrite Number_ltb_0; discriminate.
  - intros _. apply Number_neqb_false in E; assumption.
Qed.

Lemma bootstraps_not_normalizes prev : bootstraps prev = true -> normalizes prev = false.
Proof.
  intros H. apply bootstraps_major in H. unfold normalizes. rewrite H. reflexivity.
Qed.

Lemma nextVersion_cases prev i :
  nextVersion prev i =
  if normalizes prev then version3 (major prev) (Fin 0) (Fin 0)
  else if bootstraps prev then version3 (major prev) (Fin 1) (Fin 0)
  else bumped prev i.
Proof. reflexivity. Qed.

(* ================================================================== *)
(** * The loop of generateRelease *)
(* ================================================================== *)

Lemma fold_bucketStep commits : forall b,
  fold_left bucketStep commits b =
  mkBuckets (merge (increment b) commits)
            (b_majors b ++ filter (impactIs SemverMajor) commits)
            (b_minors b ++ filter (impactIs SemverMinor) commits)
            (b_patches b ++ map listed (filter inPatches commits)).
Proof.
  induction commits as [|c commits IH]; intros b.
  - destruct b; simpl. unfold merge; simpl. rewrite !app_nil_r.
    destruct increment0; reflexivity.
  - simpl fold_left. rewrite IH. unfold bucketStep, merge, inPatches, impactIs, listed.
    destruct (semver c) eqn:S; simpl; rewrite ?S; simpl; rewrite <- ?app_assoc; simpl; rewrite ?S;
      destruct (increment b); repeat (destruct (existsb _ commits)); reflexivity.
Qed.

Lemma bucketsOf_spec commits :
  bucketsOf commits =
  mkBuckets (aggregated commits)
            (filter (impactIs SemverMajor) commits)
            (filter (impactIs SemverMinor) commits)
            (map listed (filter inPatches commits)).
Proof. unfold bucketsOf. rewrite fold_bucketStep. reflexivity. Qed.

Lemma buckets_partition (commits : list Commit) :
  length (filter (impactIs SemverMajor) commits) +
  length (filter (impactIs SemverMinor) commits) +
  length (map listed (filter inPatches commits)) = length commits.
Proof.
  rewrite length_map. induction commits as [|c commits IH]; [reflexivity|].
  simpl. unfold inPatches, impactIs in *.
  destruct (semver c); simpl; lia.
Qed.

(* ================================================================== *)
(** * The next version *)
(* ================================================================== *)

Lemma releaseOf_next prev commits :
  next (releaseOf prev commits) =
  if normalizes prev then version3 (major prev) (Fin 0) (Fin 0)
  else if bootstraps prev then version3 (major prev) (Fin 1) (Fin 0)
  else bumped prev (aggregated commits).
Proof.
  unfold releaseOf. rewrite bucketsOf_spec. simpl. apply nextVersion_cases.
Qed.

Lemma major_ge_1_not_bootstraps prev :
  Number.geb (major prev) (Fin 1) = true -> bootstraps prev = false.
Proof.
  intros G. destruct (bootstraps prev) eqn:B; [|reflexivity].
  apply bootstraps_major in B. rewrite B in G. discriminate.
Qed.

(** [generateRelease] returns the release of the published version and of
    the pending commits, when both can be had. *)
Lemma generateRelease_Ok w lastHash r :
  generateRelease w lastHash = Ok r <->
  exists prev pending,
    getPublishedVersion w = Ok prev /\
    getCommitsSinceLastRelease w lastHash = Ok pending /\
    r = releaseOf prev pending.
Proof.
  unfold generateRelease. split.
  - destruct (getPublishedVersion w) as [prev|e]; simpl; [|discriminate].
    destruct (getCommitsSinceLastRelease w lastHash) as [pending|e]; simpl;
      [|discriminate].
    intros H. inversion H. eauto.
  - intros (prev & pending & -> & -> & ->). reflexivity.
Qed.

(** C1, as stated, fails: the previous version 3.3.9 has major >= 1 and a
    nonzero minor and patch, and with a breaking commit pending the next
    version is 4.0.0, not 3.0.0. *)
Lemma C1_counterexample :
  let prev := v 3 3 9 in
  let pending := [mkCommit (str "fedcba9876543210fedcba9876543210fedcba98")
                           (str "feat!: z") [] [] (semverOf (str "feat!: z") [])] in
  Number.geb (major prev) (Fin 1) = true /\
  minor prev <> Fin 0 /\ patch prev <> Fin 0 /\
  next (releaseOf prev pending) = v 4 0 0 /\
  next (releaseOf prev pending) <> version3 (major prev) (Fin 0) (Fin 0).
Proof. vm_compute. repeat split; discriminate. Qed.

(** C1 (amended): for every previous version with major >= 1, the
    normalization onto X.0.0 applies exactly when minor and patch are 0 and
    the version carries a non-empty suffix (a pre-release of X.0.0); then,
    for every list of pending commits, the next version is
    {prev.major, 0, 0}, whatever bump the commits call for.  When minor or
    patch is nonzero the next version is the aggregated bump. *)
Theorem C1_normalization_of_prerelease prev pending :
  Number.geb (major prev) (Fin 1) = true ->
  (normalizes prev = true <->
     minor prev = Fin 0 /\ patch prev = Fin 0 /\ truthy (suffix prev) = true) /\
  (normalizes prev = true ->
     next (releaseOf prev pending) = version3 (major prev) (Fin 0) (Fin 0)) /\
  (minor prev <> Fin 0 \/ patch prev <> Fin 0 ->
     next (releaseOf prev pending) = bumped prev (aggregated pending)).
Proof.
  intros G. split; [|split].
  - rewrite normalizes_iff. tauto.
  - intros H. rewrite releaseOf_next, H. reflexivity.
  - intros H. rewrite releaseOf_next, (major_ge_1_not_bootstraps _ G).
    destruct (normalizes prev) eqn:E; [|reflexivity].
    apply normalizes_iff in E. destruct E as (_ & E1 & E2 & _). tauto.
Qed.

Lemma C1_normalization_of_prerelease_witness :
  let prev := mkVersion (Fin 3) (Fin 0) (Fin 0) (Some (str "beta")) in
  let pending := [mkCommit (str "fedcba9876543210fedcba9876543210fedcba98")
                           (str "feat!: z") [] [] (semverOf (str "feat!: z") [])] in
  Number.geb (major prev) (Fin 1) = true /\
  aggregated pending = IncMajor /\
  next (releaseOf prev pending) = v 3 0 0.
Proof.
  intros prev pending.
  assert (G : Number.geb (major prev) (Fin 1) = true) by reflexivity.
  split; [exact G|]. split; [reflexivity|].
  destruct (C1_normalization_of_prerelease prev pending G) as (I & N & _).
  apply N. reflexivity.
Defined.

(** C5: for every previous version strictly before {0, 1, 0} the
    normalization rule does not apply and the next version is
    {prev.major, 1, 0}, whatever the pending commits are; every 0.0.x, with
    or without a suffix, and so the sentinel {0,0,0,"new"} and 0.0.5, is
    such a version and yields 0.1.0. *)
Theorem C5_bootstrap_to_0_1_0 :
  (forall prev pending,
     isFirstBefore prev (version3 (Fin 0) (Fin 1) (Fin 0)) = true ->
     normalizes prev = false /\
     next (releaseOf prev pending) = version3 (major prev) (Fin 1) (Fin 0)) /\
  (forall x sfx pending,
     isFirstBefore (mkVersion (Fin 0) (Fin 0) x sfx)
                   (version3 (Fin 0) (Fin 1) (Fin 0)) = true /\
     next (releaseOf (mkVersion (Fin 0) (Fin 0) x sfx) pending) = v 0 1 0).
Proof.
  split.
  - intros prev pending B. fold (bootstraps prev) in B.
    rewrite releaseOf_next, (bootstraps_not_normalizes _ B), B. auto.
  - intros x sfx pending. split; [reflexivity|].
    rewrite releaseOf_next. reflexivity.
Qed.

Lemma C5_bootstrap_to_0_1_0_witness :
  let pending := [mkCommit (str "fedcba9876543210fedcba9876543210fedcba98")
                           (str "feat!: z") [] [] (semverOf (str "feat!: z") [])] in
  isFirstBefore (v 0 0 5) (v 0 1 0) = true /\
  next (releaseOf (v 0 0 5) pending) = v 0 1 0.
Proof.
  intros pending. split; [reflexivity|].
  apply (proj1 C5_bootstrap_to_0_1_0 (v 0 0 5) pending). reflexivity.
Defined.

(** C2, as stated, fails: the additions are those of JavaScript numbers.
    The previous version 1.2.9007199254740992, which [parseVersion] returns
    for that string, has neither override apply; with one fix commit
    pending the bump is patch, and the next version is the previous one
    again: 2^53 + 1 is not a double and the sum rounds back to 2^53. *)
Lemma C2_counterexample :
  let prev := mkVersion (Fin 1) (Fin 2) (Fin (2 ^ 53)) None in
  let pending := [mkCommit (str "0123456789abcdef0123456789abcdef01234567")
                           (str "fix: x") [] [] (semverOf (str "fix: x") [])] in
  parseVersion (str "1.2.9007199254740992") = prev /\
  normalizes prev = false /\ bootstraps prev = false /\
  aggregated pending = IncPatch /\
  next (releaseOf prev pending) = prev /\
  next (releaseOf prev pending) <> version3 (Fin 1) (Fin 2) (Fin (2 ^ 53 + 1)).
Proof. vm_compute. repeat split. discriminate. Qed.

(** C2 (amended): when neither override applies, the bump is major if any
    pending commit is major, else minor if any is minor, else patch, and
    the next version is {major+1,0,0}, {major,minor+1,0} or
    {major,minor,patch+1}, provided the number that is raised is an
    integer below 2^53 - 1; the majors are the major commits, the minors
    the minor commits and the patches the patch and unknown commits, in
    order, an unknown one with "unknown: " before its message, so that
    every commit is in exactly one bucket; 1.2.3 with "fix: x", "feat: y",
    "feat!: z" pending gives 2.0.0 and one commit in each bucket. *)
Theorem C2_aggregated_bump_and_buckets :
  (forall prev pending,
     normalizes prev = false -> bootstraps prev = false ->
     let r := releaseOf prev pending in
     (forall a, aggregated pending = IncMajor ->
        major prev = Fin a -> (a + 1 < 2 ^ 53)%N ->
        next r = version3 (Fin (a + 1)) (Fin 0) (Fin 0)) /\
     (forall b, aggregated pending = IncMinor ->
        minor prev = Fin b -> (b + 1 < 2 ^ 53)%N ->
        next r = version3 (major prev) (Fin (b + 1)) (Fin 0)) /\
     (forall c, aggregated pending = IncPatch ->
        patch prev = Fin c -> (c + 1 < 2 ^ 53)%N ->
        next r = version3 (major prev) (minor prev) (Fin (c + 1)))) /\
  (forall prev pending,
     let r := releaseOf prev pending in
     majors r = filter (impactIs SemverMajor) pending /\
     minors r = filter (impactIs SemverMinor) pending /\
     patches r = map listed (filter inPatches pending) /\
     length (majors r) + length (minors r) + length (patches r) = length pending) /\
  (exists r,
     generateRelease (world_with (str "1.2.3") three_commits_log) None = Ok r /\
     prev r = v 1 2 3 /\
     map message (commits r) = [str "fix: x"; str "feat: y"; str "feat!: z"] /\
     aggregated (commits r) = IncMajor /\
     next r = v 2 0 0 /\
     map message (majors r) = [str "feat!: z"] /\
     map message (minors r) = [str "feat: y"] /\
     map message (patches r) = [str "fix: x"]).
Proof.
  assert (A : forall n, (n + 1 < 2 ^ 53)%N -> Number.add (Fin n) (Fin 1) = Fin (n + 1)).
  { intros n L. unfold Number.add, Number.round_double.
    apply N.ltb_lt in L. rewrite L. reflexivity. }
  split; [|split].
  - intros prev pending N B r. unfold r. rewrite releaseOf_next, N, B.
    split; [|split]; intros n E F L; rewrite E; unfold bumped; rewrite F, (A n L);
      reflexivity.
  - intros prev pending r. unfold r, releaseOf. rewrite bucketsOf_spec. simpl.
    repeat split. apply buckets_partition.
  - eexists. split; [vm_compute; reflexivity|]. vm_compute. repeat split.
Qed.

Lemma C2_aggregated_bump_and_buckets_witness :
  let pending :=
    [mkCommit (str "0123456789abcdef0123456789abcdef01234567")
              (str "tidy up") [] [] (semverOf (str "tidy up") []);
     mkCommit (str "89abcdef0123456789abcdef0123456789abcdef")
              (str "feat: y") [] [] (semverOf (str "feat: y") [])] in
  next (releaseOf (v 2 3 1) pending) = v 2 4 0.
Proof.
  intros pending.
  destruct (proj1 C2_aggregated_bump_and_buckets (v 2 3 1) pending
              eq_refl eq_refl) as (_ & Mi & _).
  apply (Mi 3%N); [reflexivity | reflexivity | reflexivity].
Defined.

(* ================================================================== *)
(** * Version strings *)
(* ================================================================== *)

(** What [versionToHumanString] returns: the bracketed suffix whenever
    major and patch are 0 and the suffix is non-empty, whatever minor is. *)
Lemma versionToHumanString_cases ver :
  versionToHumanString ver =
  if Number.eqb (major ver) (Fin 0) && Number.eqb (patch ver) (Fin 0)
     && truthy (suffix ver)
  then str "[" ++ match suffix ver with Some s => s | None => [] end ++ str "]"
  else versionToSemverString ver.
Proof.
  unfold versionToHumanString. destruct (Number.eqb (major ver) (Fin 0)); reflexivity.
Qed.

(** Where minor is 0 the code and the words agree. *)
Lemma versionToHumanString_minor_0 ver :
  minor ver = Fin 0 -> versionToHumanString ver = humanStringInWords ver.
Proof.
  intros E. rewrite versionToHumanString_cases. unfold humanStringInWords.
  rewrite (proj2 (Number_eqb_eq (minor ver) 0) E), andb_true_r. reflexivity.
Qed.

(** C8: the claim asks that only the all-zero version with a suffix is
    rendered as "[suffix]".  The code tests major twice and never minor:
    0.5.0-beta, which parseVersion returns for "0.5.0-beta", is rendered as
    "[beta]" and not as its semver string "0.5.0-beta". *)
Theorem C8_human_string_of_0_5_0_beta :
  let ver := mkVersion (Fin 0) (Fin 5) (Fin 0) (Some (str "beta")) in
  parseVersion (str "0.5.0-beta") = ver /\
  versionToHumanString ver = str "[beta]" /\
  versionToSemverString ver = str "0.5.0-beta" /\
  humanStringInWords ver = str "0.5.0-beta" /\
  versionToHumanString ver <> humanStringInWords ver.
Proof. vm_compute. repeat split. discriminate. Qed.

(* ================================================================== *)
(** * The commits of a history *)
(* ================================================================== *)

(** Inversion of [Matches], one lemma for each form of pattern. *)
Lemma Matches_Seq_inv r1 r2 st c st2 c2 :
  Matches (Seq r1 r2) st c st2 c2 ->
  exists st1 c1, Matches r1 st c st1 c1 /\ Matches r2 st1 c1 st2 c2.
Proof. inversion 1; subst; eauto. Qed.

Lemma Matches_Alt_inv r1 r2 st c st' c' :
  Matches (Alt r1 r2) st c st' c' ->
  Matches r1 st c st' c' \/ Matches r2 st c st' c'.
Proof. inversion 1; subst; auto. Qed.

Lemma Matches_Eps_inv st c st' c' :
  Matches Eps st c st' c' -> st' = st /\ c' = c.
Proof. inversion 1; subst; auto. Qed.

Lemma Matches_opt_inv r st c st' c' :
  Matches (opt r) st c st' c' ->
  Matches r st c st' c' \/ (st' = st /\ c' = c).
Proof.
  intros H. apply Matches_Alt_inv in H. destruct H as [H|H]; [auto|].
  right. apply Matches_Eps_inv; assumption.
Qed.

Lemma Matches_Group_inv i r st c st' c2 :
  Matches (Group i r) st c st' c2 ->
  exists c', Matches r st c st' c' /\ c2 = (i, between st st') :: c'.
Proof. inversion 1; subst; eauto. Qed.

Lemma Matches_Assert_inv f st c st' c' :
  Matches (Assert f) st c st' c' ->
  st' = st /\ c' = c /\ f (fst st) (snd st) = true.
Proof. inversion 1; subst; auto. Qed.

Lemma Matches_Cls_inv p st c st' c' :
  Matches (Cls p) st c st' c' ->
  exists a, p a = true /\ snd st = a :: snd st' /\ fst st' = a :: fst st /\ c' = c.
Proof. inversion 1; subst; simpl; eauto. Qed.

Lemma Matches_chr_inv x st c st' c' :
  Matches (chr x) st c st' c' ->
  snd st = x :: snd st' /\ fst st' = x :: fst st /\ c' = c.
Proof.
  intros H. apply Matches_Cls_inv in H. destruct H as (a & E & H).
  apply Ascii.eqb_eq in E. subst a. exact H.
Qed.

(** A pattern without groups leaves the captures alone and consumes code
    units of its classes only. *)
Lemma Matches_plain P r st c st' c' :
  Matches r st c st' c' -> no_group r -> classes_within P r ->
  c' = c /\ exists x, snd st = x ++ snd st' /\ fst st' = rev x ++ fst st /\
                      Forall (fun a => P a = true) x.
Proof.
  intros M G W. split; [eapply Matches_no_group; eauto|].
  eapply Matches_alphabet; eauto.
Qed.

Lemma between_consumed (st st' : state) x :
  snd st = x ++ snd st' -> between st st' = x.
Proof.
  destruct st as [b a], st' as [b' a']; simpl. intros ->. apply between_app.
Qed.

Lemma exec_at_sound r : forall a b st st' c,
  exec_at r b a = Some (st, st', c) -> Matches r st [] st' c.
Proof.
  induction a as [|x a IH]; intros b st st' c; simpl;
    destruct (m r (b, _) [] accept) as [[st1 c1]|] eqn:E; intros H;
    try discriminate.
  - inversion H; subst. apply m_sound in E.
    destruct E as (st2 & c2 & M & A). inversion A; subst. exact M.
  - inversion H; subst. apply m_sound in E.
    destruct E as (st2 & c2 & M & A). inversion A; subst. exact M.
  - eapply IH; eauto.
Qed.

Lemma matchAll_from_Forall r (P : MatchResult -> Prop) :
  (forall st st' c, Matches r st [] st' c -> P (result_of (st, st', c))) ->
  forall fuel b a, Forall P (matchAll_from fuel r b a).
Proof.
  intros HP. induction fuel as [|fuel IH]; intros b a; simpl; [constructor|].
  destruct (exec_at r b a) as [[[st [b' a']] c]|] eqn:E; [|constructor].
  constructor.
  - apply HP. eapply exec_at_sound; eauto.
  - destruct (length a' <? length (snd st)); [apply IH|].
    destruct a'; [constructor | apply IH].
Qed.

Lemma commitsOf_Forall raw (P : MatchResult -> Prop) (Q : Commit -> Prop) :
  (forall mt prevIndex, P mt -> Q (commitOf raw mt prevIndex)) ->
  forall ms, Forall P ms -> Forall Q (fst (commitsOf raw ms)).
Proof.
  intros PQ. induction 1 as [|mt ms Pm Pms IH]; simpl; [constructor|].
  destruct (commitsOf raw ms) as [cs prevIndex]. simpl in *.
  constructor; auto.
Qed.

Lemma hash_commitOf raw mt prevIndex :
  hash (commitOf raw mt prevIndex) = group_str mt 1.
Proof.
  unfold commitOf. destruct (indexOf _ _); reflexivity.
Qed.

(** The hash of a parsed commit is made of the digits and of the letters
    a to f. *)
Lemma header_match_hash st st' c :
  Matches COMMIT_HEADER_REGEX st [] st' c ->
  exists x, group c 1 = Some x /\ Forall (fun a => hex_digit a = true) x.
Proof.
  unfold COMMIT_HEADER_REGEX; simpl seqs. intros M.
  apply Matches_Seq_inv in M. destruct M as (st0 & c0 & MA & M).
  apply Matches_Assert_inv in MA. destruct MA as (-> & -> & _).
  apply Matches_Seq_inv in M. destruct M as (st1 & c1 & M1 & M).
  apply Matches_Group_inv in M1. destruct M1 as (c1' & M1 & ->).
  apply Matches_Seq_inv in M. destruct M as (st2 & c2 & M2 & M).
  apply Matches_chr_inv in M2. destruct M2 as (_ & _ & ->).
  apply Matches_Group_inv in M. destruct M as (c3 & M3 & ->).
  apply (@Matches_plain dot) in M3; simpl; auto. destruct M3 as (-> & _).
  apply (@Matches_plain hex_digit) in M1; [| simpl; tauto | simpl; tauto].
  destruct M1 as (-> & x & E & _ & F).
  exists x. simpl. split; [|exact F].
  f_equal. apply between_consumed. exact E.
Qed.

Lemma parseGitLog_hashes raw :
  Forall (fun c => Forall (fun a => hex_digit a = true) (hash c)) (parseGitLog raw).
Proof.
  unfold parseGitLog.
  apply commitsOf_Forall with
    (P := fun mt => exists x, group (groups mt) 1 = Some x /\
                              Forall (fun a => hex_digit a = true) x).
  - intros mt prevIndex (x & G & F). rewrite hash_commitOf.
    unfold group_str. rewrite G. exact F.
  - unfold matchAll. apply matchAll_from_Forall.
    intros st st' c M. simpl. eapply header_match_hash; eauto.
Qed.

Lemma lower_char_hex a : hex_digit a = true -> lower_char a = a.
Proof.
  destruct a as [[] [] [] [] [] [] [] []]; vm_compute; congruence.
Qed.

Lemma toLowerCase_hex s :
  Forall (fun a => hex_digit a = true) s -> toLowerCase s = s.
Proof.
  induction 1 as [|a s Ha Hs IH]; simpl; [reflexivity|].
  rewrite lower_char_hex, IH; auto.
Qed.

(** ** The release window *)

Lemma scan_spec (stop : Commit -> bool) : forall all,
  newer_than_first (fun c => stop c = true) all (firstn (scan stop all) all).
Proof.
  induction all as [|c all IH]; simpl.
  - right. split; constructor.
  - destruct (stop c) eqn:S; simpl.
    + left. exists c, all. repeat split; auto.
    + destruct IH as [(c' & older & E & Pc & F)|[F E]].
      * left. exists c', older. repeat split; auto.
        -- simpl. rewrite <- E. reflexivity.
        -- constructor; [congruence | exact F].
      * right. rewrite E. split; [|reflexivity].
        constructor; [congruence | exact F].
Qed.

Lemma newer_than_first_ext (P Q : Commit -> Prop) all window :
  Forall (fun c => P c <-> Q c) all ->
  newer_than_first P all window -> newer_than_first Q all window.
Proof.
  intros PQ [(c & older & E & Pc & F)|[F E]].
  - left. exists c, older. subst all.
    apply Forall_app in PQ. destruct PQ as [PQw PQc].
    inversion PQc; subst. repeat split; [tauto|].
    rewrite Forall_forall in *. intros x I. specialize (PQw x I). specialize (F x I).
    tauto.
  - right. split; [|exact E].
    rewrite Forall_forall in *. intros x I. specialize (PQ x I). specialize (F x I).
    tauto.
Qed.

Lemma length_0_ltb (A : Type) (l : list A) : (0 <? length l) = true <-> l <> [].
Proof.
  destruct l; simpl; split; try discriminate; try congruence; auto.
Qed.

(** C4, as stated, fails at the boundary that is the empty string: every
    hash starts with it, so the prefix rule asks for the empty window; the
    code takes the empty string for no boundary and, no commit of this
    history carrying a tag, returns the whole history. *)
Lemma C4_counterexample :
  let w := world_with (str "1.2.3") three_commits_log in
  exists window,
    getCommitsSinceLastRelease w (Some []) = Ok window /\
    map message window = [str "fix: x"; str "feat: y"; str "feat!: z"] /\
    Forall (fun c => ci_prefix [] (hash c) = true) window /\
    ~ newer_than_first (fun c => ci_prefix [] (hash c) = true)
                       (parseGitLog three_commits_log) window.
Proof.
  intros w. eexists. split; [vm_compute; reflexivity|].
  split; [reflexivity|]. split; [repeat constructor|].
  intros [(c & older & E & _)|[F _]].
  - apply (f_equal (@length Commit)) in E. rewrite length_app in E.
    vm_compute in E. lia.
  - vm_compute in F. inversion F as [|? ? H _]. apply H. reflexivity.
Qed.

(** C4 (amended): with a boundary that is not the empty string, the window
    is the commits strictly newer than the first commit, newest first,
    whose hash starts with the boundary, case set aside, and the whole
    history when no hash does; with no boundary ([undefined], or the empty
    string, which is falsy) it is the commits strictly newer than the
    first commit that carries a version tag, and the whole history when
    none does. *)
Theorem C4_release_window w raw :
  run w git_log_command = Ok raw ->
  (forall boundary, boundary <> [] ->
     exists window,
       getCommitsSinceLastRelease w (Some boundary) = Ok window /\
       newer_than_first (fun c => ci_prefix boundary (hash c) = true)
                        (parseGitLog raw) window) /\
  (forall lastHash, lastHash = None \/ lastHash = Some [] ->
     exists window,
       getCommitsSinceLastRelease w lastHash = Ok window /\
       newer_than_first (fun c => versions c <> []) (parseGitLog raw) window).
Proof.
  intros R. unfold getCommitsSinceLastRelease, getAllCommits. rewrite R. simpl.
  split.
  - intros boundary N. eexists; split; [reflexivity|].
    unfold windowOf. destruct boundary as [|x boundary]; [congruence|]. simpl truthy.
    cbv iota.
    eapply newer_than_first_ext; [|apply scan_spec].
    pose proof (parseGitLog_hashes raw) as Hx.
    rewrite Forall_forall in *. intros c I. cbv beta. unfold ci_prefix.
    rewrite (toLowerCase_hex (Hx c I)). tauto.
  - intros lastHash F. eexists; split; [reflexivity|].
    assert (T : truthy lastHash = false) by (destruct F; subst; reflexivity).
    unfold windowOf. rewrite T.
    eapply newer_than_first_ext; [|apply scan_spec].
    rewrite Forall_forall. intros c I. cbv beta. apply length_0_ltb.
Qed.

Lemma C4_release_window_witness :
  let w := world_with (str "1.2.3") three_commits_log in
  exists window,
    getCommitsSinceLastRelease w (Some (str "89AB")) = Ok window /\
    newer_than_first (fun c => ci_prefix (str "89AB") (hash c) = true)
                     (parseGitLog three_commits_log) window /\
    map message window = [str "fix: x"].
Proof.
  intros w.
  destruct (@C4_release_window w three_commits_log eq_refl) as [H _].
  destruct (H (str "89AB")) as (window & E & N); [discriminate|].
  exists window. split; [exact E|]. split; [exact N|].
  vm_compute in E. inversion E. reflexivity.
Defined.

(* ================================================================== *)
(** * The changelog *)
(* ================================================================== *)

Lemma JsString_eqb_eq a b : JsString.eqb a b = true <-> a = b.
Proof.
  unfold JsString.eqb. destruct (list_eq_dec ascii_dec a b); split; congruence.
Qed.

Lemma JsString_eqb_refl a : JsString.eqb a a = true.
Proof. apply JsString_eqb_eq; reflexivity. Qed.

Lemma bullet_eqb p a b :
  JsString.eqb (p ++ a) (p ++ b) = JsString.eqb a b.
Proof.
  destruct (JsString.eqb a b) eqn:E.
  - apply JsString_eqb_eq in E. subst. apply JsString_eqb_refl.
  - destruct (JsString.eqb (p ++ a) (p ++ b)) eqn:F; [|reflexivity].
    apply JsString_eqb_eq, app_inv_head in F. subst.
    rewrite JsString_eqb_refl in E. discriminate.
Qed.

(** The filter of the code, which looks at the element before, keeps what
    the consecutive-duplicate filter keeps. *)
Lemma dropRepeats_collapse_after p : forall msgs last,
  dropRepeats (Some (p ++ last)) (map (fun msg => p ++ msg) msgs) =
  map (fun msg => p ++ msg) (collapse_after last msgs).
Proof.
  induction msgs as [|x msgs IH]; intros last; simpl; [reflexivity|].
  rewrite bullet_eqb. destruct (JsString.eqb last x) eqn:E.
  - apply JsString_eqb_eq in E. subst. apply IH.
  - simpl. rewrite IH. reflexivity.
Qed.

Lemma dropRepeats_collapse p msgs :
  dropRepeats None (map (fun msg => p ++ msg) msgs) =
  map (fun msg => p ++ msg) (collapse msgs).
Proof.
  destruct msgs as [|x msgs]; simpl; [reflexivity|].
  rewrite dropRepeats_collapse_after. reflexivity.
Qed.

Lemma toMarkdownList_spec bucket :
  toMarkdownList bucket =
  join LF (map (fun msg => str "- " ++ msg) (collapse (map message bucket))).
Proof.
  unfold toMarkdownList. rewrite <- dropRepeats_collapse, map_map. reflexivity.
Qed.

Lemma generateChangelogMarkdown_rendered r :
  generateChangelogMarkdown r = rendered r.
Proof.
  unfold generateChangelogMarkdown, rendered, section.
  rewrite !toMarkdownList_spec.
  destruct (majors r), (minors r), (patches r); reflexivity.
Qed.

Lemma ends_in_app a s1 s2 : s2 <> [] -> ends_in a (s1 ++ s2) -> ends_in a s2.
Proof.
  intros N [b E]. destruct (exists_last N) as (s2' & x & ->).
  rewrite app_assoc in E. apply app_inj_tail in E. destruct E as [_ ->].
  exists s2'; reflexivity.
Qed.

Lemma ends_in_In a s : ends_in a s -> In a s.
Proof. intros [b ->]. apply in_or_app; right; left; reflexivity. Qed.

Lemma join_cons sep x y l : join sep (x :: y :: l) = x ++ sep ++ join sep (y :: l).
Proof. reflexivity. Qed.

(** A joined list that ends in [a] has its last element end in [a], as
    long as that element is not empty. *)
Lemma join_ends_in a sep : forall l,
  l <> [] -> last l [] <> [] -> ends_in a (join sep l) -> ends_in a (last l []).
Proof.
  induction l as [|x l IH]; intros N L E; [congruence|].
  destruct l as [|y l]; [exact E|].
  rewrite join_cons, app_assoc in E.
  assert (J : join sep (y :: l) <> []).
  { clear - L. change (last (x :: y :: l) []) with (last (y :: l) []) in L.
    revert y L. induction l as [|z l IHl]; intros y L; simpl in *.
    - exact L.
    - destruct y; simpl; [|discriminate].
      intros C. apply app_eq_nil in C. destruct C as [_ C].
      revert C. apply IHl. exact L. }
  apply ends_in_app in E; [|exact J].
  apply IH in E; [exact E | discriminate | exact L].
Qed.

Lemma collapse_after_last : forall l x,
  last (x :: collapse_after x l) [] = last (x :: l) [].
Proof.
  induction l as [|y l IH]; intros x; [reflexivity|].
  simpl collapse_after. destruct (JsString.eqb x y) eqn:E.
  - apply JsString_eqb_eq in E. subst y. rewrite IH. destruct l; reflexivity.
  - change (last (x :: y :: collapse_after y l) []) with (last (y :: collapse_after y l) []).
    rewrite IH. reflexivity.
Qed.

Lemma collapse_last l : last (collapse l) [] = last l [].
Proof. destruct l as [|x l]; [reflexivity|]. apply collapse_after_last. Qed.

Lemma last_In (A : Type) (d : A) : forall l, l <> [] -> In (last l d) l.
Proof.
  induction l as [|x l IH]; intros N; [congruence|].
  destruct l as [|y l]; [left; reflexivity|].
  right. apply IH. discriminate.
Qed.

Lemma section_no_trailing_LF heading bucket :
  Forall single_line bucket ->
  forall s, In s (section heading bucket) -> s <> [] /\ ~ ends_in "010" s.
Proof.
  intros SL s I. destruct bucket as [|c bucket]; [destruct I|].
  destruct I as [<-|[]]. split; [discriminate|].
  set (bs := map (fun msg => str "- " ++ msg) (collapse (map message (c :: bucket)))).
  assert (Lb : exists msg, last bs [] = str "- " ++ msg /\
                           In msg (map message (c :: bucket))).
  { unfold bs. remember (map message (c :: bucket)) as msgs eqn:Em.
    assert (Nm : collapse msgs <> []) by (subst msgs; discriminate).
    destruct (exists_last Nm) as (l' & msg & El). exists msg. split.
    - rewrite El, map_app. cbn [map]. rewrite last_last. reflexivity.
    - assert (E2 : last (collapse msgs) [] = msg) by (rewrite El; apply last_last).
      rewrite collapse_last in E2. rewrite <- E2.
      apply last_In. subst msgs; discriminate. }
  destruct Lb as (msg & Lb & Im).
  intros E. rewrite !app_assoc in E. apply ends_in_app in E.
  - apply (join_ends_in (a := "010"%char)) in E.
    + rewrite Lb in E. apply in_map_iff in Im. destruct Im as (c' & <- & Ic).
      rewrite Forall_forall in SL. apply (SL c' Ic).
      destruct (message c') as [|z msg'] eqn:Em.
      * destruct E as [b E]. destruct b as [|? [|? [|? b]]]; discriminate E.
      * apply ends_in_In.
        apply (@ends_in_app "010"%char (str "- ") (z :: msg')); [discriminate|].
        exact E.
    + unfold bs; discriminate.
    + rewrite Lb; discriminate.
  - unfold bs. simpl. destruct (collapse_after _ _); simpl; discriminate.
Qed.

(** ** The messages the parser makes *)

Lemma indexOf_None c : forall s, indexOf s c = None -> ~ In c s.
Proof.
  induction s as [|a s IH]; simpl; intros H; [tauto|].
  destruct (Ascii.eqb a c) eqn:E; [discriminate|].
  apply Ascii.eqb_neq in E.
  destruct (indexOf s c); [discriminate|]. intros [I|I]; [congruence|].
  exact (IH eq_refl I).
Qed.

Lemma indexOf_Some c : forall s i, indexOf s c = Some i -> ~ In c (firstn i s).
Proof.
  induction s as [|a s IH]; simpl; intros i H; [discriminate|].
  destruct (Ascii.eqb a c) eqn:E.
  - inversion H; subst. simpl. tauto.
  - apply Ascii.eqb_neq in E. destruct (indexOf s c) as [j|]; [|discriminate].
    inversion H; subst. simpl. intros [I|I]; [congruence|].
    exact (IH j eq_refl I).
Qed.

Lemma trimStart_incl a : forall s, In a (trimStart s) -> In a s.
Proof.
  induction s as [|x s IH]; simpl; [tauto|].
  destruct (is_space x); [right; auto | auto].
Qed.

Lemma trim_incl a s : In a (trim s) -> In a s.
Proof.
  unfold trim, trimEnd. intros I. apply trimStart_incl.
  apply in_rev in I. apply trimStart_incl in I. apply in_rev in I. exact I.
Qed.

Lemma commitOf_single_line raw mt prevIndex :
  single_line (commitOf raw mt prevIndex).
Proof.
  unfold single_line, commitOf.
  set (body := slice raw _ _).
  destruct (indexOf body "010") as [i|] eqn:E; simpl; intros I;
    apply trim_incl in I.
  - unfold slice in I. simpl in I. rewrite Nat.sub_0_r in I.
    exact (indexOf_Some _ _ E I).
  - exact (indexOf_None _ _ E I).
Qed.

Lemma parseGitLog_single_line raw : Forall single_line (parseGitLog raw).
Proof.
  unfold parseGitLog.
  apply commitsOf_Forall with (P := fun _ => True).
  - intros mt prevIndex _. apply commitOf_single_line.
  - apply Forall_forall. auto.
Qed.

Lemma Forall_firstn (A : Type) (P : A -> Prop) n : forall l,
  Forall P l -> Forall P (firstn n l).
Proof.
  induction n as [|n IH]; intros l F; [constructor|].
  destruct F; simpl; constructor; auto.
Qed.

Lemma Forall_filter (A : Type) (P : A -> Prop) f : forall l,
  Forall P l -> Forall P (filter f l).
Proof.
  induction 1 as [|x l Px F IH]; simpl; [constructor|].
  destruct (f x); [constructor|]; auto.
Qed.

Lemma listed_single_line c : single_line c -> single_line (listed c).
Proof.
  unfold single_line, listed. destruct (semver c); auto.
  simpl. intros N I. repeat (destruct I as [I|I]; [discriminate|]). exact (N I).
Qed.

(** The messages of a release computed from a git log are single lines. *)
Lemma releaseOf_single_line prev raw lastHash :
  let r := releaseOf prev (windowOf (parseGitLog raw) lastHash) in
  Forall single_line (majors r ++ minors r ++ patches r).
Proof.
  intros r. unfold r, releaseOf. rewrite bucketsOf_spec. simpl.
  assert (W : Forall single_line (windowOf (parseGitLog raw) lastHash)).
  { unfold windowOf. apply Forall_firstn, parseGitLog_single_line. }
  apply Forall_app; split; [apply Forall_filter, W|].
  apply Forall_app; split; [apply Forall_filter, W|].
  apply Forall_forall. intros c I. apply in_map_iff in I.
  destruct I as (c0 & <- & I). apply listed_single_line.
  apply filter_In in I. destruct I as [I _].
  rewrite Forall_forall in W. exact (W c0 I).
Qed.

(** C7: the changelog is, for each non-empty bucket in the order Major,
    Minor, Patch, its heading followed by one bullet per message in the
    order of the bucket, a message equal to the one before it being
    dropped (and only then); two sections are separated by an empty line,
    an empty bucket contributes nothing, the changelog of three empty
    buckets is the empty string, and any other changelog ends with exactly
    one line feed, the messages being single lines, which the messages of
    a release computed from a git log are. *)
Theorem C7_changelog_rendering :
  (forall r, generateChangelogMarkdown r = rendered r) /\
  (forall r, majors r = [] -> minors r = [] -> patches r = [] ->
             generateChangelogMarkdown r = []) /\
  (forall r,
     majors r ++ minors r ++ patches r <> [] ->
     Forall single_line (majors r ++ minors r ++ patches r) ->
     exists body, generateChangelogMarkdown r = body ++ LF /\
                  body <> [] /\ ~ ends_in "010" body) /\
  (forall prev raw lastHash,
     let r := releaseOf prev (windowOf (parseGitLog raw) lastHash) in
     Forall single_line (majors r ++ minors r ++ patches r)) /\
  (let a := commit_with (str "feat!: a") SemverMajor in
   let b := commit_with (str "fix!: b") SemverMajor in
   generateChangelogMarkdown (release_with [a; a; b; a] [] []) =
   str "# Major changes (breaking)" ++ LF ++ LF ++
   str "- feat!: a" ++ LF ++ str "- fix!: b" ++ LF ++ str "- feat!: a" ++ LF).
Proof.
  split; [exact generateChangelogMarkdown_rendered|].
  split; [|split; [|split; [exact releaseOf_single_line|]]].
  - intros r E1 E2 E3. rewrite generateChangelogMarkdown_rendered.
    unfold rendered. rewrite E1, E2, E3. reflexivity.
  - intros r N SL. rewrite generateChangelogMarkdown_rendered. unfold rendered.
    apply Forall_app in SL. destruct SL as [S1 SL].
    apply Forall_app in SL. destruct SL as [S2 S3].
    set (secs := section _ (majors r) ++ section _ (minors r) ++ section _ (patches r)).
    assert (Hs : forall s, In s secs -> s <> [] /\ ~ ends_in "010" s).
    { intros s I. unfold secs in I.
      apply in_app_or in I. destruct I as [I|I];
        [eapply section_no_trailing_LF; [exact S1 | exact I]|].
      apply in_app_or in I. destruct I as [I|I];
        (eapply section_no_trailing_LF; [|exact I]; assumption). }
    assert (Ns : secs <> []).
    { unfold secs, section. destruct (majors r); [|discriminate].
      destruct (minors r); [|discriminate]. destruct (patches r); [|discriminate].
      exfalso; apply N; reflexivity. }
    destruct secs as [|s0 secs'] eqn:Es; [congruence|].
    exists (join (LF ++ LF) (s0 :: secs')). split; [reflexivity|].
    destruct (@exists_last _ (s0 :: secs') Ns) as (l' & sl & El).
    assert (Il : In sl (s0 :: secs')).
    { rewrite El. apply in_or_app; right; left; reflexivity. }
    destruct (Hs sl Il) as [Nl Tl].
    assert (Ll : last (s0 :: secs') [] = sl) by (rewrite El; apply last_last).
    split.
    + intros C. rewrite El in C. clear - C Nl.
      induction l' as [|x l' IH]; simpl in C; [congruence|].
      destruct (l' ++ [sl]) eqn:E; [destruct l'; discriminate|].
      apply app_eq_nil in C. destruct C as [_ C]. discriminate.
    + intros C. apply join_ends_in in C; [|discriminate|rewrite Ll; exact Nl].
      rewrite Ll in C. exact (Tl C).
  - vm_compute. reflexivity.
Qed.

Lemma C7_changelog_rendering_witness :
  let a := commit_with (str "feat: a") SemverMinor in
  let r := release_with [] [a] [] in
  exists body, generateChangelogMarkdown r = body ++ LF /\
               body <> [] /\ ~ ends_in "010" body.
Proof.
  intros a r.
  apply (proj1 (proj2 (proj2 C7_changelog_rendering)) r).
  - discriminate.
  - repeat constructor. unfold single_line; simpl.
    intros H. repeat (destruct H as [H|H]; [discriminate|]). exact H.
Defined.

(* ================================================================== *)
(** * Patterns as languages *)
(* ================================================================== *)

Lemma Matches_Lang r st c st' c' :
  Matches r st c st' c' -> assert_free r ->
  exists x, Lang r x /\ snd st = x ++ snd st' /\ fst st' = rev x ++ fst st.
Proof.
  induction 1; simpl; intros AF.
  - exists []; auto.
  - exists [a]; repeat split; eauto.
  - destruct AF as [A1 A2].
    destruct (IHMatches1 A1) as (x1 & L1 & E1 & F1).
    destruct (IHMatches2 A2) as (x2 & L2 & E2 & F2).
    exists (x1 ++ x2). split; [exists x1, x2; auto|].
    rewrite E1, E2, F2, F1, rev_app_distr, !app_assoc; auto.
  - destruct (IHMatches (proj1 AF)) as (x & L & E); eauto.
  - destruct (IHMatches (proj2 AF)) as (x & L & E); eauto.
  - exists []; repeat split; constructor.
  - destruct (IHMatches1 AF) as (x1 & L1 & E1 & F1).
    destruct (IHMatches2 AF) as (x2 & L2 & E2 & F2).
    exists (x1 ++ x2). split.
    + apply star_app; auto. intros ->. simpl in E1. rewrite E1 in H0. lia.
    + rewrite E1, E2, F2, F1, rev_app_distr, !app_assoc; auto.
  - auto.
  - tauto.
Qed.

Lemma Lang_Matches r : assert_free r ->
  forall x, Lang r x ->
  forall b a c, exists c', Matches r (b, x ++ a) c (rev x ++ b, a) c'.
Proof.
  induction r; simpl; intros AF x L b a c.
  - subst x. exists c. constructor.
  - destruct L as (y & -> & P). exists c. simpl. constructor; assumption.
  - destruct AF as [A1 A2]. destruct L as (x1 & x2 & -> & L1 & L2).
    destruct (IHr1 A1 x1 L1 b (x2 ++ a) c) as [c1 M1].
    destruct (IHr2 A2 x2 L2 (rev x1 ++ b) a c1) as [c2 M2].
    exists c2. rewrite <- app_assoc, rev_app_distr, <- app_assoc.
    econstructor; eauto.
  - destruct AF as [A1 A2]. destruct L as [L|L].
    + destruct (IHr1 A1 x L b a c) as [c1 M1]. exists c1. apply M_AltL; auto.
    + destruct (IHr2 A2 x L b a c) as [c1 M1]. exists c1. apply M_AltR; auto.
  - revert b c. induction L as [|x y N Lx Ly IH]; intros b c.
    + exists c. constructor.
    + destruct (IHr AF x Lx b (y ++ a) c) as [c1 M1].
      destruct (IH (rev x ++ b) c1) as [c2 M2].
      exists c2. rewrite <- app_assoc, rev_app_distr, <- app_assoc.
      eapply M_StarS; eauto. simpl. rewrite !length_app.
      destruct x; [congruence|simpl; lia].
  - destruct (IHr AF x L b a c) as [c1 M1]. eexists. constructor. eauto.
  - destruct AF.
Qed.

(** What [test] answers for a pattern [^r]. *)
Lemma test_anchored_Lang r s :
  assert_free r ->
  (test (Seq bol r) s = true <-> exists x rest, s = x ++ rest /\ Lang r x).
Proof.
  intros AF. rewrite test_anchored. split.
  - intros (st' & c' & M). apply Matches_Lang in M; [|exact AF].
    destruct M as (x & L & E & _). simpl in E. eauto.
  - intros (x & rest & -> & L).
    destruct (@Lang_Matches r AF x L [] rest []) as [c' M]. eauto.
Qed.

Lemma Lang_chr a x : Lang (chr a) x <-> x = [a].
Proof.
  simpl. split.
  - intros (y & -> & E). apply Ascii.eqb_eq in E. congruence.
  - intros ->. exists a. split; [reflexivity | apply Ascii.eqb_refl].
Qed.

Lemma Lang_lit s x : Lang (lit s) x <-> x = s.
Proof.
  revert x. induction s as [|a s IH]; intros x; simpl lit.
  - simpl. tauto.
  - change (Lang (Seq (chr a) (lit s)) x) with (cat (Lang (chr a)) (Lang (lit s)) x).
    split.
    + intros (x1 & x2 & -> & L1 & L2). apply Lang_chr in L1. apply IH in L2.
      subst. reflexivity.
    + intros ->. exists [a], s. repeat split; [apply Lang_chr | apply IH]; reflexivity.
Qed.

Lemma Lang_star_cls p x :
  Lang (Star (Cls p)) x <-> Forall (fun a => p a = true) x.
Proof.
  simpl. split.
  - induction 1 as [|x y N (a & -> & P) S IH]; [constructor|].
    simpl. constructor; assumption.
  - induction 1 as [|a x P F IH]; [constructor|].
    change (a :: x) with ([a] ++ x). constructor; [discriminate | eauto | exact IH].
Qed.

Lemma Lang_plus_cls p x :
  Lang (plus (Cls p)) x <-> x <> [] /\ Forall (fun a => p a = true) x.
Proof.
  unfold plus.
  change (Lang (Seq (Cls p) (Star (Cls p))) x)
    with (cat (Lang (Cls p)) (Lang (Star (Cls p))) x).
  split.
  - intros (x1 & x2 & -> & (a & -> & P) & L2). apply Lang_star_cls in L2.
    split; [discriminate|]. constructor; assumption.
  - intros [N F]. destruct x as [|a x]; [congruence|]. inversion F; subst.
    exists [a], x. split; [reflexivity|].
    split; [exists a; auto | apply Lang_star_cls; assumption].
Qed.

Lemma Lang_opt r x : Lang (opt r) x <-> Lang r x \/ x = [].
Proof. simpl. tauto. Qed.

Lemma none_of_neq a x : none_of a x = true <-> x <> a.
Proof.
  unfold none_of. destruct (Ascii.eqb x a) eqn:E; simpl.
  - apply Ascii.eqb_eq in E. split; [discriminate | congruence].
  - apply Ascii.eqb_neq in E. tauto.
Qed.

Lemma Lang_scope_re x :
  Lang (opt scope_re) x <-> scope_part x.
Proof.
  rewrite Lang_opt. unfold scope_re, scope_part.
  change (Lang (Group 1 (seqs [chr "("; plus (Cls (none_of ")")); chr ")"])) x)
    with (cat (Lang (chr "(")) (cat (Lang (plus (Cls (none_of ")"))))
                                     (Lang (chr ")"))) x).
  split.
  - intros [(x1 & x2 & -> & L1 & (y & x3 & -> & L2 & L3))| ->]; [right | left; reflexivity].
    apply Lang_chr in L1, L3. apply Lang_plus_cls in L2. subst.
    destruct L2 as [N F]. exists y. repeat split; auto.
    eapply Forall_impl; [|exact F]. intros a. apply none_of_neq.
  - intros [-> | (y & N & F & ->)]; [right; reflexivity | left].
    exists ["("%char], (y ++ [")"%char]). repeat split; [apply Lang_chr; reflexivity|].
    exists y, [")"%char]. repeat split; [|apply Lang_chr; reflexivity].
    apply Lang_plus_cls. split; [exact N|].
    eapply Forall_impl; [|exact F]. intros a. apply none_of_neq.
Qed.

Lemma Lang_bang x : Lang (chr "!") x <-> bang x.
Proof. apply Lang_chr. Qed.

Lemma Lang_optional_bang x : Lang (opt (chr "!")) x <-> optional_bang x.
Proof. rewrite Lang_opt, Lang_chr. unfold optional_bang. tauto. Qed.

(** The three patterns have the shape [^T(scope)?B:]. *)
Lemma test_subject_form T B (type_ok bang_ok : jsstring -> Prop) subject :
  assert_free T -> assert_free B ->
  (forall x, Lang T x <-> type_ok x) ->
  (forall x, Lang B x <-> bang_ok x) ->
  (test (seqs [bol; T; opt scope_re; B; chr ":"]) subject = true <->
   subject_form type_ok bang_ok subject).
Proof.
  intros AT AB LT LB. simpl seqs. rewrite test_anchored_Lang.
  2:{ simpl. tauto. }
  unfold subject_form. split.
  - intros (x & rest & -> & (ty & x1 & -> & L1 & (sc & x2 & -> & L2 & (b & x3 & -> & L3 & L4)))).
    apply Lang_chr in L4. subst x3. apply LT in L1. apply LB in L3.
    apply Lang_scope_re in L2.
    exists ty, sc, b, rest. repeat split; auto.
    rewrite <- !app_assoc. reflexivity.
  - intros (ty & sc & b & rest & -> & T1 & S1 & B1).
    exists (ty ++ sc ++ b ++ [":"%char]), rest. split.
    + rewrite <- !app_assoc. reflexivity.
    + exists ty, (sc ++ b ++ [":"%char]). repeat split; [apply LT; exact T1|].
      exists sc, (b ++ [":"%char]). repeat split; [apply Lang_scope_re; exact S1|].
      exists b, [":"%char]. repeat split; [apply LB; exact B1|].
      apply Lang_chr; reflexivity.
Qed.

Lemma test_BREAKING subject :
  test BREAKING_CHANGE_REGEX subject = true <-> breaking_subject subject.
Proof.
  apply test_subject_form.
  - simpl; auto.
  - exact I.
  - intros x. apply Lang_plus_cls.
  - apply Lang_bang.
Qed.

Lemma test_FEAT subject :
  test FEAT_REGEX subject = true <-> feat_subject subject.
Proof.
  apply test_subject_form.
  - simpl; tauto.
  - simpl; auto.
  - intros x. apply (Lang_lit (str "feat")).
  - apply Lang_optional_bang.
Qed.

Lemma test_CONVENTIONAL subject :
  test CONVENTIONAL_COMMIT_REGEX subject = true <-> conventional_subject subject.
Proof.
  apply test_subject_form.
  - simpl; auto.
  - simpl; auto.
  - intros x. apply Lang_plus_cls.
  - apply Lang_optional_bang.
Qed.

Lemma startsWith_prefix : forall p s,
  startsWith s p = true <-> exists b, s = p ++ b.
Proof.
  induction p as [|a p IH]; intros s; destruct s as [|x s]; simpl.
  - split; [intros _; exists []; reflexivity | reflexivity].
  - split; [intros _; exists (x :: s); reflexivity | reflexivity].
  - split; [discriminate | intros [b E]; discriminate].
  - rewrite andb_true_iff, IH. split.
    + intros [E (b & ->)]. apply Ascii.eqb_eq in E. subst. eauto.
    + intros (b & E). inversion E; subst. split; [apply Ascii.eqb_refl | eauto].
Qed.

Lemma includes_contains marker : forall s,
  includes s marker = true <-> contains s marker.
Proof.
  unfold contains. induction s as [|x s IH]; cbn [includes].
  - rewrite orb_false_r, startsWith_prefix. split.
    + intros (b & E). exists [], b. exact E.
    + intros (a & b & E). destruct a; [eauto|discriminate].
  - rewrite orb_true_iff, IH, startsWith_prefix. split.
    + intros [(b & E)|(a & b & E)].
      * exists [], b. exact E.
      * exists (x :: a), b. simpl. congruence.
    + intros (a & b & E). destruct a as [|y a].
      * left. exists b. exact E.
      * right. inversion E; subst. eauto.
Qed.

(* ================================================================== *)
(** * The classification of a commit *)
(* ================================================================== *)

Lemma not_true_false b : b <> true -> b = false.
Proof. destruct b; congruence. Qed.

Lemma semverOf_cases subject footer :
  (breaking_subject subject \/ breaking_footer footer ->
     semverOf subject footer = SemverMajor) /\
  (~ (breaking_subject subject \/ breaking_footer footer) ->
     (feat_subject subject -> semverOf subject footer = SemverMinor) /\
     (~ feat_subject subject -> conventional_subject subject ->
        semverOf subject footer = SemverPatch) /\
     (~ feat_subject subject -> ~ conventional_subject subject ->
        semverOf subject footer = SemverUnknown)).
Proof.
  unfold semverOf, breaking_footer.
  rewrite <- test_BREAKING, <- test_FEAT, <- test_CONVENTIONAL, <- includes_contains.
  destruct (test BREAKING_CHANGE_REGEX subject), (includes footer _),
           (test FEAT_REGEX subject), (test CONVENTIONAL_COMMIT_REGEX subject);
    simpl; intuition congruence.
Qed.

(** C3: the impact of a commit is major if its subject has the form
    type, optional scope, bang, colon, or its footer contains
    "BREAKING CHANGE: "; otherwise minor if the subject has the form feat,
    optional scope, optional bang, colon; otherwise patch if it has the
    form type, optional scope, optional bang, colon; otherwise unknown.
    A type is one or more lower-case letters, a scope a non-empty run
    without closing parenthesis, in parentheses. *)
Theorem C3_semver_impact subject footer :
  (breaking_subject subject \/ breaking_footer footer ->
     semverOf subject footer = SemverMajor) /\
  (~ (breaking_subject subject \/ breaking_footer footer) ->
     feat_subject subject -> semverOf subject footer = SemverMinor) /\
  (~ (breaking_subject subject \/ breaking_footer footer) ->
     ~ feat_subject subject -> conventional_subject subject ->
     semverOf subject footer = SemverPatch) /\
  (~ (breaking_subject subject \/ breaking_footer footer) ->
     ~ feat_subject subject -> ~ conventional_subject subject ->
     semverOf subject footer = SemverUnknown).
Proof.
  destruct (semverOf_cases subject footer) as [M R].
  split; [exact M|]. split; [|split].
  - intros N. apply (R N).
  - intros N. apply (R N).
  - intros N. apply (R N).
Qed.

Lemma C3_semver_impact_witness :
  semverOf (str "feat(api)!: z") [] = SemverMajor /\
  semverOf (str "fix: x") (str "BREAKING CHANGE: drops v1") = SemverMajor /\
  semverOf (str "feat(api): y") [] = SemverMinor /\
  semverOf (str "fix: x") [] = SemverPatch /\
  semverOf (str "tidy up") [] = SemverUnknown.
Proof.
  assert (NB : forall s, test BREAKING_CHANGE_REGEX s = false ->
                         includes [] (str "BREAKING CHANGE: ") = false ->
                         ~ (breaking_subject s \/ breaking_footer [])).
  { intros s T I [B|B].
    - apply test_BREAKING in B. congruence.
    - apply includes_contains in B. congruence. }
  assert (NF : forall s, test FEAT_REGEX s = false -> ~ feat_subject s).
  { intros s T B. apply test_FEAT in B. congruence. }
  assert (NC : forall s, test CONVENTIONAL_COMMIT_REGEX s = false ->
                         ~ conventional_subject s).
  { intros s T B. apply test_CONVENTIONAL in B. congruence. }
  split; [|split; [|split; [|split]]].
  - apply (proj1 (C3_semver_impact _ _)). left. apply test_BREAKING. reflexivity.
  - apply (proj1 (C3_semver_impact _ _)). right. apply includes_contains. reflexivity.
  - apply (proj1 (proj2 (C3_semver_impact _ _))).
    + apply NB; reflexivity.
    + apply test_FEAT. reflexivity.
  - apply (proj1 (proj2 (proj2 (C3_semver_impact _ _)))).
    + apply NB; reflexivity.
    + apply NF; reflexivity.
    + apply test_CONVENTIONAL. reflexivity.
  - apply (proj2 (proj2 (proj2 (C3_semver_impact _ _)))).
    + apply NB; reflexivity.
    + apply NF; reflexivity.
    + apply NC; reflexivity.
Defined.

(** ** The type token *)

Lemma subject_form_weaken (T1 T2 B1 B2 : jsstring -> Prop) subject :
  (forall x, T1 x -> T2 x) -> (forall x, B1 x -> B2 x) ->
  subject_form T1 B1 subject -> subject_form T2 B2 subject.
Proof.
  intros HT HB (ty & sc & b & rest & E & T & S & B).
  exists ty, sc, b, rest. auto.
Qed.

Lemma feat_is_conventional subject :
  feat_subject subject -> conventional_subject subject.
Proof.
  apply subject_form_weaken; [|auto].
  intros x ->. split; [discriminate|]. repeat constructor.
Qed.

Lemma breaking_is_conventional subject :
  breaking_subject subject -> conventional_subject subject.
Proof.
  apply subject_form_weaken; [auto|]. intros x ->. right; reflexivity.
Qed.

Lemma is_lower_not_stop a :
  is_lower a = true ->
  (Ascii.eqb a "(" || Ascii.eqb a "!" || Ascii.eqb a ":") = false.
Proof.
  intros L.
  destruct (Ascii.eqb a "(") eqn:E1; [apply Ascii.eqb_eq in E1; subst; discriminate|].
  destruct (Ascii.eqb a "!") eqn:E2; [apply Ascii.eqb_eq in E2; subst; discriminate|].
  destruct (Ascii.eqb a ":") eqn:E3; [apply Ascii.eqb_eq in E3; subst; discriminate|].
  reflexivity.
Qed.

Lemma type_token_app ty x rest :
  Forall (fun a => is_lower a = true) ty ->
  (Ascii.eqb x "(" || Ascii.eqb x "!" || Ascii.eqb x ":") = true ->
  type_token (ty ++ x :: rest) = ty.
Proof.
  intros F S. induction F as [|a ty La F IH]; simpl.
  - rewrite S. reflexivity.
  - rewrite (is_lower_not_stop _ La), IH. reflexivity.
Qed.

Lemma conventional_type_token subject :
  conventional_subject subject -> lower_word (type_token subject).
Proof.
  intros (ty & sc & b & rest & -> & [N F] & S & B).
  assert (E : exists x rest', sc ++ b ++ ":"%char :: rest = x :: rest' /\
              (Ascii.eqb x "(" || Ascii.eqb x "!" || Ascii.eqb x ":") = true).
  { destruct S as [-> | (y & _ & _ & ->)].
    - destruct B as [-> | ->]; simpl; eauto.
    - simpl. eauto. }
  destruct E as (x & rest' & -> & S').
  rewrite (type_token_app _ _ F S'). split; assumption.
Qed.

(** C10: a subject is recognized by one of the three patterns only when
    its type token, what stands before the first parenthesis, bang or
    colon, is one or more lower-case letters.  When the token is empty or
    has any other code unit in it, none of the patterns matches and the
    impact is unknown, unless the footer contains "BREAKING CHANGE: ",
    which makes it major. *)
Theorem C10_type_must_be_lowercase subject footer :
  ~ lower_word (type_token subject) ->
  test BREAKING_CHANGE_REGEX subject = false /\
  test FEAT_REGEX subject = false /\
  test CONVENTIONAL_COMMIT_REGEX subject = false /\
  semverOf subject footer =
    (if includes footer (str "BREAKING CHANGE: ") then SemverMajor
     else SemverUnknown).
Proof.
  intros N.
  assert (C : test CONVENTIONAL_COMMIT_REGEX subject = false).
  { apply not_true_false. intros T. apply test_CONVENTIONAL in T.
    apply N, conventional_type_token, T. }
  assert (B : test BREAKING_CHANGE_REGEX subject = false).
  { apply not_true_false. intros T. apply test_BREAKING in T.
    apply N, conventional_type_token, breaking_is_conventional, T. }
  assert (F : test FEAT_REGEX subject = false).
  { apply not_true_false. intros T. apply test_FEAT in T.
    apply N, conventional_type_token, feat_is_conventional, T. }
  repeat split; auto.
  unfold semverOf. rewrite B, F, C. reflexivity.
Qed.

Lemma C10_type_must_be_lowercase_witness :
  type_token (str "Fix: bug") = str "Fix" /\
  semverOf (str "Fix: bug") [] = SemverUnknown /\
  semverOf (str "Fix: bug") (str "BREAKING CHANGE: x") = SemverMajor.
Proof.
  assert (N : ~ lower_word (type_token (str "Fix: bug"))).
  { intros [_ F]. inversion F. discriminate. }
  split; [reflexivity|]. split.
  - rewrite (proj2 (proj2 (proj2
              (@C10_type_must_be_lowercase (str "Fix: bug") [] N)))).
    reflexivity.
  - rewrite (proj2 (proj2 (proj2
              (@C10_type_must_be_lowercase (str "Fix: bug")
                 (str "BREAKING CHANGE: x") N)))).
    reflexivity.
Defined.

(* ================================================================== *)
(** * Parsing and printing a version *)
(* ================================================================== *)

Section Doubles.

Local Open Scope N_scope.

(** Rounding leaves the integers below 2^53 alone and sends the others to
    2^53 or beyond. *)
Lemma round_double_safe n a :
  Number.round_double n = Fin a -> a < 2 ^ 53 -> n = a.
Proof.
  unfold Number.round_double. destruct (n <? 2 ^ 53) eqn:E.
  - intros H _. inversion H. reflexivity.
  - apply N.ltb_ge in E. cbv zeta.
    set (e := N.log2 n - 52). set (q := N.shiftr n e).
    match goal with
    | |- context [if ?b then q + 1 else q] => set (q' := if b then q + 1 else q)
    end.
    destruct (q' * 2 ^ e <? 2 ^ 1024); [|discriminate].
    intros H A. inversion H as [Ha]. exfalso.
    assert (L : 53 <= N.log2 n).
    { rewrite <- (N.log2_pow2 53) by lia. apply N.log2_le_mono. exact E. }
    assert (P : 2 ^ N.log2 n <= n).
    { apply N.log2_spec. apply N.lt_le_trans with (2 ^ 53); [|exact E].
      apply N.neq_0_lt_0, N.pow_nonzero. discriminate. }
    assert (Ee : N.log2 n = 52 + e) by (unfold e; lia).
    rewrite Ee, N.pow_add_r in P.
    assert (Z2 : 2 ^ e <> 0) by (apply N.pow_nonzero; discriminate).
    assert (Q : 2 ^ 52 <= q).
    { unfold q. rewrite N.shiftr_div_pow2.
      rewrite <- (N.div_mul (2 ^ 52) (2 ^ e)) by exact Z2.
      apply N.Div0.div_le_mono. exact P. }
    assert (Q' : q <= q').
    { unfold q'. match goal with |- context [if ?b then _ else _] => destruct b end; lia. }
    assert (E2 : 2 ^ 1 <= 2 ^ e) by (apply N.pow_le_mono_r; [discriminate | unfold e; lia]).
    change (2 ^ 1) with 2 in E2.
    assert (M : 2 ^ 52 * 2 <= q' * 2 ^ e).
    { apply N.mul_le_mono; lia. }
    change (2 ^ 52 * 2) with (2 ^ 53) in M. rewrite Ha in M. lia.
Qed.

End Doubles.

Lemma digits_uint ds :
  Forall (fun a => is_digit a = true) ds ->
  exists u, DecimalString.NilEmpty.uint_of_string (string_of_list_ascii ds) = Some u.
Proof.
  induction 1 as [|a ds D F (u & IH)]; simpl; [eauto|].
  rewrite IH.
  destruct a as [[] [] [] [] [] [] [] []]; try discriminate D; simpl; eauto.
Qed.

(** Printing the value of a numeric identifier gives the identifier
    back. *)
Lemma numeric_value_decimal g :
  Lang numeric_re g ->
  exists n, Number.decimal_value g = Some n /\ Number.decimal n = g.
Proof.
  unfold numeric_re. intros [L|L].
  - apply Lang_chr in L. subst g. exists 0%N. split; reflexivity.
  - destruct L as (x1 & ds & -> & (d & -> & D) & S).
    apply Lang_star_cls in S.
    destruct (digits_uint S) as (u & U).
    unfold Number.decimal_value, Number.decimal. simpl app. cbv iota.
    assert (V : exists u', DecimalString.NilEmpty.uint_of_string
                             (string_of_list_ascii (d :: ds)) = Some u' /\
                           Decimal.unorm u' = u').
    { simpl. rewrite U.
      destruct d as [[] [] [] [] [] [] [] []]; try discriminate D; simpl; eauto. }
    destruct V as (u' & V & Nm). rewrite V. simpl option_map.
    eexists; split; [reflexivity|].
    rewrite DecimalN.Unsigned.to_of, Nm.
    rewrite (DecimalString.NilEmpty.sus _ _ V).
    apply list_ascii_of_string_of_list_ascii.
Qed.

Lemma toString_parseInt g :
  Lang numeric_re g -> safe (Number.parseInt g) ->
  Number.toString (Number.parseInt g) = g.
Proof.
  intros L (a & E & A). destruct (numeric_value_decimal L) as (n & V & D).
  unfold Number.parseInt in *. rewrite V in *.
  pose proof (round_double_safe _ E A) as <-. rewrite E.
  unfold Number.toString. apply N.ltb_lt in A. rewrite A. exact D.
Qed.

Lemma Lang_alphabet P r :
  classes_within P r -> forall x, Lang r x -> Forall (fun a => P a = true) x.
Proof.
  induction r; simpl; intros W x L.
  - subst; constructor.
  - destruct L as (a & -> & Pa). constructor; auto.
  - destruct W as [W1 W2]. destruct L as (x1 & x2 & -> & L1 & L2).
    apply Forall_app; auto.
  - destruct W as [W1 W2]. destruct L; auto.
  - induction L as [|x y N Lx Ly IH]; [constructor|]. apply Forall_app; auto.
  - auto.
  - subst; constructor.
Qed.

Lemma Matches_Group_plain i r st c st' c2 :
  no_group r -> assert_free r ->
  Matches (Group i r) st c st' c2 ->
  exists x, Lang r x /\ snd st = x ++ snd st' /\ c2 = (i, x) :: c.
Proof.
  intros NG AF M. apply Matches_Group_inv in M. destruct M as (c' & M & ->).
  pose proof (Matches_no_group M NG) as ->.
  apply Matches_Lang in M; [|exact AF]. destruct M as (x & L & E & _).
  exists x. rewrite (@between_consumed st st' x E). auto.
Qed.

Lemma Matches_opt_part ch i r st c st' c' :
  no_group r -> assert_free r ->
  Matches (opt (Seq (chr ch) (Group i r))) st c st' c' ->
  (exists x, Lang r x /\ snd st = ch :: x ++ snd st' /\ c' = (i, x) :: c) \/
  (st' = st /\ c' = c).
Proof.
  intros NG AF M. apply Matches_opt_inv in M. destruct M as [M|M]; [left | right; exact M].
  apply Matches_Seq_inv in M. destruct M as (st1 & c1 & M1 & M2).
  apply Matches_chr_inv in M1. destruct M1 as (E1 & _ & ->).
  apply Matches_Group_plain in M2; auto. destruct M2 as (x & L & E2 & ->).
  exists x. rewrite E1, E2. auto.
Qed.

Lemma numeric_re_plain : no_group numeric_re /\ assert_free numeric_re.
Proof. simpl; tauto. Qed.

Lemma prerelease_re_plain : no_group prerelease_re /\ assert_free prerelease_re.
Proof. simpl; tauto. Qed.

Lemma build_re_plain : no_group build_re /\ assert_free build_re.
Proof. simpl; tauto. Qed.

(** A match of [SEMVER_REGEX]: the input is made of the parts, and the
    groups hold them. *)
Lemma semver_match_shape s st' c' :
  Matches (seqs [Group 1 numeric_re; chr "."; Group 2 numeric_re; chr ".";
                 Group 3 numeric_re;
                 opt (Seq (chr "-") (Group 4 prerelease_re));
                 opt (Seq (chr "+") (Group 5 build_re)); eol]) ([], s) [] st' c' ->
  exists g1 g2 g3 pre bld,
    s = version_string g1 g2 g3 pre bld /\
    Lang numeric_re g1 /\ Lang numeric_re g2 /\ Lang numeric_re g3 /\
    (forall p, pre = Some p -> Lang prerelease_re p) /\
    (forall b, bld = Some b -> Lang build_re b) /\
    group c' 1 = Some g1 /\ group c' 2 = Some g2 /\ group c' 3 = Some g3 /\
    group c' 4 = pre /\ group c' 5 = bld.
Proof.
  intros M.
  assert (Chain : exists st1 c1 st2 c2 st3 c3 st4 c4 st5 c5 st6 c6 st7 c7,
    Matches (Group 1 numeric_re) ([], s) [] st1 c1 /\
    Matches (chr ".") st1 c1 st2 c2 /\
    Matches (Group 2 numeric_re) st2 c2 st3 c3 /\
    Matches (chr ".") st3 c3 st4 c4 /\
    Matches (Group 3 numeric_re) st4 c4 st5 c5 /\
    Matches (opt (Seq (chr "-") (Group 4 prerelease_re))) st5 c5 st6 c6 /\
    Matches (opt (Seq (chr "+") (Group 5 build_re))) st6 c6 st7 c7 /\
    Matches eol st7 c7 st' c').
  { simpl seqs in M.
    apply Matches_Seq_inv in M. destruct M as (st1 & c1 & M1 & M).
    apply Matches_Seq_inv in M. destruct M as (st2 & c2 & M2 & M).
    apply Matches_Seq_inv in M. destruct M as (st3 & c3 & M3 & M).
    apply Matches_Seq_inv in M. destruct M as (st4 & c4 & M4 & M).
    apply Matches_Seq_inv in M. destruct M as (st5 & c5 & M5 & M).
    apply Matches_Seq_inv in M. destruct M as (st6 & c6 & M6 & M).
    apply Matches_Seq_inv in M. destruct M as (st7 & c7 & M7 & M8).
    exists st1, c1, st2, c2, st3, c3, st4, c4, st5, c5, st6, c6, st7, c7. tauto. }
  clear M.
  destruct Chain as (st1 & c1 & st2 & c2 & st3 & c3 & st4 & c4 & st5 & c5 & st6 & c6
                     & st7 & c7 & M1 & M2 & M3 & M4 & M5 & M6 & M7 & M8).
  destruct numeric_re_plain as [NGn AFn].
  apply Matches_Group_plain in M1; auto. destruct M1 as (g1 & L1 & E1 & ->).
  apply Matches_chr_inv in M2. destruct M2 as (E2 & _ & ->).
  apply Matches_Group_plain in M3; auto. destruct M3 as (g2 & L2 & E3 & ->).
  apply Matches_chr_inv in M4. destruct M4 as (E4 & _ & ->).
  apply Matches_Group_plain in M5; auto. destruct M5 as (g3 & L3 & E5 & ->).
  apply Matches_opt_part in M6; try apply prerelease_re_plain.
  apply Matches_opt_part in M7; try apply build_re_plain.
  apply Matches_Assert_inv in M8. destruct M8 as (-> & -> & E8).
  destruct (snd st7) as [|z zs] eqn:E7; [clear E8|discriminate].
  simpl in E1. unfold version_string.
  destruct M6 as [(p & Lp & E6 & ->)|[-> ->]];
    destruct M7 as [(b & Lb & E7' & ->)|[E7' ->]];
    [exists g1, g2, g3, (Some p), (Some b)
    |exists g1, g2, g3, (Some p), None
    |exists g1, g2, g3, None, (Some b)
    |exists g1, g2, g3, None, None];
    (split; [| repeat split; auto; try congruence; try discriminate]).
  - rewrite E1, E2, E3, E4, E5, E6, E7'. simpl. rewrite ?app_nil_r. reflexivity.
  - subst st7. rewrite E1, E2, E3, E4, E5, E6, E7. simpl. rewrite ?app_nil_r. reflexivity.
  - rewrite E1, E2, E3, E4, E5, E7'. simpl. rewrite ?app_nil_r. reflexivity.
  - subst st7. rewrite E1, E2, E3, E4, E5, E7. simpl. rewrite ?app_nil_r. reflexivity.
Qed.

Ltac by_cases_on_ascii :=
  let a := fresh "a" in let H := fresh "H" in
  intros a H; destruct a as [[] [] [] [] [] [] [] []];
  try discriminate H; reflexivity.

Lemma numeric_re_chars g :
  Lang numeric_re g -> Forall (fun a => part_char a = true) g.
Proof. apply Lang_alphabet. simpl. repeat split; by_cases_on_ascii. Qed.

Lemma prerelease_re_chars p :
  Lang prerelease_re p -> Forall (fun a => part_char a = true) p.
Proof. apply Lang_alphabet. simpl. repeat split; by_cases_on_ascii. Qed.

Lemma build_re_chars b :
  Lang build_re b -> Forall (fun a => part_char a = true) b.
Proof. apply Lang_alphabet. simpl. repeat split; by_cases_on_ascii. Qed.

Lemma prerelease_re_nonempty p : Lang prerelease_re p -> p <> [].
Proof.
  intros (x1 & x2 & -> & L & _) E. apply app_eq_nil in E. destruct E as [-> _].
  unfold prerelease_id_re in L. simpl alts in L.
  destruct L as [L|[L|L]].
  - apply Lang_chr in L. discriminate.
  - destruct L as (y1 & y2 & E & (a & -> & _) & _). discriminate.
  - destruct L as (y1 & y2 & E & _ & (z1 & z2 & -> & (a & -> & _) & _)).
    destruct y1; discriminate.
Qed.

(** ** Trimming *)

Lemma trimStart_id s :
  Forall (fun a => is_space a = false) s -> trimStart s = s.
Proof. destruct 1 as [|a s H F]; simpl; [reflexivity|]. rewrite H. reflexivity. Qed.

Lemma trim_id s : Forall (fun a => is_space a = false) s -> trim s = s.
Proof.
  intros F. unfold trim, trimEnd. rewrite (trimStart_id F).
  rewrite trimStart_id by (apply Forall_rev; exact F). apply rev_involutive.
Qed.

Lemma version_char_not_space : forall a, version_char a = true -> is_space a = false.
Proof. by_cases_on_ascii. Qed.

Lemma part_char_version a : part_char a = true -> version_char a = true.
Proof. unfold version_char. intros ->. reflexivity. Qed.

Lemma part_char_not_plus : forall a, part_char a = true -> Ascii.eqb a "+" = false.
Proof. by_cases_on_ascii. Qed.

(** ** Dropping the build metadata *)

Lemma without_build_app x y :
  Forall (fun a => part_char a = true) x ->
  without_build (x ++ "+"%char :: y) = x.
Proof.
  induction 1 as [|a x P F IH]; simpl; [reflexivity|].
  rewrite (part_char_not_plus _ P), IH. reflexivity.
Qed.

Lemma without_build_id x :
  Forall (fun a => part_char a = true) x -> without_build x = x.
Proof.
  induction 1 as [|a x P F IH]; simpl; [reflexivity|].
  rewrite (part_char_not_plus _ P), IH. reflexivity.
Qed.

Lemma without_build_no_plus s : ~ In "+"%char s -> without_build s = s.
Proof.
  induction s as [|a s IH]; simpl; intros N; [reflexivity|].
  destruct (Ascii.eqb a "+") eqn:E.
  - apply Ascii.eqb_eq in E. exfalso. apply N. left. congruence.
  - rewrite IH; [reflexivity|]. intros I. apply N. right. exact I.
Qed.

Lemma version_string_chars g1 g2 g3 pre bld :
  Lang numeric_re g1 -> Lang numeric_re g2 -> Lang numeric_re g3 ->
  (forall p, pre = Some p -> Lang prerelease_re p) ->
  (forall b, bld = Some b -> Lang build_re b) ->
  Forall (fun a => part_char a = true)
         (version_string g1 g2 g3 pre None) /\
  Forall (fun a => version_char a = true) (version_string g1 g2 g3 pre bld).
Proof.
  intros L1 L2 L3 Lp Lb.
  apply numeric_re_chars in L1, L2, L3.
  assert (Pp : Forall (fun a => part_char a = true)
                 match pre with Some p => "-"%char :: p | None => [] end).
  { destruct pre as [p|]; [|constructor].
    constructor; [reflexivity | apply prerelease_re_chars, Lp; reflexivity]. }
  assert (Core : Forall (fun a => part_char a = true) (version_string g1 g2 g3 pre None)).
  { unfold version_string. rewrite app_nil_r.
    apply Forall_app; split; [exact L1|]. constructor; [reflexivity|].
    apply Forall_app; split; [exact L2|]. constructor; [reflexivity|].
    apply Forall_app; split; [exact L3 | exact Pp]. }
  split; [exact Core|].
  assert (W : forall l, Forall (fun a => part_char a = true) l ->
                        Forall (fun a => version_char a = true) l).
  { intros l. apply Forall_impl. exact part_char_version. }
  unfold version_string.
  apply Forall_app; split; [apply W, L1|]. constructor; [reflexivity|].
  apply Forall_app; split; [apply W, L2|]. constructor; [reflexivity|].
  apply Forall_app; split; [apply W, L3|].
  apply Forall_app; split; [apply W, Pp|].
  destruct bld as [b|]; [|constructor].
  constructor; [reflexivity | apply W, build_re_chars, Lb; reflexivity].
Qed.

Lemma version_string_without_build g1 g2 g3 pre bld :
  Forall (fun a => part_char a = true) (version_string g1 g2 g3 pre None) ->
  without_build (version_string g1 g2 g3 pre bld) = version_string g1 g2 g3 pre None.
Proof.
  intros F. destruct bld as [b|]; [|apply without_build_id; exact F].
  replace (version_string g1 g2 g3 pre (Some b))
    with (version_string g1 g2 g3 pre None ++ "+"%char :: b).
  - apply without_build_app. exact F.
  - unfold version_string. rewrite app_nil_r.
    repeat (rewrite <- ?app_assoc; simpl). reflexivity.
Qed.

(** ** The pattern and the grammar *)

Lemma Lang_numeric x : Lang numeric_re x <-> numeric_identifier x.
Proof.
  unfold numeric_re, numeric_identifier.
  change (Lang (Alt (chr "0") (Seq (Cls digit19) (Star (Cls is_digit)))) x)
    with (Lang (chr "0") x \/
          cat (Lang (Cls digit19)) (Lang (Star (Cls is_digit))) x).
  rewrite Lang_chr. split.
  - intros [->|(x1 & ds & -> & (d & -> & D) & S)]; [left; reflexivity|right].
    apply Lang_star_cls in S. exists d, ds. auto.
  - intros [->|(d & ds & -> & D & S)]; [left; reflexivity|right].
    exists [d], ds. split; [reflexivity|].
    split; [exists d; auto | apply Lang_star_cls; exact S].
Qed.

Lemma alpha_is_alnum_not_digit a :
  alpha_hyphen a = true <-> alnum_hyphen a = true /\ is_digit a = false.
Proof.
  destruct a as [[] [] [] [] [] [] [] []]; vm_compute; intuition congruence.
Qed.

Lemma is_digit_alnum a : is_digit a = true -> alnum_hyphen a = true.
Proof. unfold alnum_hyphen. intros ->. reflexivity. Qed.

Lemma Lang_alphanumeric x :
  Lang (seqs [Star (Cls is_digit); Cls alpha_hyphen; Star (Cls alnum_hyphen)]) x <->
  alphanumeric_identifier x.
Proof.
  change (Lang (seqs [Star (Cls is_digit); Cls alpha_hyphen; Star (Cls alnum_hyphen)]) x)
    with (cat (Lang (Star (Cls is_digit)))
              (cat (Lang (Cls alpha_hyphen)) (Lang (Star (Cls alnum_hyphen)))) x).
  unfold alphanumeric_identifier. split.
  - intros (ds & y & -> & D & (x1 & rest & -> & (a & -> & A) & R)).
    apply Lang_star_cls in D, R. apply alpha_is_alnum_not_digit in A.
    destruct A as [A1 A2]. split.
    + apply Forall_app; split.
      * eapply Forall_impl; [|exact D]. exact is_digit_alnum.
      * constructor; assumption.
    + exists a. split; [|exact A2]. apply in_or_app. right. left. reflexivity.
  - intros [F (a & I & N)]. induction F as [|c x C F IH]; [destruct I|].
    destruct (is_digit c) eqn:Dc.
    + destruct I as [->|I]; [congruence|].
      destruct (IH I) as (ds & y & -> & D & R).
      exists (c :: ds), y. split; [reflexivity|]. split; [|exact R].
      apply Lang_star_cls. apply Lang_star_cls in D. constructor; assumption.
    + exists [], (c :: x). split; [reflexivity|].
      split; [apply Lang_star_cls; constructor|].
      exists [c], x. split; [reflexivity|]. split.
      * exists c. split; [reflexivity|]. apply alpha_is_alnum_not_digit. auto.
      * apply Lang_star_cls. exact F.
Qed.

Lemma Lang_Alt r1 r2 x : Lang (Alt r1 r2) x <-> Lang r1 x \/ Lang r2 x.
Proof. reflexivity. Qed.

Lemma Lang_prerelease_id x : Lang prerelease_id_re x <-> prerelease_identifier x.
Proof.
  unfold prerelease_id_re, prerelease_identifier. cbn [alts].
  rewrite !Lang_Alt, Lang_alphanumeric, <- Lang_numeric. unfold numeric_re.
  rewrite Lang_Alt. tauto.
Qed.

Lemma Lang_build_id x : Lang build_id_re x <-> build_identifier x.
Proof. apply Lang_plus_cls. Qed.

Lemma join_dot_cons first others :
  join ["."%char] (first :: others) =
  first ++ concat (map (fun i => "."%char :: i) others).
Proof.
  revert first. induction others as [|y others IH]; intros first.
  - simpl. rewrite app_nil_r. reflexivity.
  - rewrite join_cons, IH. reflexivity.
Qed.

Lemma Lang_dotted id_re (id : jsstring -> Prop) x :
  (forall y, Lang id_re y <-> id y) ->
  (Lang (Seq id_re (Star (Seq (chr ".") id_re))) x <-> dotted id x).
Proof.
  intros LI.
  change (Lang (Seq id_re (Star (Seq (chr ".") id_re))) x)
    with (cat (Lang id_re) (star (cat (Lang (chr ".")) (Lang id_re))) x).
  unfold dotted. split.
  - intros (first & y & -> & L & S). apply LI in L.
    assert (E : exists others, Forall id others /\
                  y = concat (map (fun i => "."%char :: i) others)).
    { clear L. induction S as [|z y N (d & i & -> & D & Li) S IH].
      - exists []. split; [constructor | reflexivity].
      - destruct IH as (others & F & ->). apply Lang_chr in D. subst d.
        apply LI in Li. exists (i :: others). split; [constructor; auto|].
        reflexivity. }
    destruct E as (others & F & ->).
    exists first, others. split; [exact L|]. split; [exact F|].
    symmetry. apply join_dot_cons.
  - intros (first & others & I & F & ->). rewrite join_dot_cons.
    exists first, (concat (map (fun i => "."%char :: i) others)).
    split; [reflexivity|]. split; [apply LI; exact I|].
    induction F as [|i others Ii F IH]; [constructor|].
    simpl map. simpl concat.
    change ("."%char :: i ++ concat (map (fun i0 => "."%char :: i0) others))
      with (("."%char :: i) ++ concat (map (fun i0 => "."%char :: i0) others)).
    apply star_app; [discriminate | | exact IH].
    exists ["."%char], i. split; [reflexivity|].
    split; [apply Lang_chr; reflexivity | apply LI; exact Ii].
Qed.

Lemma Lang_prerelease p :
  Lang prerelease_re p <-> dotted prerelease_identifier p.
Proof. apply Lang_dotted. exact Lang_prerelease_id. Qed.

Lemma Lang_build b : Lang build_re b <-> dotted build_identifier b.
Proof. apply Lang_dotted. exact Lang_build_id. Qed.

(** A group of a pattern without groups matches what the pattern
    matches. *)
Lemma Matches_Group_intro i r x b a c :
  assert_free r -> Lang r x ->
  exists c', Matches (Group i r) (b, x ++ a) c (rev x ++ b, a) c'.
Proof.
  intros AF L. destruct (@Lang_Matches r AF x L b a c) as [c' M].
  eexists. constructor. exact M.
Qed.

Lemma Matches_opt_part_intro ch i r (part : option jsstring) b a c :
  assert_free r -> (forall x, part = Some x -> Lang r x) ->
  exists st' c',
    Matches (opt (Seq (chr ch) (Group i r)))
            (b, match part with Some x => ch :: x | None => [] end ++ a) c st' c' /\
    snd st' = a.
Proof.
  intros AF L. destruct part as [x|].
  - destruct (@Matches_Group_intro i r x (ch :: b) a c AF (L x eq_refl)) as [c' M].
    exists (rev x ++ ch :: b, a), c'. split; [|reflexivity].
    apply M_AltL. econstructor; [|exact M].
    simpl. constructor. apply Ascii.eqb_refl.
  - exists (b, a), c. split; [|reflexivity]. apply M_AltR. constructor.
Qed.

(** The pattern accepts the strings of the grammar, and no other. *)
Lemma semver_grammar_test s :
  semver_grammar s <-> test SEMVER_REGEX s = true.
Proof.
  unfold SEMVER_REGEX. simpl seqs. rewrite test_anchored. split.
  - intros (g1 & g2 & g3 & pre & bld & -> & N1 & N2 & N3 & Np & Nb).
    apply Lang_numeric in N1, N2, N3.
    destruct numeric_re_plain as [_ AFn].
    unfold version_string.
    destruct (@Matches_Group_intro 1 numeric_re g1 []
                ("."%char :: g2 ++ "."%char :: g3 ++
                 match pre with Some p => "-"%char :: p | None => [] end ++
                 match bld with Some b => "+"%char :: b | None => [] end)
                [] AFn N1) as [c1 M1].
    set (b1 := rev g1 ++ []) in M1.
    destruct (@Matches_Group_intro 2 numeric_re g2 ("."%char :: b1)
                ("."%char :: g3 ++
                 match pre with Some p => "-"%char :: p | None => [] end ++
                 match bld with Some b => "+"%char :: b | None => [] end)
                c1 AFn N2) as [c2 M2].
    set (b2 := rev g2 ++ "."%char :: b1) in M2.
    destruct (@Matches_Group_intro 3 numeric_re g3 ("."%char :: b2)
                (match pre with Some p => "-"%char :: p | None => [] end ++
                 match bld with Some b => "+"%char :: b | None => [] end)
                c2 AFn N3) as [c3 M3].
    set (b3 := rev g3 ++ "."%char :: b2) in M3.
    destruct (@Matches_opt_part_intro "-" 4 prerelease_re pre b3
                (match bld with Some b => "+"%char :: b | None => [] end ++ [])
                c3 (proj2 prerelease_re_plain)) as ([b4 a4] & c4 & M4 & E4).
    { intros p E. apply Lang_prerelease, Np, E. }
    simpl in E4. subst a4.
    destruct (@Matches_opt_part_intro "+" 5 build_re bld b4 [] c4
                (proj2 build_re_plain)) as ([b5 a5] & c5 & M5 & E5).
    { intros b E. apply Lang_build, Nb, E. }
    simpl in E5. subst a5.
    rewrite app_nil_r in M4, M5.
    exists (b5, []), c5.
    eapply M_Seq; [exact M1|].
    eapply M_Seq; [constructor; apply Ascii.eqb_refl|].
    eapply M_Seq; [exact M2|].
    eapply M_Seq; [constructor; apply Ascii.eqb_refl|].
    eapply M_Seq; [exact M3|].
    eapply M_Seq; [exact M4|].
    eapply M_Seq; [exact M5|].
    constructor. reflexivity.
  - intros (st' & c' & M). apply semver_match_shape in M.
    destruct M as (g1 & g2 & g3 & pre & bld & Es & L1 & L2 & L3 & Lp & Lb & _).
    exists g1, g2, g3, pre, bld. split; [exact Es|].
    split; [apply Lang_numeric, L1|]. split; [apply Lang_numeric, L2|].
    split; [apply Lang_numeric, L3|]. split.
    + intros p E. apply Lang_prerelease, Lp, E.
    + intros b E. apply Lang_build, Lb, E.
Qed.

(** What [parseVersion] returns for a string the pattern accepts. *)
Lemma parseVersion_shape s :
  test SEMVER_REGEX s = true ->
  exists g1 g2 g3 pre bld,
    s = version_string g1 g2 g3 pre bld /\
    Lang numeric_re g1 /\ Lang numeric_re g2 /\ Lang numeric_re g3 /\
    (forall p, pre = Some p -> Lang prerelease_re p) /\
    (forall b, bld = Some b -> Lang build_re b) /\
    parseVersion s =
      mkVersion (Number.parseInt g1) (Number.parseInt g2) (Number.parseInt g3) pre.
Proof.
  intros T. unfold test in T.
  destruct (exec SEMVER_REGEX s) as [mt|] eqn:E; [clear T|discriminate].
  pose proof E as E'. unfold SEMVER_REGEX in E'. simpl seqs in E'.
  apply exec_anchored_Some in E'. destruct E' as (st' & c' & M & ->).
  apply (@semver_match_shape s st' c') in M.
  destruct M as (g1 & g2 & g3 & pre & bld & Es & L1 & L2 & L3 & Lp & Lb
                 & G1 & G2 & G3 & G4 & _).
  exists g1, g2, g3, pre, bld. repeat split; auto.
  destruct (version_string_chars L1 L2 L3 Lp Lb) as [_ VC].
  rewrite <- Es in VC.
  unfold parseVersion. rewrite trim_id.
  - rewrite E. simpl groups. unfold parseInt_group. rewrite G1, G2, G3, G4.
    reflexivity.
  - eapply Forall_impl; [|exact VC]. exact version_char_not_space.
Qed.

(** C6, as stated, fails: "9007199254740993.0.0" is a string of the grammar
    without build metadata, but 9007199254740993 is not a double; it is
    parsed as 9007199254740992 and printed as such. *)
Lemma C6_counterexample :
  let s := str "9007199254740993.0.0" in
  semver_grammar s /\ ~ In "+"%char s /\
  versionToSemverString (parseVersion s) = str "9007199254740992.0.0" /\
  versionToSemverString (parseVersion s) <> s.
Proof.
  split; [apply semver_grammar_test; reflexivity|].
  vm_compute. repeat split; try discriminate.
  intros H. repeat (destruct H as [H|H]; [discriminate|]). exact H.
Qed.

(** C6 (amended): for every string s of the SemVer grammar whose major,
    minor and patch are safe integers (below 2^53),
    toSemverString(parse(s)) is s without its build metadata, which is s
    itself when s carries none. *)
Theorem C6_round_trip s :
  semver_grammar s ->
  safe (major (parseVersion s)) ->
  safe (minor (parseVersion s)) ->
  safe (patch (parseVersion s)) ->
  versionToSemverString (parseVersion s) = without_build s /\
  (~ In "+"%char s -> versionToSemverString (parseVersion s) = s).
Proof.
  intros G S1 S2 S3. apply semver_grammar_test in G.
  destruct (@parseVersion_shape s G)
    as (g1 & g2 & g3 & pre & bld & Es & L1 & L2 & L3 & Lp & Lb & PV).
  rewrite PV in *. simpl in S1, S2, S3.
  assert (R : versionToSemverString
                (mkVersion (Number.parseInt g1) (Number.parseInt g2)
                           (Number.parseInt g3) pre) = without_build s).
  { destruct (version_string_chars L1 L2 L3 Lp Lb) as [Core _].
    rewrite Es, (@version_string_without_build g1 g2 g3 pre bld Core).
    unfold versionToSemverString. simpl major; simpl minor; simpl patch; simpl suffix.
    rewrite !toString_parseInt by assumption.
    unfold version_string. rewrite app_nil_r. simpl.
    do 5 f_equal.
    destruct pre as [p|]; [|reflexivity].
    pose proof (@prerelease_re_nonempty p (Lp p eq_refl)) as N.
    destruct p; [congruence|reflexivity]. }
  split; [exact R|].
  intros N. rewrite R. apply without_build_no_plus. exact N.
Qed.

Lemma C6_round_trip_witness :
  let s := str "1.20.3-rc.1+build.7" in
  versionToSemverString (parseVersion s) = str "1.20.3-rc.1".
Proof.
  intros s.
  assert (Sf : forall n, (n < 2 ^ 53)%N -> safe (Fin n)) by (intros n H; exists n; auto).
  destruct (@C6_round_trip s) as [R _].
  - apply semver_grammar_test. reflexivity.
  - apply Sf; reflexivity.
  - apply Sf; reflexivity.
  - apply Sf; reflexivity.
  - rewrite R. reflexivity.
Defined.

(* ================================================================== *)
(** * Failures *)
(* ================================================================== *)

Lemma exec_at_position r : forall a b st st' c,
  exec_at r b a = Some (st, st', c) -> exists skipped, a = skipped ++ snd st.
Proof.
  induction a as [|x a IH]; intros b st st' c; simpl;
    destruct (m r (b, _) [] accept) as [[st1 c1]|] eqn:E; intros H;
    try discriminate.
  - inversion H; subst. exists []; reflexivity.
  - inversion H; subst. exists []; reflexivity.
  - apply IH in H. destruct H as (sk & ->). exists (x :: sk); reflexivity.
Qed.

Lemma header_match_dollar st st' c :
  Matches COMMIT_HEADER_REGEX st [] st' c -> In "$"%char (snd st).
Proof.
  unfold COMMIT_HEADER_REGEX; simpl seqs. intros M.
  apply Matches_Seq_inv in M. destruct M as (st0 & c0 & MA & M).
  apply Matches_Assert_inv in MA. destruct MA as (-> & -> & _).
  apply Matches_Seq_inv in M. destruct M as (st1 & c1 & M1 & M).
  apply Matches_Seq_inv in M. destruct M as (st2 & c2 & M2 & M).
  apply Matches_chr_inv in M2. destruct M2 as (E2 & _).
  apply Matches_consumes in M1. destruct M1 as (x & E1 & _).
  rewrite E1, E2. apply in_or_app. right. left. reflexivity.
Qed.

(** A text without dollar sign has no commit header: it parses to the
    empty list of commits. *)
Lemma parseGitLog_no_header raw : ~ In "$"%char raw -> parseGitLog raw = [].
Proof.
  intros N. unfold parseGitLog, matchAll. simpl matchAll_from.
  destruct (exec_at COMMIT_HEADER_REGEX [] raw) as [[[st st'] c]|] eqn:E;
    [|reflexivity].
  exfalso. apply N.
  destruct (exec_at_position _ _ _ E) as (sk & ->).
  apply exec_at_sound, header_match_dollar in E.
  apply in_or_app. right. exact E.
Qed.

Lemma bind_Ok (A B : Type) (a : A) (f : A -> result B) : bind (Ok a) f = f a.
Proof. reflexivity. Qed.

(** C9, as stated, fails: a history text that holds no commit record is
    not refused, and an empty window without boundary or tag is not
    refused either; the release is computed, with no pending commit and
    the patch bump. *)
Lemma C9_counterexample :
  let w := world_with (str "1.2.3") (str "this is not a git log") in
  getAllCommits w = Ok [] /\
  exists r, generateRelease w None = Ok r /\
            commits r = [] /\ next r = v 1 2 4 /\
            generateChangelogMarkdown r = [].
Proof.
  split; [reflexivity|]. eexists. split; [reflexivity|]. repeat split.
Qed.

(** C9 (amended): the core raises nothing of its own.  generateRelease
    throws in four cases only, each time a plain Error that comes from its
    surroundings: package.json cannot be read; it has no name; the
    published version cannot be looked up while offline; the git log
    command fails.  In every other case, whatever the history text and
    the boundary are, it returns the release of the window of the parsed
    history; a text without commit header parses to no commit. *)
Theorem C9_failures_of_generateRelease w lastHash :
  (forall e, pkgJson_name w = Throw e -> generateRelease w lastHash = Throw e) /\
  (forall name, pkgJson_name w = Ok name -> truthy name = false ->
     generateRelease w lastHash = Throw (str "package.json needs a name")) /\
  (forall name, pkgJson_name w = Ok (Some name) -> name <> [] ->
     (forall e, run w (npm_show_command name) = Throw e -> isOnline w = false ->
        generateRelease w lastHash = Throw (offline_message name)) /\
     (version_resolves w name ->
        (forall e, run w git_log_command = Throw e ->
           generateRelease w lastHash = Throw e) /\
        (forall raw, run w git_log_command = Ok raw ->
           exists prev,
             getPublishedVersion w = Ok prev /\
             generateRelease w lastHash =
               Ok (releaseOf prev (windowOf (parseGitLog raw) lastHash))))) /\
  (forall raw, ~ In "$"%char raw -> parseGitLog raw = []).
Proof.
  split; [|split; [|split; [|exact parseGitLog_no_header]]].
  - intros e E. unfold generateRelease, getPublishedVersion. rewrite E. reflexivity.
  - intros name E T. unfold generateRelease, getPublishedVersion.
    rewrite E, bind_Ok, T. reflexivity.
  - intros name En Nn.
    assert (T : truthy (Some name) = true).
    { destruct name; [congruence|reflexivity]. }
    unfold generateRelease, getPublishedVersion, getCommitsSinceLastRelease,
      getAllCommits.
    rewrite En, bind_Ok, T. fold (npm_show_command name).
    simpl negb. cbv iota.
    split.
    + intros e R O. rewrite R, O. reflexivity.
    + intros V.
      assert (P : exists prev,
                (currVersionStr <-
                   match run w (npm_show_command name) with
                   | Ok out => Ok out
                   | Throw _ =>
                       if isOnline w then Ok (str "0.0.0-new")
                       else Throw (str "need to be online to determine latest npm version of '"
                                     ++ name ++ str "'")
                   end ;; Ok (parseVersion currVersionStr)) = Ok prev).
      { destruct V as [(out & R)|O].
        - rewrite R. simpl. eauto.
        - destruct (run w (npm_show_command name)); simpl; [eauto|].
          rewrite O. simpl. eauto. }
      destruct P as (prev & P). rewrite P. simpl bind.
      split.
      * intros e R. rewrite R. reflexivity.
      * intros raw R. rewrite R. exists prev. split; reflexivity.
Qed.

Lemma C9_failures_of_generateRelease_witness :
  let w := world_with (str "1.2.3") three_commits_log in
  exists r, generateRelease w None = Ok r /\
            map message (commits r) = [str "fix: x"; str "feat: y"; str "feat!: z"].
Proof.
  intros w.
  destruct (C9_failures_of_generateRelease w None) as (_ & _ & H & _).
  destruct (H (str "pkg") eq_refl) as [_ H2]; [discriminate|].
  destruct H2 as [_ H3]; [left; eexists; reflexivity|].
  destruct (H3 three_commits_log eq_refl) as (prev & _ & E).
  eexists. split; [exact E|]. reflexivity.
Defined.

(* ================================================================== *)
(** * The order of versions *)
(* ================================================================== *)

Lemma Number_ltb_neqb a b : Number.ltb a b = true -> Number.neqb a b = true.
Proof.
  unfold Number.neqb. destruct a, b; simpl; try discriminate; auto.
  intros H. apply N.ltb_lt in H. apply negb_true_iff, N.eqb_neq. lia.
Qed.

Lemma Number_ltb_trans a b c :
  Number.ltb a b = true -> Number.ltb b c = true -> Number.ltb a c = true.
Proof.
  destruct a, b, c; simpl; try discriminate; auto.
  rewrite !N.ltb_lt. lia.
Qed.

Lemma Number_ltb_asym a b : Number.ltb a b = true -> Number.ltb b a = false.
Proof.
  destruct a, b; simpl; try discriminate; auto.
  rewrite N.ltb_lt, N.ltb_ge. lia.
Qed.

Lemma Number_neqb_sym a b : Number.neqb a b = Number.neqb b a.
Proof.
  unfold Number.neqb. destruct a, b; simpl; auto. rewrite N.eqb_sym. reflexivity.
Qed.

Lemma Number_total a b :
  a <> NaN -> b <> NaN ->
  Number.ltb a b = true \/ Number.neqb a b = false \/ Number.ltb b a = true.
Proof.
  unfold Number.neqb. destruct a, b; simpl; try congruence; auto.
  intros _ _. destruct (N.lt_trichotomy n n0) as [H|[H|H]].
  - left. apply N.ltb_lt; exact H.
  - right; left. subst. rewrite N.eqb_refl. reflexivity.
  - right; right. apply N.ltb_lt; exact H.
Qed.

(** [isFirstBefore] compares the three numbers in turn and the suffixes
    last. *)
Lemma isFirstBefore_iff a b :
  isFirstBefore a b = true <->
  Number.ltb (major a) (major b) = true \/
  Number.neqb (major a) (major b) = false /\
  (Number.ltb (minor a) (minor b) = true \/
   Number.neqb (minor a) (minor b) = false /\
   (Number.ltb (patch a) (patch b) = true \/
    Number.neqb (patch a) (patch b) = false /\
    truthy (suffix a) = true /\ truthy (suffix b) = false)).
Proof.
  unfold isFirstBefore.
  pose proof (@Number_ltb_neqb (major a) (major b)).
  pose proof (@Number_ltb_neqb (minor a) (minor b)).
  pose proof (@Number_ltb_neqb (patch a) (patch b)).
  destruct (Number.neqb (major a) (major b)), (Number.neqb (minor a) (minor b)),
           (Number.neqb (patch a) (patch b)),
           (Number.ltb (major a) (major b)), (Number.ltb (minor a) (minor b)),
           (Number.ltb (patch a) (patch b)),
           (truthy (suffix a)), (truthy (suffix b)); simpl; intuition congruence.
Qed.

Lemma Number_lt_not_eq a b : Number.ltb a b = true -> Number.neqb b a = false -> False.
Proof.
  intros L E. apply Number_ltb_neqb in L. rewrite Number_neqb_sym in E. congruence.
Qed.

Lemma Number_lt_not_lt a b : Number.ltb a b = true -> Number.ltb b a = true -> False.
Proof. intros L L'. apply Number_ltb_asym in L. congruence. Qed.

(** X1: No version is before itself, and of two versions at most one is before
    the other. *)
Theorem isFirstBefore_strict :
  (forall a, isFirstBefore a a = false) /\
  (forall a b, isFirstBefore a b = true -> isFirstBefore b a = false).
Proof.
  assert (A : forall a b, isFirstBefore a b = true -> isFirstBefore b a = false).
  { intros a b H. apply not_true_false. intros H'.
    apply isFirstBefore_iff in H, H'.
    destruct H as [M1|[M1 H]], H' as [M2|[M2 H']].
    - exact (Number_lt_not_lt _ _ M1 M2).
    - exact (Number_lt_not_eq _ _ M1 M2).
    - exact (Number_lt_not_eq _ _ M2 M1).
    - destruct H as [m1|[m1 H]], H' as [m2|[m2 H']].
      + exact (Number_lt_not_lt _ _ m1 m2).
      + exact (Number_lt_not_eq _ _ m1 m2).
      + exact (Number_lt_not_eq _ _ m2 m1).
      + destruct H as [p1|(p1 & s1 & t1)], H' as [p2|(p2 & s2 & t2)].
        * exact (Number_lt_not_lt _ _ p1 p2).
        * exact (Number_lt_not_eq _ _ p1 p2).
        * exact (Number_lt_not_eq _ _ p2 p1).
        * congruence. }
  split; [|exact A].
  intros a. destruct (isFirstBefore a a) eqn:E; [|reflexivity].
  rewrite (A a a E) in E. discriminate.
Qed.

Lemma isFirstBefore_strict_witness :
  let a := mkVersion (Fin 1) (Fin 0) (Fin 0) (Some (str "beta")) in
  isFirstBefore a (v 1 0 0) = true /\ isFirstBefore (v 1 0 0) a = false.
Proof.
  intros a. assert (H : isFirstBefore a (v 1 0 0) = true) by reflexivity.
  split; [exact H|]. exact (proj2 isFirstBefore_strict a (v 1 0 0) H).
Defined.

Lemma Number_eq_lt a b c :
  Number.neqb a b = false -> Number.ltb b c = true -> Number.ltb a c = true.
Proof. intros E. apply Number_neqb_false in E. subst. auto. Qed.

Lemma Number_lt_eq a b c :
  Number.ltb a b = true -> Number.neqb b c = false -> Number.ltb a c = true.
Proof. intros L E. apply Number_neqb_false in E. subst. auto. Qed.

Lemma Number_eq_eq a b c :
  Number.neqb a b = false -> Number.neqb b c = false -> Number.neqb a c = false.
Proof. intros E F. pose proof (Number_neqb_false _ _ F). subst. exact E. Qed.

(** X2: The order is transitive. *)
Theorem isFirstBefore_trans a b c :
  isFirstBefore a b = true -> isFirstBefore b c = true ->
  isFirstBefore a c = true.
Proof.
  rewrite !isFirstBefore_iff. intros H1 H2.
  destruct H1 as [M1|[M1 H1]], H2 as [M2|[M2 H2]].
  - left. exact (Number_ltb_trans _ _ _ M1 M2).
  - left. exact (Number_lt_eq _ _ _ M1 M2).
  - left. exact (Number_eq_lt _ _ _ M1 M2).
  - right. split; [exact (Number_eq_eq _ _ _ M1 M2)|].
    destruct H1 as [m1|[m1 H1]], H2 as [m2|[m2 H2]].
    + left. exact (Number_ltb_trans _ _ _ m1 m2).
    + left. exact (Number_lt_eq _ _ _ m1 m2).
    + left. exact (Number_eq_lt _ _ _ m1 m2).
    + right. split; [exact (Number_eq_eq _ _ _ m1 m2)|].
      destruct H1 as [p1|(p1 & s1 & t1)], H2 as [p2|(p2 & s2 & t2)].
      * left. exact (Number_ltb_trans _ _ _ p1 p2).
      * left. exact (Number_lt_eq _ _ _ p1 p2).
      * left. exact (Number_eq_lt _ _ _ p1 p2).
      * congruence.
Qed.

Lemma isFirstBefore_trans_witness :
  isFirstBefore (v 0 9 9) (v 1 2 3) = true.
Proof.
  apply (@isFirstBefore_trans (v 0 9 9)
           (mkVersion (Fin 1) (Fin 0) (Fin 0) (Some (str "rc.1"))) (v 1 2 3));
    reflexivity.
Defined.

(** X3: Two versions with numbers for fields are left unordered exactly when
    they are at the same tier: the pre-releases of one version are not
    ordered among themselves. *)
Theorem isFirstBefore_unordered_iff a b :
  numeric a -> numeric b ->
  (isFirstBefore a b = false /\ isFirstBefore b a = false <-> same_tier a b).
Proof.
  intros (A1 & A2 & A3) (B1 & B2 & B3). unfold same_tier.
  assert (Q : forall x y, Number.neqb x y = false <-> x = y /\ x <> NaN).
  { intros x y. split.
    - intros H. split; [apply Number_neqb_false; exact H|].
      intros ->. discriminate.
    - intros [-> N]. unfold Number.neqb. destruct y; simpl; try congruence.
      rewrite N.eqb_refl. reflexivity. }
  split.
  - intros [H1 H2].
    assert (N1 : ~ isFirstBefore a b = true) by congruence.
    assert (N2 : ~ isFirstBefore b a = true) by congruence.
    rewrite isFirstBefore_iff in N1, N2.
    rewrite (Number_neqb_sym (major b)), (Number_neqb_sym (minor b)),
            (Number_neqb_sym (patch b)) in N2.
    destruct (Number_total A1 B1) as [L|[E1|L]]; [tauto| |tauto].
    destruct (Number_total A2 B2) as [L|[E2|L]]; [tauto| |tauto].
    destruct (Number_total A3 B3) as [L|[E3|L]]; [tauto| |tauto].
    apply Q in E1 as E1', E2 as E2', E3 as E3'.
    repeat split; try tauto.
    destruct (truthy (suffix a)), (truthy (suffix b)); tauto.
  - intros (E1 & E2 & E3 & T).
    assert (F1 : Number.neqb (major a) (major b) = false) by (apply Q; auto).
    assert (F2 : Number.neqb (minor a) (minor b) = false) by (apply Q; auto).
    assert (F3 : Number.neqb (patch a) (patch b) = false) by (apply Q; auto).
    unfold isFirstBefore.
    rewrite (Number_neqb_sym (major b)), (Number_neqb_sym (minor b)),
            (Number_neqb_sym (patch b)), F1, F2, F3, T.
    destruct (truthy (suffix b)); auto.
Qed.

Lemma isFirstBefore_unordered_iff_witness :
  let a := mkVersion (Fin 1) (Fin 0) (Fin 0) (Some (str "alpha")) in
  let b := mkVersion (Fin 1) (Fin 0) (Fin 0) (Some (str "beta")) in
  isFirstBefore a b = false /\ isFirstBefore b a = false.
Proof.
  intros a b.
  apply (@isFirstBefore_unordered_iff a b).
  - repeat split; discriminate.
  - repeat split; discriminate.
  - repeat split.
Defined.

(* ================================================================== *)
(** * More on parsing versions *)
(* ================================================================== *)

Lemma exec_None_test r s : test r s = false -> exec r s = None.
Proof. unfold test. destruct (exec r s); [discriminate | reflexivity]. Qed.

Lemma parseVersion_unpublished s :
  ~ semver_grammar (trim s) -> parseVersion s = unpublished.
Proof.
  intros N. unfold parseVersion.
  rewrite exec_None_test; [reflexivity|].
  apply not_true_false. intros T. apply N, semver_grammar_test, T.
Qed.

(** X4: A string that is not a version, white space around it set aside, is
    read as the version that stands for "nothing published yet". *)
Theorem parseVersion_not_a_version s :
  ~ semver_grammar (trim s) -> parseVersion s = unpublished.
Proof.
  intros N. unfold parseVersion.
  rewrite exec_None_test; [reflexivity|].
  apply not_true_false. intros T. apply N, semver_grammar_test, T.
Qed.

Lemma parseVersion_not_a_version_witness :
  parseVersion (str "1.2") = unpublished /\
  parseVersion (str "v1.2.3") = unpublished /\
  parseVersion (str "01.2.3") = unpublished /\
  parseVersion [] = unpublished.
Proof.
  assert (H : forall s, test SEMVER_REGEX (trim s) = false ->
                        parseVersion s = unpublished).
  { intros s T. apply parseVersion_not_a_version. intros G.
    apply semver_grammar_test in G. congruence. }
  split; [|split; [|split]]; apply H; reflexivity.
Defined.

(** ** White space around a version *)

Lemma trimStart_app a b :
  trimStart (a ++ b) =
  match trimStart a with
  | [] => trimStart b
  | x => x ++ b
  end.
Proof.
  induction a as [|c a IH]; simpl; [destruct (trimStart b); reflexivity|].
  destruct (is_space c); [exact IH | reflexivity].
Qed.

Lemma trimStart_spaces ws :
  Forall (fun a => is_space a = true) ws -> trimStart ws = [].
Proof. induction 1 as [|a ws H F IH]; simpl; [reflexivity|]. rewrite H. exact IH. Qed.

Lemma trimStart_skip ws s :
  Forall (fun a => is_space a = true) ws -> trimStart (ws ++ s) = trimStart s.
Proof. intros F. rewrite trimStart_app, (trimStart_spaces F). reflexivity. Qed.

Lemma trimEnd_skip s ws :
  Forall (fun a => is_space a = true) ws -> trimEnd (s ++ ws) = trimEnd s.
Proof.
  intros F. unfold trimEnd. rewrite rev_app_distr, trimStart_skip; [reflexivity|].
  apply Forall_rev. exact F.
Qed.

Lemma trimEnd_nil : trimEnd [] = [].
Proof. reflexivity. Qed.

Lemma trim_around ws1 s ws2 :
  Forall (fun a => is_space a = true) ws1 ->
  Forall (fun a => is_space a = true) ws2 ->
  trim (ws1 ++ s ++ ws2) = trim s.
Proof.
  intros F1 F2. unfold trim. rewrite (trimStart_skip _ F1), trimStart_app.
  destruct (trimStart s) as [|c x] eqn:E.
  - rewrite (trimStart_spaces F2). reflexivity.
  - apply trimEnd_skip. exact F2.
Qed.

(** X5: White space before and after a version string, such as the line feed
    at the end of what [npm show] prints, does not change what is parsed. *)
Theorem parseVersion_white_space ws1 s ws2 :
  Forall (fun a => is_space a = true) ws1 ->
  Forall (fun a => is_space a = true) ws2 ->
  parseVersion (ws1 ++ s ++ ws2) = parseVersion s.
Proof.
  intros F1 F2. unfold parseVersion. rewrite (trim_around s F1 F2). reflexivity.
Qed.

Lemma parseVersion_white_space_witness :
  parseVersion (str " 1.2.3" ++ LF) = v 1 2 3.
Proof.
  change (str " 1.2.3" ++ LF) with (str " " ++ str "1.2.3" ++ LF).
  rewrite parseVersion_white_space.
  - reflexivity.
  - repeat constructor.
  - repeat constructor.
Defined.

(** ** The parts of a version string *)

Lemma split_unique (P : ascii -> bool) : forall x x' r r',
  Forall (fun a => P a = true) x -> Forall (fun a => P a = true) x' ->
  stops P r -> stops P r' ->
  x ++ r = x' ++ r' -> x = x' /\ r = r'.
Proof.
  induction x as [|a x IH]; intros x' r r' F F' S S' E.
  - destruct x' as [|a' x']; [auto|]. simpl in E. subst r.
    inversion F'; subst. simpl in S. congruence.
  - destruct x' as [|a' x'].
    + simpl in E. subst r'. inversion F; subst. simpl in S'. congruence.
    + inversion E; subst. inversion F; inversion F'; subst.
      destruct (IH x' r r') as [-> ->]; auto.
Qed.

Lemma part_char_digit a : is_digit a = true -> part_char a = true.
Proof. unfold part_char, alnum_hyphen. intros ->. reflexivity. Qed.

Lemma Lang_numeric_digits g :
  Lang numeric_re g -> Forall (fun a => is_digit a = true) g.
Proof. apply Lang_alphabet. simpl. repeat split; by_cases_on_ascii. Qed.

(** A version string has one reading only. *)
Lemma version_string_unique g1 g2 g3 pre bld g1' g2' g3' pre' bld' :
  Lang numeric_re g1 -> Lang numeric_re g2 -> Lang numeric_re g3 ->
  (forall p, pre = Some p -> Lang prerelease_re p) ->
  (forall b, bld = Some b -> Lang build_re b) ->
  Lang numeric_re g1' -> Lang numeric_re g2' -> Lang numeric_re g3' ->
  (forall p, pre' = Some p -> Lang prerelease_re p) ->
  (forall b, bld' = Some b -> Lang build_re b) ->
  version_string g1 g2 g3 pre bld = version_string g1' g2' g3' pre' bld' ->
  g1 = g1' /\ g2 = g2' /\ g3 = g3' /\ pre = pre' /\ bld = bld'.
Proof.
  intros L1 L2 L3 Lp Lb L1' L2' L3' Lp' Lb' E. unfold version_string in E.
  apply Lang_numeric_digits in L1, L2, L3, L1', L2', L3'.
  apply (split_unique is_digit) in E; auto; try reflexivity.
  destruct E as [-> E]. inversion E as [E2]; clear E.
  apply (split_unique is_digit) in E2; auto; try reflexivity.
  destruct E2 as [-> E]. inversion E as [E3]; clear E.
  assert (St : forall (pr bl : option jsstring),
            stops is_digit (match pr with Some p => "-"%char :: p | None => [] end ++
                            match bl with Some b => "+"%char :: b | None => [] end)).
  { intros [p|] [b|]; simpl; auto. }
  apply (split_unique is_digit) in E3; auto.
  destruct E3 as [-> E]. repeat split; auto.
  - destruct pre as [p|], pre' as [p'|].
    + inversion E as [E4].
      apply (split_unique part_char) in E4.
      * destruct E4 as [-> _]. reflexivity.
      * apply prerelease_re_chars, Lp; reflexivity.
      * apply prerelease_re_chars, Lp'; reflexivity.
      * destruct bld; simpl; auto.
      * destruct bld'; simpl; auto.
    + destruct bld'; discriminate.
    + destruct bld; discriminate.
    + reflexivity.
  - destruct pre as [p|], pre' as [p'|].
    + inversion E as [E4].
      apply (split_unique part_char) in E4.
      * destruct E4 as [_ E5]. destruct bld, bld'; inversion E5; reflexivity.
      * apply prerelease_re_chars, Lp; reflexivity.
      * apply prerelease_re_chars, Lp'; reflexivity.
      * destruct bld; simpl; auto.
      * destruct bld'; simpl; auto.
    + destruct bld'; discriminate.
    + destruct bld; discriminate.
    + simpl in E. destruct bld, bld'; inversion E; reflexivity.
Qed.

Lemma parseVersion_version_string g1 g2 g3 pre bld :
  numeric_identifier g1 -> numeric_identifier g2 -> numeric_identifier g3 ->
  (forall p, pre = Some p -> dotted prerelease_identifier p) ->
  (forall b, bld = Some b -> dotted build_identifier b) ->
  parseVersion (version_string g1 g2 g3 pre bld) =
  mkVersion (Number.parseInt g1) (Number.parseInt g2) (Number.parseInt g3) pre.
Proof.
  intros N1 N2 N3 Np Nb.
  assert (G : semver_grammar (version_string g1 g2 g3 pre bld)).
  { exists g1, g2, g3, pre, bld. auto 10. }
  apply semver_grammar_test, parseVersion_shape in G.
  destruct G as (g1' & g2' & g3' & pre' & bld' & E & L1 & L2 & L3 & Lp & Lb & ->).
  apply Lang_numeric in N1, N2, N3.
  apply version_string_unique in E; auto.
  - destruct E as (-> & -> & -> & -> & _). reflexivity.
  - intros p Ep. apply Lang_prerelease, Np, Ep.
  - intros b Eb. apply Lang_build, Nb, Eb.
Qed.

(** X6: What [parseVersion] reads in a version string: the numbers of the
    three numeric parts, the pre-release as suffix, and nothing of the
    build metadata. *)
Theorem parseVersion_parts g1 g2 g3 pre bld :
  numeric_identifier g1 -> numeric_identifier g2 -> numeric_identifier g3 ->
  (forall p, pre = Some p -> dotted prerelease_identifier p) ->
  (forall b, bld = Some b -> dotted build_identifier b) ->
  parseVersion (version_string g1 g2 g3 pre bld) =
  mkVersion (Number.parseInt g1) (Number.parseInt g2) (Number.parseInt g3) pre.
Proof. exact (@parseVersion_version_string g1 g2 g3 pre bld). Qed.

Lemma parseVersion_parts_witness :
  parseVersion (str "1.20.3-rc.1+build.7") =
  mkVersion (Fin 1) (Fin 20) (Fin 3) (Some (str "rc.1")).
Proof.
  assert (Num : forall g, test (Seq bol (Seq numeric_re eol)) g = true ->
                          numeric_identifier g).
  { intros g T. apply test_anchored in T. destruct T as (st' & c' & M).
    apply Matches_Seq_inv in M. destruct M as (st1 & c1 & M & Me).
    apply Matches_Assert_inv in Me. destruct Me as (Est & _ & Ee). subst st'.
    apply Matches_Lang in M; [|simpl; tauto]. destruct M as (x & L & E & _).
    simpl in E, Ee. destruct (snd st1); [|discriminate Ee].
    rewrite app_nil_r in E. subst x. apply Lang_numeric, L. }
  change (str "1.20.3-rc.1+build.7")
    with (version_string (str "1") (str "20") (str "3")
            (Some (str "rc.1")) (Some (str "build.7"))).
  rewrite parseVersion_parts.
  - reflexivity.
  - apply Num; reflexivity.
  - apply Num; reflexivity.
  - apply Num; reflexivity.
  - intros p E. inversion E; subst.
    exists (str "rc"), [str "1"]. split; [|split; [|reflexivity]].
    + right. split; [repeat constructor|]. exists "r"%char. split; [left|]; reflexivity.
    + constructor; [|constructor]. left. right.
      exists "1"%char, []. split; [reflexivity|]. split; [reflexivity|constructor].
  - intros b E. inversion E; subst.
    exists (str "build"), [str "7"]. split; [|split; [|reflexivity]].
    + split; [discriminate | repeat constructor].
    + constructor; [|constructor]. split; [discriminate | repeat constructor].
Defined.

(** ** Printing, then parsing *)

Lemma string_of_uint_digits u :
  Forall (fun a => is_digit a = true)
         (list_ascii_of_string (DecimalString.NilEmpty.string_of_uint u)).
Proof. induction u; simpl; constructor; auto. Qed.

Lemma to_uint_normal n : Decimal.unorm (N.to_uint n) = N.to_uint n.
Proof.
  rewrite <- DecimalN.Unsigned.to_of, DecimalN.Unsigned.of_to. reflexivity.
Qed.

Lemma unorm_fixed_numeric u :
  Decimal.unorm u = u ->
  numeric_identifier (list_ascii_of_string (DecimalString.NilEmpty.string_of_uint u)).
Proof.
  intros E. destruct u; simpl;
    try (right; eexists; eexists; split; [reflexivity|];
         split; [reflexivity | apply string_of_uint_digits]).
  - discriminate E.
  - left. unfold Decimal.unorm in E. simpl in E.
    destruct (Decimal.nzhead u) eqn:Z.
    + inversion E. reflexivity.
    + exfalso. exact (DecimalFacts.nzhead_nonzero _ _ Z).
    + inversion E.
    + inversion E.
    + inversion E.
    + inversion E.
    + inversion E.
    + inversion E.
    + inversion E.
    + inversion E.
    + inversion E.
Qed.

(** The decimal digits of an integer are a numeric identifier, the value
    of which is the integer. *)
Lemma decimal_numeric n :
  numeric_identifier (Number.decimal n) /\
  Number.decimal_value (Number.decimal n) = Some n.
Proof.
  split.
  - apply unorm_fixed_numeric, to_uint_normal.
  - unfold Number.decimal_value, Number.decimal.
    rewrite string_of_list_ascii_of_string, DecimalString.NilEmpty.usu.
    simpl option_map. rewrite DecimalN.Unsigned.of_to.
    destruct (list_ascii_of_string _) eqn:E; [|reflexivity].
    exfalso. pose proof (@unorm_fixed_numeric _ (to_uint_normal n)) as H.
    rewrite E in H. destruct H as [H|(d & ds & H & _)]; discriminate.
Qed.

Lemma parseInt_decimal n : (n < 2 ^ 53)%N -> Number.parseInt (Number.decimal n) = Fin n.
Proof.
  intros L. unfold Number.parseInt. rewrite (proj2 (decimal_numeric n)).
  unfold Number.round_double. apply N.ltb_lt in L. rewrite L. reflexivity.
Qed.

Lemma dotted_prerelease_nonempty p : dotted prerelease_identifier p -> p <> [].
Proof. intros D. apply prerelease_re_nonempty, Lang_prerelease, D. Qed.

(** The semver string of a well-formed version is a string of the
    grammar. *)
Lemma versionToSemverString_well_formed ver :
  well_formed ver ->
  exists a b c,
    major ver = Fin a /\ minor ver = Fin b /\ patch ver = Fin c /\
    (a < 2 ^ 53)%N /\ (b < 2 ^ 53)%N /\ (c < 2 ^ 53)%N /\
    versionToSemverString ver =
      version_string (Number.decimal a) (Number.decimal b) (Number.decimal c)
                     (suffix ver) None.
Proof.
  intros ((a & Ea & La) & (b & Eb & Lb) & (c & Ec & Lc) & S).
  exists a, b, c. repeat split; auto.
  unfold versionToSemverString, version_string, Number.toString.
  rewrite Ea, Eb, Ec.
  apply N.ltb_lt in La, Lb, Lc. rewrite La, Lb, Lc, app_nil_r. simpl.
  do 5 f_equal.
  destruct (suffix ver) as [p|] eqn:Es; [|reflexivity].
  pose proof (dotted_prerelease_nonempty (S p eq_refl)) as N.
  destruct p; [congruence | reflexivity].
Qed.

Lemma semver_string_reads_back ver :
  well_formed ver ->
  semver_grammar (versionToSemverString ver) /\
  parseVersion (versionToSemverString ver) = ver.
Proof.
  intros W.
  destruct (versionToSemverString_well_formed W)
    as (a & b & c & Ea & Eb & Ec & La & Lb & Lc & ->).
  destruct W as (_ & _ & _ & S).
  pose proof (proj1 (decimal_numeric a)) as Na.
  pose proof (proj1 (decimal_numeric b)) as Nb.
  pose proof (proj1 (decimal_numeric c)) as Nc.
  split.
  - exists (Number.decimal a), (Number.decimal b), (Number.decimal c),
           (suffix ver), None.
    repeat split; auto. discriminate.
  - rewrite parseVersion_version_string; auto; [|discriminate].
    rewrite !parseInt_decimal by assumption.
    destruct ver; simpl in *. congruence.
Qed.

(** X7: Parsing the semver string of a well-formed version gives the version
    back, and that string is a string of the grammar. *)
Theorem parseVersion_versionToSemverString ver :
  well_formed ver ->
  semver_grammar (versionToSemverString ver) /\
  parseVersion (versionToSemverString ver) = ver.
Proof. exact (@semver_string_reads_back ver). Qed.

Lemma parseVersion_versionToSemverString_witness :
  let ver := v 10 0 7 in
  versionToSemverString ver = str "10.0.7" /\
  parseVersion (versionToSemverString ver) = ver.
Proof.
  intros ver. split; [reflexivity|].
  apply (@parseVersion_versionToSemverString ver).
  assert (Sf : forall n, (n < 2 ^ 53)%N -> safe (Fin n)) by (intros n H; exists n; auto).
  repeat split; try (apply Sf; reflexivity). discriminate.
Defined.

(* ================================================================== *)
(** * More on the next version *)
(* ================================================================== *)

Lemma can_bump_safe x : can_bump x -> safe x.
Proof. intros (n & -> & L). exists n. split; [reflexivity | lia]. Qed.

Lemma add_1_can_bump x n :
  x = Fin n -> (n + 1 < 2 ^ 53)%N -> Number.add x (Fin 1) = Fin (n + 1).
Proof.
  intros -> L. unfold Number.add, Number.round_double.
  apply N.ltb_lt in L. rewrite L. reflexivity.
Qed.

Lemma neqb_Fin_refl n : Number.neqb (Fin n) (Fin n) = false.
Proof. unfold Number.neqb; simpl. rewrite N.eqb_refl. reflexivity. Qed.

Lemma lt_succ_Fin n :
  Number.neqb (Fin n) (Fin (n + 1)) = true /\ Number.ltb (Fin n) (Fin (n + 1)) = true.
Proof.
  unfold Number.neqb; simpl. split.
  - apply negb_true_iff, N.eqb_neq. lia.
  - apply N.ltb_lt. lia.
Qed.

(** X8: The next version is strictly after the previous one and carries no
    suffix, as long as the numbers of the previous version can be raised
    by one within the safe integers. *)
Theorem next_is_after_prev prev pending :
  can_bump (major prev) -> can_bump (minor prev) -> can_bump (patch prev) ->
  let r := releaseOf prev pending in
  isFirstBefore prev (next r) = true /\
  suffix (next r) = None /\
  versionToHumanString (next r) = versionToSemverString (next r).
Proof.
  intros (a & Ea & La) (b & Eb & Lb) (c & Ec & Lc) r.
  assert (S : suffix (next r) = None).
  { unfold r. rewrite releaseOf_next.
    destruct (normalizes prev); [reflexivity|].
    destruct (bootstraps prev); [reflexivity|].
    destruct (aggregated pending); reflexivity. }
  split; [|split; [exact S|]].
  - unfold r. rewrite releaseOf_next.
    destruct (normalizes prev) eqn:N.
    + apply normalizes_iff in N. destruct N as (_ & Nm & Np & T).
      unfold isFirstBefore. simpl. rewrite Ea, Nm, Np, T, !neqb_Fin_refl.
      reflexivity.
    + destruct (bootstraps prev) eqn:B.
      * pose proof (bootstraps_major _ B) as M. rewrite M. exact B.
      * unfold isFirstBefore, bumped.
        destruct (aggregated pending); simpl.
        -- rewrite (add_1_can_bump Ea La), Ea.
           destruct (lt_succ_Fin a) as [-> ->]. reflexivity.
        -- rewrite (add_1_can_bump Eb Lb), Ea, Eb, neqb_Fin_refl.
           destruct (lt_succ_Fin b) as [-> ->]. reflexivity.
        -- rewrite (add_1_can_bump Ec Lc), Ea, Eb, Ec, !neqb_Fin_refl.
           destruct (lt_succ_Fin c) as [-> ->]. reflexivity.
  - rewrite versionToHumanString_cases, S, !andb_false_r. reflexivity.
Qed.

Lemma next_is_after_prev_witness :
  let prev := mkVersion (Fin 2) (Fin 0) (Fin 0) (Some (str "rc.1")) in
  let r := releaseOf prev [] in
  next r = v 2 0 0 /\ isFirstBefore prev (next r) = true.
Proof.
  intros prev r. split; [reflexivity|].
  assert (Cb : forall n, (n + 1 < 2 ^ 53)%N -> can_bump (Fin n))
    by (intros n H; exists n; auto).
  apply (@next_is_after_prev prev []); apply Cb; reflexivity.
Defined.

(** X9: The next version is well formed, so its semver string, which
    [publish] writes into package.json and into the git tag, is a string of
    the grammar that [parseVersion] reads back as the next version. *)
Theorem next_semver_reads_back prev pending :
  can_bump (major prev) -> can_bump (minor prev) -> can_bump (patch prev) ->
  let r := releaseOf prev pending in
  well_formed (next r) /\
  semver_grammar (versionToSemverString (next r)) /\
  parseVersion (versionToSemverString (next r)) = next r.
Proof.
  intros Ca Cb Cc r.
  assert (W : well_formed (next r)).
  { assert (S0 : safe (Fin 0)) by (exists 0%N; split; [reflexivity | reflexivity]).
    assert (S1 : safe (Fin 1)) by (exists 1%N; split; [reflexivity | reflexivity]).
    pose proof (can_bump_safe Ca) as Sa. pose proof (can_bump_safe Cb) as Sb.
    pose proof (can_bump_safe Cc) as Sc.
    assert (B : forall x, can_bump x -> safe (Number.add x (Fin 1))).
    { intros x (n & E & L). rewrite (add_1_can_bump E L). exists (n + 1)%N. auto. }
    unfold r. rewrite releaseOf_next.
    destruct (normalizes prev); [|destruct (bootstraps prev);
                                  [|destruct (aggregated pending)]];
      (repeat split; simpl; auto; discriminate). }
  split; [exact W|]. apply semver_string_reads_back. exact W.
Qed.

Lemma next_semver_reads_back_witness :
  let r := releaseOf (v 1 2 3) [] in
  versionToSemverString (next r) = str "1.2.4" /\
  parseVersion (versionToSemverString (next r)) = next r.
Proof.
  intros r. split; [reflexivity|].
  assert (Cb : forall n, (n + 1 < 2 ^ 53)%N -> can_bump (Fin n))
    by (intros n H; exists n; auto).
  apply (@next_semver_reads_back (v 1 2 3) []); apply Cb; reflexivity.
Defined.

(** X10: When nothing has been published, because the lookup fails while the
    network is there or because what it prints is not a version, the
    release starts from the "new" version, shown as "[new]", and the next
    version is 0.1.0 whatever the history holds. *)
Theorem first_release_is_0_1_0 w lastHash name raw :
  pkgJson_name w = Ok (Some name) -> name <> [] ->
  nothing_published w name ->
  run w git_log_command = Ok raw ->
  exists r,
    generateRelease w lastHash = Ok r /\
    prev r = unpublished /\
    versionToHumanString (prev r) = str "[new]" /\
    next r = v 0 1 0.
Proof.
  intros En Nn NP R.
  assert (P : getPublishedVersion w = Ok unpublished).
  { unfold getPublishedVersion. rewrite En, bind_Ok.
    assert (T : truthy (Some name) = true) by (destruct name; [congruence|reflexivity]).
    rewrite T. simpl negb. cbv iota. fold (npm_show_command name).
    destruct NP as [[(e & E) O]|(out & E & G)]; rewrite E.
    - rewrite O. reflexivity.
    - rewrite bind_Ok, (parseVersion_unpublished _ G). reflexivity. }
  unfold generateRelease, getCommitsSinceLastRelease, getAllCommits.
  rewrite P, R. simpl bind. eexists. split; [reflexivity|].
  split; [reflexivity|]. split; [reflexivity|].
  rewrite releaseOf_next. reflexivity.
Qed.

Lemma first_release_is_0_1_0_witness :
  let w := mkWorld (Ok (Some (str "pkg")))
                   (fun command => if JsString.eqb command git_log_command
                                   then Ok three_commits_log
                                   else Throw (str "npm ERR! code E404"))
                   true in
  exists r, generateRelease w None = Ok r /\ next r = v 0 1 0.
Proof.
  intros w.
  destruct (@first_release_is_0_1_0 w None (str "pkg") three_commits_log)
    as (r & E & _ & _ & N).
  - reflexivity.
  - discriminate.
  - left. split; [eexists; reflexivity | reflexivity].
  - reflexivity.
  - exists r. auto.
Defined.

(* ================================================================== *)
(** * More on the commits of a history *)
(* ================================================================== *)

Lemma trimStart_idem s : trimStart (trimStart s) = trimStart s.
Proof.
  induction s as [|c s IH]; simpl; [reflexivity|].
  destruct (is_space c) eqn:E; [exact IH|]. simpl. rewrite E. reflexivity.
Qed.

Lemma trimStart_head s :
  match trimStart s with
  | [] => True
  | c :: _ => is_space c = false
  end.
Proof.
  induction s as [|c s IH]; simpl; [exact I|].
  destruct (is_space c) eqn:E; [exact IH | exact E].
Qed.

Lemma trimEnd_idem s : trimEnd (trimEnd s) = trimEnd s.
Proof. unfold trimEnd. rewrite rev_involutive, trimStart_idem. reflexivity. Qed.

Lemma trimStart_trimEnd c y :
  is_space c = false -> trimStart (trimEnd (c :: y)) = trimEnd (c :: y).
Proof.
  intros E. unfold trimEnd. simpl rev. rewrite trimStart_app.
  destruct (trimStart (rev y)) as [|d x].
  - simpl. rewrite E. simpl. rewrite E. reflexivity.
  - rewrite rev_app_distr. simpl. rewrite E. reflexivity.
Qed.

(** Trimming twice is trimming once. *)
Lemma trim_idem s : trim (trim s) = trim s.
Proof.
  change (trim (trim s)) with (trim (trimEnd (trimStart s))).
  change (trim s) with (trimEnd (trimStart s)).
  pose proof (trimStart_head s) as H.
  destruct (trimStart s) as [|c y] eqn:Es; [reflexivity|].
  unfold trim. rewrite (@trimStart_trimEnd c y H). apply trimEnd_idem.
Qed.

Lemma Lang_times_length p : forall n x,
  Lang (times n (Cls p)) x -> length x = n.
Proof.
  induction n as [|n IH]; intros x L; simpl in L.
  - subst. reflexivity.
  - destruct L as (x1 & x2 & -> & (a & -> & _) & L2). simpl. f_equal. auto.
Qed.

Lemma times_plain p n : no_group (times n (Cls p)) /\ assert_free (times n (Cls p)).
Proof. induction n; simpl; tauto. Qed.

Lemma header_match_hash_length st st' c :
  Matches COMMIT_HEADER_REGEX st [] st' c ->
  exists x, group c 1 = Some x /\ length x = 40.
Proof.
  unfold COMMIT_HEADER_REGEX; cbn [seqs]. intros M.
  apply Matches_Seq_inv in M. destruct M as (st0 & c0 & MA & M).
  apply Matches_Assert_inv in MA. destruct MA as (-> & -> & _).
  apply Matches_Seq_inv in M. destruct M as (st1 & c1 & M1 & M).
  apply Matches_Seq_inv in M. destruct M as (st2 & c2 & M2 & M).
  apply Matches_chr_inv in M2. destruct M2 as (_ & _ & ->).
  apply Matches_Group_inv in M. destruct M as (c3 & M3 & ->).
  apply (@Matches_plain dot) in M3; simpl; auto. destruct M3 as (-> & _).
  apply Matches_Group_plain in M1; try apply times_plain.
  destruct M1 as (x & L & _ & ->).
  exists x. split; [reflexivity|]. exact (@Lang_times_length hex_digit 40 x L).
Qed.

Lemma versionsOf_valid refNames :
  Forall (fun ver => exists s, semver_grammar s /\ ver = parseVersion s)
         (versionsOf refNames).
Proof.
  unfold versionsOf. apply Forall_forall. intros ver I.
  apply in_map_iff in I. destruct I as (s & <- & I).
  apply filter_In in I. destruct I as [_ T].
  exists s. split; [apply semver_grammar_test; exact T | reflexivity].
Qed.

Lemma commitOf_parsed raw mt prevIndex :
  (exists x, group (groups mt) 1 = Some x /\ length x = 40 /\
             Forall (fun a => hex_digit a = true) x) ->
  parsed_commit (commitOf raw mt prevIndex).
Proof.
  intros (x & G & L & F).
  pose proof (commitOf_single_line raw mt prevIndex) as SL.
  unfold parsed_commit. rewrite hash_commitOf. unfold group_str at 1 2. rewrite G.
  split; [exact L|]. split; [exact F|].
  unfold single_line in SL. revert SL. unfold commitOf.
  destruct (indexOf _ "010"); simpl; intros SL;
    (split; [apply trim_idem|]); (split; [exact SL|]);
    (split; [apply trim_idem|]); (split; [reflexivity|]);
    apply versionsOf_valid.
Qed.

Lemma header_matches_hash raw :
  Forall (fun mt => exists x, group (groups mt) 1 = Some x /\ length x = 40 /\
                              Forall (fun a => hex_digit a = true) x)
         (matchAll COMMIT_HEADER_REGEX raw).
Proof.
  unfold matchAll. apply matchAll_from_Forall.
  intros st st' c M. simpl.
  destruct (header_match_hash M) as (x & G & F).
  destruct (header_match_hash_length M) as (x' & G' & L).
  rewrite G in G'. inversion G'; subst x'. eauto.
Qed.

Lemma parseGitLog_hash_shape raw :
  Forall (fun c => length (hash c) = 40 /\
                   Forall (fun a => hex_digit a = true) (hash c))
         (parseGitLog raw).
Proof.
  unfold parseGitLog.
  eapply commitsOf_Forall; [|apply header_matches_hash].
  intros mt prevIndex (x & G & L & F). rewrite hash_commitOf.
  unfold group_str. rewrite G. auto.
Qed.

(** X11: Every commit the parser makes has a hash of 40 digits and letters a to
    f, a subject that is one trimmed line, a trimmed footer, the impact of
    its subject and footer, and versions that come from tags of the
    grammar only. *)
Theorem parseGitLog_commits raw : Forall parsed_commit (parseGitLog raw).
Proof.
  unfold parseGitLog.
  eapply commitsOf_Forall; [|apply header_matches_hash].
  intros mt prevIndex H. apply commitOf_parsed. exact H.
Qed.

(** ** The tags of a commit *)

Lemma split_aux_app sep : forall x acc y,
  split_aux sep acc (x ++ sep :: y) = split_aux sep acc x ++ split sep y.
Proof.
  induction x as [|c x IH]; intros acc y; simpl.
  - rewrite Ascii.eqb_refl. reflexivity.
  - destruct (Ascii.eqb c sep); simpl; rewrite IH; reflexivity.
Qed.

Lemma split_app sep x y :
  split sep (x ++ sep :: y) = split sep x ++ split sep y.
Proof. apply split_aux_app. Qed.

Lemma versionsOf_app_comma x y :
  versionsOf (x ++ ","%char :: y) = versionsOf x ++ versionsOf y.
Proof.
  unfold versionsOf.
  rewrite split_app, map_app, filter_app, map_app, filter_app, map_app.
  reflexivity.
Qed.

(** X12: The versions of a list of ref names are those of its parts between
    commas, in order. *)
Theorem versionsOf_comma x y :
  versionsOf (x ++ ","%char :: y) = versionsOf x ++ versionsOf y.
Proof.
  unfold versionsOf.
  rewrite split_app, map_app, filter_app, map_app, filter_app, map_app.
  reflexivity.
Qed.

Lemma split_no_sep sep : forall x acc,
  ~ In sep x -> split_aux sep acc x = [rev acc ++ x].
Proof.
  induction x as [|c x IH]; intros acc N; simpl.
  - rewrite app_nil_r. reflexivity.
  - destruct (Ascii.eqb c sep) eqn:E.
    + apply Ascii.eqb_eq in E. exfalso. apply N. left. exact E.
    + rewrite IH by (intros I; apply N; right; exact I).
      simpl. rewrite <- app_assoc. reflexivity.
Qed.

Lemma part_char_no_comma : forall a, version_char a = true -> Ascii.eqb a "," = false.
Proof. by_cases_on_ascii. Qed.

Lemma grammar_chars s :
  semver_grammar s -> Forall (fun a => version_char a = true) s.
Proof.
  intros (g1 & g2 & g3 & pre & bld & -> & N1 & N2 & N3 & Np & Nb).
  apply Lang_numeric in N1, N2, N3.
  apply version_string_chars; auto.
  - intros p E. apply Lang_prerelease, Np, E.
  - intros b E. apply Lang_build, Nb, E.
Qed.

Lemma trim_edges t : trimStart t = t -> trimStart (rev t) = rev t -> trim t = t.
Proof.
  intros E1 E2. unfold trim, trimEnd. rewrite E1, E2. apply rev_involutive.
Qed.

Lemma space_not_comma : forall a, is_space a = true -> Ascii.eqb a "," = false.
Proof. by_cases_on_ascii. Qed.

Lemma grammar_nonempty s : semver_grammar s -> s <> [].
Proof.
  intros (g1 & g2 & g3 & pre & bld & -> & N1 & _). unfold version_string.
  destruct N1 as [->|(d & ds & -> & _)]; discriminate.
Qed.

(** A tag "v" followed by a string of the grammar, with white space
    around the ref name, is read as the version of that string. *)
Lemma versionsOf_tag ws1 s ws2 :
  Forall (fun a => is_space a = true) ws1 ->
  Forall (fun a => is_space a = true) ws2 ->
  semver_grammar s ->
  versionsOf (ws1 ++ (str "tag: v" ++ s) ++ ws2) = [parseVersion s].
Proof.
  intros F1 F2 G. pose proof (grammar_chars G) as C.
  pose proof (grammar_nonempty G) as N.
  set (t := str "tag: v" ++ s).
  assert (Tt : trim t = t).
  { apply trim_edges; [reflexivity|].
    unfold t. rewrite rev_app_distr.
    destruct (exists_last N) as (s' & d & Es). rewrite Es in *.
    rewrite rev_app_distr. simpl.
    apply Forall_app in C. destruct C as [_ C]. inversion C; subst.
    rewrite (version_char_not_space _ H1). reflexivity. }
  assert (NC : ~ In ","%char (ws1 ++ t ++ ws2)).
  { intros I. apply in_app_or in I. destruct I as [I|I].
    - rewrite Forall_forall in F1. apply F1, space_not_comma in I.
      rewrite Ascii.eqb_refl in I. discriminate.
    - apply in_app_or in I. destruct I as [I|I].
      + unfold t in I. apply in_app_or in I. destruct I as [I|I].
        * simpl in I. repeat (destruct I as [I|I]; [discriminate|]). exact I.
        * rewrite Forall_forall in C. apply C, part_char_no_comma in I.
          rewrite Ascii.eqb_refl in I. discriminate.
      + rewrite Forall_forall in F2. apply F2, space_not_comma in I.
        rewrite Ascii.eqb_refl in I. discriminate. }
  unfold versionsOf, split.
  rewrite (@split_no_sep ","%char (ws1 ++ t ++ ws2) [] NC).
  change (rev [] ++ ws1 ++ t ++ ws2) with (ws1 ++ t ++ ws2).
  cbn [map]. rewrite (@trim_around ws1 t ws2 F1 F2), Tt.
  assert (St : startsWith t (str "tag: v") = true).
  { apply startsWith_prefix. exists s. reflexivity. }
  cbn [filter]. rewrite St. cbn [map]. change (skipn 6 t) with s.
  cbn [filter]. rewrite (proj1 (semver_grammar_test s) G). reflexivity.
Qed.

(** X13: The tag that [publish] creates for a release, "v" followed by the
    semver string of the version, is read back by the parser as that
    version, wherever it stands among the ref names of its commit:
    between others, last, alone, or first. *)
Theorem release_tag_reads_back ver before after :
  well_formed ver ->
  versionsOf (before ++ str ", tag: v" ++ versionToSemverString ver ++ ","%char :: after) =
    versionsOf before ++ ver :: versionsOf after /\
  versionsOf (before ++ str ", tag: v" ++ versionToSemverString ver) =
    versionsOf before ++ [ver] /\
  versionsOf (str "tag: v" ++ versionToSemverString ver) = [ver] /\
  versionsOf (str "tag: v" ++ versionToSemverString ver ++ ","%char :: after) =
    ver :: versionsOf after.
Proof.
  intros W. destruct (semver_string_reads_back W) as [G P].
  assert (Sp : Forall (fun a => is_space a = true) [" "%char]) by repeat constructor.
  assert (T1 : versionsOf (str " tag: v" ++ versionToSemverString ver) = [ver]).
  { pose proof (@versionsOf_tag [" "%char] (versionToSemverString ver) []
                  Sp (Forall_nil _) G) as H.
    rewrite app_nil_r, P in H. exact H. }
  assert (T0 : versionsOf (str "tag: v" ++ versionToSemverString ver) = [ver]).
  { pose proof (@versionsOf_tag [] (versionToSemverString ver) []
                  (Forall_nil _) (Forall_nil _) G) as H.
    simpl app in H. rewrite app_nil_r, P in H. exact H. }
  split; [|split; [|split]].
  - change (before ++ str ", tag: v" ++ versionToSemverString ver ++ ","%char :: after)
      with (before ++ ","%char ::
              (str " tag: v" ++ versionToSemverString ver) ++ ","%char :: after).
    rewrite versionsOf_app_comma, versionsOf_app_comma, T1. reflexivity.
  - change (before ++ str ", tag: v" ++ versionToSemverString ver)
      with (before ++ ","%char :: (str " tag: v" ++ versionToSemverString ver)).
    rewrite versionsOf_app_comma, T1. reflexivity.
  - exact T0.
  - change (str "tag: v" ++ versionToSemverString ver ++ ","%char :: after)
      with ((str "tag: v" ++ versionToSemverString ver) ++ ","%char :: after).
    rewrite versionsOf_app_comma, T0. reflexivity.
Qed.

Lemma release_tag_reads_back_witness :
  versionsOf (str "HEAD -> main, tag: v1.2.4, origin/main") = [v 1 2 4].
Proof.
  assert (Sf : forall n, (n < 2 ^ 53)%N -> safe (Fin n)) by (intros n H; exists n; auto).
  assert (W : well_formed (v 1 2 4)).
  { repeat split; try (apply Sf; reflexivity). discriminate. }
  destruct (@release_tag_reads_back (v 1 2 4) (str "HEAD -> main")
              (str " origin/main") W) as [H _].
  exact H.
Defined.

(* ================================================================== *)
(** * More on the release window *)
(* ================================================================== *)

Lemma scan_none (stop : Commit -> bool) : forall all,
  Forall (fun c => stop c = false) all -> scan stop all = length all.
Proof.
  induction 1 as [|c all H F IH]; simpl; [reflexivity|]. rewrite H, IH. reflexivity.
Qed.

(** X14: A boundary that cannot be the start of a hash, such as "all", puts the
    whole history into the window. *)
Theorem boundary_all w boundary :
  not_a_hash_prefix boundary ->
  getCommitsSinceLastRelease w (Some boundary) = getAllCommits w.
Proof.
  intros NH. unfold getCommitsSinceLastRelease, getAllCommits.
  destruct (run w git_log_command) as [raw|e]; [|reflexivity].
  simpl bind. f_equal.
  assert (T : truthy (Some boundary) = true).
  { destruct boundary; [|reflexivity].
    destruct NH as [(a & I & _)|L]; [destruct I | simpl in L; lia]. }
  unfold windowOf. rewrite T.
  rewrite scan_none; [apply firstn_all|].
  pose proof (parseGitLog_hash_shape raw) as PC.
  eapply Forall_impl; [|exact PC].
  intros c (L & F). cbv beta.
  apply not_true_false. intros S.
  apply startsWith_prefix in S. destruct S as (rest & E).
  destruct NH as [(a & I & Na)|Lb].
  - rewrite E in F. apply Forall_app in F. destruct F as [F _].
    rewrite Forall_forall in F. rewrite (F a I) in Na. discriminate.
  - rewrite E, length_app in L. unfold toLowerCase in L. rewrite length_map in L. lia.
Qed.

Lemma boundary_all_witness :
  let w := world_with (str "1.2.3") three_commits_log in
  getCommitsSinceLastRelease w (Some (str "all")) = getAllCommits w.
Proof.
  intros w. apply boundary_all. left.
  exists "l"%char. split; [right; left; reflexivity | reflexivity].
Defined.

(* ================================================================== *)
(** * More on the bump *)
(* ================================================================== *)

Lemma existsb_Permutation (A : Type) (f : A -> bool) l1 l2 :
  Permutation l1 l2 -> existsb f l1 = existsb f l2.
Proof.
  intros P. destruct (existsb f l1) eqn:E1, (existsb f l2) eqn:E2; auto.
  - apply existsb_exists in E1. destruct E1 as (x & I & Fx).
    assert (E : existsb f l2 = true).
    { apply existsb_exists. exists x. split; [|exact Fx].
      eapply Permutation_in; eauto. }
    congruence.
  - apply existsb_exists in E2. destruct E2 as (x & I & Fx).
    assert (E : existsb f l1 = true).
    { apply existsb_exists. exists x. split; [|exact Fx].
      eapply Permutation_in; [apply Permutation_sym|]; eauto. }
    congruence.
Qed.

(** X15: The next version does not depend on the order of the pending commits,
    and commits of patch or unknown impact among them do not change it. *)
Theorem next_ignores_order_and_patches prev :
  (forall pending pending',
     Permutation pending pending' ->
     next (releaseOf prev pending) = next (releaseOf prev pending')) /\
  (forall pending,
     next (releaseOf prev (filter (fun c => negb (inPatches c)) pending)) =
     next (releaseOf prev pending)).
Proof.
  split.
  - intros p p' P. rewrite !releaseOf_next. unfold aggregated.
    rewrite (existsb_Permutation (impactIs SemverMajor) P),
            (existsb_Permutation (impactIs SemverMinor) P). reflexivity.
  - intros p. rewrite !releaseOf_next.
    assert (E : forall s, (s = SemverMajor \/ s = SemverMinor) ->
              existsb (impactIs s) (filter (fun c => negb (inPatches c)) p) =
              existsb (impactIs s) p).
    { intros s Hs. induction p as [|c p IH]; [reflexivity|].
      cbn [filter existsb]. rewrite <- IH.
      assert (K : impactIs s c = true -> inPatches c = false).
      { unfold inPatches, impactIs.
        destruct (semver c), Hs as [-> | ->]; simpl; congruence. }
      destruct (impactIs s c) eqn:I.
      - rewrite (K eq_refl). cbn [negb existsb]. rewrite I. reflexivity.
      - destruct (negb (inPatches c)); cbn [existsb]; rewrite ?I; reflexivity. }
    unfold aggregated. rewrite !E by auto. reflexivity.
Qed.

Lemma next_ignores_order_and_patches_witness :
  let a := commit_with (str "fix: a") SemverPatch in
  let b := commit_with (str "feat: b") SemverMinor in
  next (releaseOf (v 1 2 3) [a; b]) = next (releaseOf (v 1 2 3) [b; a]).
Proof.
  intros a b.
  apply (proj1 (next_ignores_order_and_patches (v 1 2 3))).
  apply perm_swap.
Defined.

(* ================================================================== *)
(** * More on the changelog *)
(* ================================================================== *)

Lemma rendered_nil r :
  rendered r = [] <-> majors r = [] /\ minors r = [] /\ patches r = [].
Proof.
  unfold rendered. split.
  - intros H.
    assert (S : section (str "Major changes (breaking)") (majors r) ++
                section (str "Feature updates") (minors r) ++
                section (str "Other commits") (patches r) = []).
    { destruct (section (str "Major changes (breaking)") (majors r) ++
                section (str "Feature updates") (minors r) ++
                section (str "Other commits") (patches r)) as [|x l];
        [reflexivity|].
      apply (f_equal (@length ascii)) in H. rewrite length_app in H.
      simpl in H. lia. }
    apply app_eq_nil in S. destruct S as [S1 S]. apply app_eq_nil in S.
    destruct S as [S2 S3]. unfold section in *.
    destruct (majors r), (minors r), (patches r); try discriminate.
    repeat split.
  - intros (-> & -> & ->). reflexivity.
Qed.

(** X16: The changelog of a release is empty exactly when no commit is
    pending. *)
Theorem changelog_empty_iff prev pending :
  generateChangelogMarkdown (releaseOf prev pending) = [] <-> pending = [].
Proof.
  rewrite generateChangelogMarkdown_rendered, rendered_nil.
  unfold releaseOf. rewrite bucketsOf_spec. simpl.
  pose proof (buckets_partition pending) as P. split.
  - intros (E1 & E2 & E3). rewrite E1, E2, E3 in P. simpl in P.
    destruct pending; [reflexivity | discriminate].
  - intros ->. repeat split.
Qed.

(** ** The lines of a bucket *)

Lemma split_aux_join_LF : forall l x acc,
  Forall (fun s => ~ In "010"%char s) (x :: l) ->
  split_aux "010" acc (join LF (x :: l)) = (rev acc ++ x) :: l.
Proof.
  induction l as [|y l IH]; intros x acc F.
  - simpl join. inversion F; subst. apply split_no_sep. assumption.
  - rewrite join_cons. inversion F; subst.
    change (x ++ LF ++ join LF (y :: l)) with (x ++ "010"%char :: join LF (y :: l)).
    rewrite split_aux_app, (@split_no_sep "010"%char x acc H1).
    unfold split. rewrite IH by assumption. reflexivity.
Qed.

Lemma split_join_LF x l :
  Forall (fun s => ~ In "010"%char s) (x :: l) ->
  split "010" (join LF (x :: l)) = x :: l.
Proof. intros F. unfold split. rewrite split_aux_join_LF by assumption. reflexivity. Qed.

Lemma collapse_after_In x : forall l last,
  In x l -> x = last \/ In x (collapse_after last l).
Proof.
  induction l as [|y l IH]; intros last I; [destruct I|].
  simpl. destruct (JsString.eqb last y) eqn:E.
  - apply JsString_eqb_eq in E. subst y. destruct I as [->|I]; [auto|]. apply IH, I.
  - destruct I as [->|I]; [right; left; reflexivity|].
    destruct (IH y I) as [->|I']; [right; left; reflexivity | right; right; exact I'].
Qed.

Lemma collapse_In x l : In x l -> In x (collapse l).
Proof.
  destruct l as [|y l]; [auto|]. intros [->|I]; [left; reflexivity|].
  destruct (@collapse_after_In x l y I) as [->|I']; [left; reflexivity | right; exact I'].
Qed.

Lemma collapse_after_distinct : forall l last,
  no_neighbours_equal (last :: collapse_after last l).
Proof.
  induction l as [|y l IH]; intros last; simpl collapse_after; [exact I|].
  destruct (JsString.eqb last y) eqn:E; [apply IH|].
  split; [|apply IH].
  intros ->. rewrite JsString_eqb_refl in E. discriminate.
Qed.

Lemma collapse_distinct l : no_neighbours_equal (collapse l).
Proof. destruct l as [|x l]; [exact I | apply collapse_after_distinct]. Qed.

Lemma collapse_after_length : forall l last,
  length (collapse_after last l) <= length l.
Proof.
  induction l as [|y l IH]; intros last; simpl; [lia|].
  destruct (JsString.eqb last y); simpl; [specialize (IH last) | specialize (IH y)]; lia.
Qed.

Lemma map_bullet_distinct p : forall l,
  no_neighbours_equal l -> no_neighbours_equal (map (fun msg => p ++ msg) l).
Proof.
  induction l as [|x l IH]; intros H; [exact I|].
  destruct l as [|y l]; [exact I|]. destruct H as [N H].
  split; [|apply IH; exact H].
  intros E. apply app_inv_head in E. exact (N E).
Qed.

Lemma collapse_after_incl x : forall l last,
  In x (collapse_after last l) -> In x l.
Proof.
  induction l as [|y l IH]; intros last I; [destruct I|].
  simpl in I. destruct (JsString.eqb last y).
  - right. exact (IH last I).
  - destruct I as [<-|I]; [left; reflexivity | right; exact (IH y I)].
Qed.

Lemma collapse_incl x l : In x (collapse l) -> In x l.
Proof.
  destruct l as [|y l]; [auto|]. intros [<-|I]; [left; reflexivity|].
  right. exact (@collapse_after_incl x l y I).
Qed.

Lemma collapse_length l : length (collapse l) <= length l.
Proof.
  destruct l as [|y l]; [simpl; lia|]. simpl.
  pose proof (collapse_after_length l y). lia.
Qed.

Lemma collapse_nonempty l : l <> [] -> collapse l <> [].
Proof. destruct l; [congruence | discriminate]. Qed.

(** X17: The text of a bucket, cut at its line feeds, has a line for the
    message of every commit of the bucket, no two neighbouring lines that
    are equal, and no more lines than the bucket has commits. *)
Theorem toMarkdownList_lines bucket :
  bucket <> [] -> Forall single_line bucket ->
  let lines := split "010" (toMarkdownList bucket) in
  (forall c, In c bucket -> In (str "- " ++ message c) lines) /\
  no_neighbours_equal lines /\
  length lines <= length bucket.
Proof.
  intros N SL lines.
  assert (E : lines = map (fun msg => str "- " ++ msg) (collapse (map message bucket))).
  { unfold lines. rewrite toMarkdownList_spec.
    assert (F : Forall (fun s => ~ In "010"%char s)
              (map (fun msg => str "- " ++ msg) (collapse (map message bucket)))).
    { apply Forall_forall. intros s I. apply in_map_iff in I.
      destruct I as (msg & <- & I). apply collapse_incl in I.
      apply in_map_iff in I. destruct I as (c & <- & I).
      rewrite Forall_forall in SL. specialize (SL c I). unfold single_line in SL.
      intros [H|[H|H]]; [discriminate | discriminate | exact (SL H)]. }
    assert (NE : collapse (map message bucket) <> []).
    { apply collapse_nonempty. destruct bucket; [congruence | discriminate]. }
    destruct (collapse (map message bucket)) as [|x l]; [congruence|].
    apply split_join_LF. exact F. }
  rewrite E. repeat split.
  - intros c I. apply in_map.
    apply collapse_In. apply in_map. exact I.
  - apply map_bullet_distinct, collapse_distinct.
  - rewrite length_map. pose proof (collapse_length (map message bucket)) as L.
    rewrite length_map in L. exact L.
Qed.

Lemma toMarkdownList_lines_witness :
  let a := commit_with (str "fix: a") SemverPatch in
  let b := commit_with (str "fix: b") SemverPatch in
  no_neighbours_equal (split "010" (toMarkdownList [a; a; b])).
Proof.
  intros a b.
  refine (proj1 (proj2 (@toMarkdownList_lines [a; a; b] _ _))).
  - discriminate.
  - repeat constructor; unfold single_line; simpl;
      intros H; repeat (destruct H as [H|H]; [discriminate|]); exact H.
Defined.

(* ================================================================== *)
(** * The command line *)
(* ================================================================== *)

(** X18: The flag [--dry-run] may stand anywhere among the arguments: it sets
    [dryRun] and leaves [prevHash] as it is without the flag; [prevHash] is
    the first argument that is not the flag, whatever follows it. *)
Theorem cli_arguments :
  (forall args1 args2,
     cliConfig (args1 ++ str "--dry-run" :: args2) =
     mkConfig (prevHash (cliConfig (args1 ++ args2))) true) /\
  (forall flags h rest,
     Forall (fun arg => arg = str "--dry-run") flags -> h <> str "--dry-run" ->
     prevHash (cliConfig (flags ++ h :: rest)) = Some h) /\
  (forall args,
     prevHash (cliConfig args) = None ->
     Forall (fun arg => arg = str "--dry-run") args).
Proof.
  unfold cliConfig. cbn [prevHash]. split; [|split].
  - intros args1 args2. f_equal.
    + induction args1 as [|a args1 IH]; [reflexivity|].
      cbn [app find]. rewrite IH. reflexivity.
    + rewrite existsb_app. cbn [existsb]. rewrite JsString_eqb_refl.
      apply orb_true_r.
  - intros flags h rest F N. induction F as [|a flags -> F IH].
    + cbn [app find]. destruct (JsString.eqb h (str "--dry-run")) eqn:E; [|reflexivity].
      apply JsString_eqb_eq in E. contradiction.
    + exact IH.
  - induction args as [|a args IH]; intros H; [constructor|].
    cbn [find] in H. destruct (JsString.eqb a (str "--dry-run")) eqn:E; [|discriminate].
    constructor; [apply JsString_eqb_eq; exact E | apply IH; exact H].
Qed.

Lemma cli_arguments_witness :
  prevHash (cliConfig [str "--dry-run"; str "abc123"; str "more"]) = Some (str "abc123").
Proof.
  apply (proj1 (proj2 cli_arguments) [str "--dry-run"] (str "abc123") [str "more"]).
  - repeat constructor.
  - discriminate.
Defined.

(* ================================================================== *)
(** * Asking for confirmation *)
(* ================================================================== *)

Lemma endsWith_suffix s p : endsWith s p = true <-> exists b, s = b ++ p.
Proof.
  unfold endsWith. rewrite startsWith_prefix. split; intros (b & E).
  - exists (rev b). rewrite <- (rev_involutive s), E, rev_app_distr, rev_involutive.
    reflexivity.
  - exists (rev b). rewrite E, rev_app_distr. reflexivity.
Qed.

(** X19: The text that [ask] shows is the prompt itself when the prompt is
    empty or ends in a space or a line feed, and the prompt with one space
    after it otherwise; so a prompt that is not empty is shown with a
    space or a line feed at its end, and showing the shown text again
    adds nothing. *)
Theorem questionOf_space prompt :
  (prompt = [] \/ ends_in " " prompt \/ ends_in "010" prompt ->
   questionOf prompt = prompt) /\
  (prompt <> [] -> ~ ends_in " " prompt -> ~ ends_in "010" prompt ->
   questionOf prompt = prompt ++ str " ") /\
  (prompt <> [] ->
   ends_in " " (questionOf prompt) \/ ends_in "010" (questionOf prompt)) /\
  questionOf (questionOf prompt) = questionOf prompt.
Proof.
  assert (S1 : endsWith prompt (str " ") = true <-> ends_in " " prompt)
    by apply endsWith_suffix.
  assert (S2 : endsWith prompt LF = true <-> ends_in "010" prompt)
    by apply endsWith_suffix.
  assert (K : prompt = [] \/ ends_in " " prompt \/ ends_in "010" prompt ->
              questionOf prompt = prompt).
  { intros H. unfold questionOf.
    assert (T : endsWith prompt (str " ") || endsWith prompt LF ||
                JsString.eqb prompt [] = true).
    { destruct H as [->|[H|H]].
      - reflexivity.
      - apply S1 in H. rewrite H. reflexivity.
      - apply S2 in H. rewrite H. apply orb_true_iff. left. apply orb_true_r. }
    rewrite T. cbn [negb]. apply app_nil_r. }
  assert (A : prompt <> [] -> ~ ends_in " " prompt -> ~ ends_in "010" prompt ->
              questionOf prompt = prompt ++ str " ").
  { intros N N1 N2. unfold questionOf.
    destruct (endsWith prompt (str " ")) eqn:E1; [exfalso; apply N1, S1; reflexivity|].
    destruct (endsWith prompt LF) eqn:E2; [exfalso; apply N2, S2; reflexivity|].
    destruct (JsString.eqb prompt []) eqn:E3;
      [apply JsString_eqb_eq in E3; contradiction|].
    reflexivity. }
  assert (D : forall a, ends_in a prompt \/ ~ ends_in a prompt).
  { intros a. destruct (endsWith prompt [a]) eqn:E.
    - left. apply endsWith_suffix, E.
    - right. intros H. apply endsWith_suffix in H. congruence. }
  assert (B : prompt <> [] ->
              ends_in " " (questionOf prompt) \/ ends_in "010" (questionOf prompt)).
  { intros N. destruct (D " "%char) as [H1|H1].
    - rewrite K by auto. left. exact H1.
    - destruct (D "010"%char) as [H2|H2].
      + rewrite K by auto. right. exact H2.
      + rewrite (A N H1 H2). left. exists prompt. reflexivity. }
  split; [exact K|]. split; [exact A|]. split; [exact B|].
  destruct prompt as [|a p]; [reflexivity|].
  assert (N : a :: p <> []) by discriminate.
  specialize (B N). set (q := questionOf (a :: p)) in *.
  unfold questionOf at 1.
  destruct B as [B|B]; apply endsWith_suffix in B.
  - change (endsWith q (str " ")) with (endsWith q [" "%char]). rewrite B.
    cbn [orb negb]. apply app_nil_r.
  - change (endsWith q LF) with (endsWith q ["010"%char]). rewrite B.
    rewrite orb_true_r. cbn [orb negb]. apply app_nil_r.
Qed.

Lemma questionOf_space_witness :
  questionOf (str "release? [N/y]") = str "release? [N/y] ".
Proof.
  apply (proj1 (proj2 (questionOf_space (str "release? [N/y]")))).
  - discriminate.
  - intros (b & E). apply (f_equal (@rev ascii)) in E.
    rewrite rev_app_distr in E. discriminate E.
  - intros (b & E). apply (f_equal (@rev ascii)) in E.
    rewrite rev_app_distr in E. discriminate E.
Defined.

Lemma trim_blank ws1 ws2 : blank ws1 -> blank ws2 -> trim (ws1 ++ ws2) = [].
Proof.
  intros B1 B2. change (ws1 ++ ws2) with (ws1 ++ [] ++ ws2).
  rewrite trim_around by assumption. reflexivity.
Qed.

(** X20: The answer to [release? [N/y]] is read without the white space
    around it and without regard to case: [y] goes on, [n] gives up, and a
    blank answer decides nothing: the question is asked again. *)
Theorem confirmRelease_answers ws1 ws2 rest :
  blank ws1 -> blank ws2 ->
  confirmRelease ((ws1 ++ str "y" ++ ws2) :: rest) = Some true /\
  confirmRelease ((ws1 ++ str "Y" ++ ws2) :: rest) = Some true /\
  confirmRelease ((ws1 ++ str "n" ++ ws2) :: rest) = Some false /\
  confirmRelease ((ws1 ++ str "N" ++ ws2) :: rest) = Some false /\
  confirmRelease ((ws1 ++ ws2) :: rest) = confirmRelease rest.
Proof.
  intros B1 B2. cbn [confirmRelease].
  rewrite !trim_around by assumption. rewrite trim_blank by assumption.
  repeat split; reflexivity.
Qed.

Lemma confirmRelease_answers_witness :
  confirmRelease [str "  "; str " Y "] = Some true.
Proof.
  assert (B : blank (str " ")) by (repeat constructor).
  destruct (@confirmRelease_answers (str " ") (str " ") [] B B) as (_ & Y & _).
  destruct (@confirmRelease_answers (str " ") (str " ") [str " Y "] B B) as (_ & _ & _ & _ & E).
  exact (eq_trans E Y).
Defined.

(* ================================================================== *)
(** * The banner of the built files *)
(* ================================================================== *)

Lemma indexOf_Some_split c : forall s i,
  indexOf s c = Some i -> s = firstn i s ++ c :: skipn (i + 1) s.
Proof.
  induction s as [|a s IH]; intros i H; [discriminate|].
  simpl in H. destruct (Ascii.eqb a c) eqn:E.
  - apply Ascii.eqb_eq in E. inversion H; subst. reflexivity.
  - destruct (indexOf s c) as [j|]; [|discriminate]. inversion H; subst.
    simpl. f_equal. apply IH. reflexivity.
Qed.

Lemma split_aux_nonempty sep : forall s acc, split_aux sep acc s <> [].
Proof.
  induction s as [|a s IH]; intros acc; simpl; [discriminate|].
  destruct (Ascii.eqb a sep); [discriminate | apply IH].
Qed.

Lemma split_line sep x y :
  ~ In sep x -> split sep (x ++ sep :: y) = x :: split sep y.
Proof.
  intros N. rewrite split_app. unfold split at 1.
  rewrite (@split_no_sep sep x [] N). reflexivity.
Qed.

Lemma startsWith_line1 l1 rest :
  ~ In "010"%char l1 ->
  startsWith (l1 ++ "010"%char :: rest) (str "#!") = startsWith l1 (str "#!").
Proof.
  intros N. destruct l1 as [|a [|b l1]]; cbn [app startsWith str list_ascii_of_string].
  - reflexivity.
  - destruct (Ascii.eqb "#" a); reflexivity.
  - destruct l1; reflexivity.
Qed.

Lemma commentOf_single_line name authorStr license :
  (forall n, name = Some n -> ~ In "010"%char n) ->
  ~ In "010"%char authorStr ->
  (forall l, license = Some l -> ~ In "010"%char l) ->
  ~ In "010"%char (commentOf name authorStr license).
Proof.
  intros Nn Na Nl. unfold commentOf. cbn [join].
  assert (L : ~ In "010"%char
                (if truthy license
                 then str "@license " ++ match license with Some l => l | None => [] end ++ str " "
                 else [])).
  { destruct license as [l|]; simpl.
    - specialize (Nl _ eq_refl). destruct l as [|x l].
      + simpl. tauto.
      + cbn [truthy]. intros H. simpl in H.
        do 9 (destruct H as [H|H]; [discriminate|]).
        change (In "010"%char ((x :: l) ++ [" "%char])) in H.
        apply in_app_or in H. destruct H as [H|H]; [exact (Nl H)|].
        simpl in H. destruct H as [H|[]]. discriminate.
    - tauto. }
  assert (M : ~ In "010"%char match name with Some n => n | None => [] end).
  { destruct name as [n|]; [apply Nn; reflexivity | simpl; tauto]. }
  intros H.
  repeat (apply in_app_or in H; destruct H as [H|H]);
    try (simpl in H; repeat (destruct H as [H|H]; [discriminate|]); exact H);
    tauto.
Qed.

(** X21: Line by line, the built file with its banner is the built file with
    one line more, the comment: the first line if the file does not begin
    with [#!], else the second, after the line that begins with [#!].  A
    file of that one line alone, with no line feed after it, also gets an
    empty last line. *)
Theorem withBanner_lines name authorStr license distFileContents :
  (forall n, name = Some n -> ~ In "010"%char n) ->
  ~ In "010"%char authorStr ->
  (forall l, license = Some l -> ~ In "010"%char l) ->
  let comment := commentOf name authorStr license in
  let lines := split "010" distFileContents in
  split "010" (withBanner comment distFileContents) =
  if startsWith distFileContents (str "#!")
  then hd [] lines :: comment ::
       match tl lines with
       | [] => [[]]
       | following => following
       end
  else comment :: lines.
Proof.
  intros Nn Na Nl comment lines.
  pose proof (@commentOf_single_line name authorStr license Nn Na Nl) as NC. fold comment in NC.
  unfold withBanner, lines.
  destruct (indexOf distFileContents "010") as [i|] eqn:E.
  - pose proof (@indexOf_Some_split _ _ _ E) as S.
    pose proof (@indexOf_Some _ _ _ E) as N1.
    unfold slice. rewrite Nat.sub_0_r. cbn [skipn].
    set (l1 := firstn i distFileContents) in *.
    set (rest := skipn (i + 1) distFileContents) in *.
    clearbody l1 rest. clear E. subst distFileContents.
    rewrite (@startsWith_line1 l1 rest N1), (@split_line _ l1 rest N1).
    cbn [hd tl].
    destruct (startsWith l1 (str "#!")).
    + change (l1 ++ LF ++ comment ++ LF ++ rest)
        with (l1 ++ "010"%char :: comment ++ "010"%char :: rest).
      rewrite (@split_line _ l1 _ N1), (@split_line _ comment rest NC).
      destruct (split "010" rest) eqn:R; [|reflexivity].
      exfalso. exact (split_aux_nonempty _ _ _ R).
    + change (comment ++ LF ++ l1 ++ "010"%char :: rest)
        with (comment ++ "010"%char :: l1 ++ "010"%char :: rest).
      rewrite (@split_line _ comment _ NC), (@split_line _ l1 rest N1).
      reflexivity.
  - pose proof (@indexOf_None _ _ E) as N1.
    unfold split at 2 3 4. rewrite !(@split_no_sep "010"%char distFileContents [] N1).
    cbn [rev app hd tl].
    destruct (startsWith distFileContents (str "#!")).
    + change (distFileContents ++ LF ++ comment ++ LF ++ [])
        with (distFileContents ++ "010"%char :: comment ++ "010"%char :: []).
      rewrite (@split_line _ distFileContents _ N1), (@split_line _ comment [] NC). reflexivity.
    + change (comment ++ LF ++ distFileContents)
        with (comment ++ "010"%char :: distFileContents).
      rewrite (@split_line _ comment _ NC). unfold split.
      rewrite (@split_no_sep "010"%char distFileContents [] N1). reflexivity.
Qed.

Lemma withBanner_lines_witness :
  split "010"
    (withBanner (commentOf (Some (str "pub-time")) (str "Tom") (Some (str "MIT")))
       (str "#!/usr/bin/env node" ++ LF ++ str "run();")) =
  [str "#!/usr/bin/env node"; str "/**! pub-time | Tom | @license MIT  */"; str "run();"].
Proof.
  refine (@withBanner_lines (Some (str "pub-time")) (str "Tom") (Some (str "MIT"))
            (str "#!/usr/bin/env node" ++ LF ++ str "run();") _ _ _).
  - intros n E. inversion E; subst. simpl.
    intros H; repeat (destruct H as [H|H]; [discriminate|]); exact H.
  - simpl. intros H; repeat (destruct H as [H|H]; [discriminate|]); exact H.
  - intros l E. inversion E; subst. simpl.
    intros H; repeat (destruct H as [H|H]; [discriminate|]); exact H.
Defined.

(* ================================================================== *)
(** * The commands of the release *)
(* ================================================================== *)

Lemma runUnlessDry_dry w command trace :
  runUnlessDry w true command trace =
  (trace ++ [Logged (str "dry run (skip): " ++ command)], Ok tt).
Proof. reflexivity. Qed.

Lemma runUnlessDry_run w command trace out :
  run w command = Ok out ->
  runUnlessDry w false command trace = (trace ++ [Ran command], Ok tt).
Proof. intros E. unfold runUnlessDry. rewrite E. reflexivity. Qed.

Lemma andThen_Ok (s1 s2 : Step) trace trace' :
  s1 trace = (trace', Ok tt) -> andThen s1 s2 trace = s2 trace'.
Proof. intros E. unfold andThen. rewrite E. reflexivity. Qed.

(** X22: A dry run hands none of the commands of the release to [run]: it
    logs them, each after "dry run (skip): ", the five of git, then the
    login if [.npmrc] is not a file, then the publication; when the look
    at [.npmrc] throws, the release ends with that error after the five of
    git.  A run in earnest in which every command succeeds executes
    exactly these commands, in this order, with the same outcome. *)
Theorem release_dry_run w w' nextSemver isFile_npmrc :
  let commands := git_commands nextSemver ++ npm_commands isFile_npmrc in
  release w true nextSemver isFile_npmrc [] =
    (map (fun command => Logged (str "dry run (skip): " ++ command)) commands,
     outcome_of isFile_npmrc) /\
  (obliging w' ->
   release w' false nextSemver isFile_npmrc [] =
     (map Ran commands, outcome_of isFile_npmrc)).
Proof.
  intros commands. unfold commands. split.
  - unfold release.
    repeat (erewrite andThen_Ok by apply runUnlessDry_dry).
    destruct isFile_npmrc as [[|]|e].
    + erewrite andThen_Ok by reflexivity. rewrite runUnlessDry_dry. reflexivity.
    + erewrite andThen_Ok by apply runUnlessDry_dry. rewrite runUnlessDry_dry.
      reflexivity.
    + reflexivity.
  - intros O.
    assert (R : forall command trace,
              runUnlessDry w' false command trace = (trace ++ [Ran command], Ok tt)).
    { intros command trace. destruct (O command) as (out & E).
      exact (@runUnlessDry_run w' command trace out E). }
    unfold release.
    repeat (erewrite (@andThen_Ok (runUnlessDry w' false _)) by apply R).
    destruct isFile_npmrc as [[|]|e].
    + erewrite !andThen_Ok by reflexivity. rewrite R. reflexivity.
    + erewrite andThen_Ok by apply R. rewrite R. reflexivity.
    + reflexivity.
Qed.

Lemma release_dry_run_witness :
  let w := world_with [] [] in
  release w false (str "1.2.3") (Ok false) [] =
  (map Ran [str "git add ."; str "git commit -m 'ci: release v1.2.3'";
            str "git tag -a v1.2.3 -m '1.2.3'"; str "git push";
            str "git push origin v1.2.3"; str "npm login"; str "npm publish"],
   Ok tt).
Proof.
  intros w.
  refine (proj2 (@release_dry_run w w (str "1.2.3") (Ok false)) _).
  intros command. unfold run, w, world_with. cbn [execSync].
  destruct (JsString.eqb command git_log_command); eexists; reflexivity.
Defined.

(** X23: A run in earnest stops at the first command that fails: the
    commands handed to [run] are the commands of the release, in order, up
    to that one, and all before it succeeded.  The only other failure is
    that of the look at [.npmrc]: then the five commands of git have
    succeeded and nothing of npm is run. *)
Theorem release_stops_at_failure w nextSemver isFile_npmrc e :
  snd (release w false nextSemver isFile_npmrc []) = Throw e ->
  exists before,
    Forall (fun c => exists out, run w c = Ok out) before /\
    ((exists command rest,
        git_commands nextSemver ++ npm_commands isFile_npmrc =
          before ++ command :: rest /\
        fst (release w false nextSemver isFile_npmrc []) =
          map Ran (before ++ [command]) /\
        run w command = Throw e) \/
     (isFile_npmrc = Throw e /\ before = git_commands nextSemver /\
      fst (release w false nextSemver isFile_npmrc []) = map Ran before)).
Proof.
  unfold release, andThen, runUnlessDry, git_commands.
  set (c1 := str "git add .").
  set (c2 := str "git commit -m 'ci: release v" ++ nextSemver ++ str "'").
  set (c3 := str "git tag -a v" ++ nextSemver ++ str " -m '" ++ nextSemver ++ str "'").
  set (c4 := str "git push").
  set (c5 := str "git push origin v" ++ nextSemver).
  set (c6 := str "npm login").
  set (c7 := str "npm publish").
  assert (Stop : forall before command rest trace,
            git_commands nextSemver ++ npm_commands isFile_npmrc =
              before ++ command :: rest ->
            trace = map Ran (before ++ [command]) ->
            Forall (fun c => exists out, run w c = Ok out) before ->
            forall e0, run w command = Throw e0 -> (Throw e0 : result unit) = Throw e ->
            exists before0,
              Forall (fun c => exists out, run w c = Ok out) before0 /\
              ((exists command0 rest0,
                  git_commands nextSemver ++ npm_commands isFile_npmrc =
                    before0 ++ command0 :: rest0 /\
                  trace = map Ran (before0 ++ [command0]) /\
                  run w command0 = Throw e) \/
               (isFile_npmrc = Throw e /\ before0 = [c1; c2; c3; c4; c5] /\
                trace = map Ran before0))).
  { intros before command rest trace Ec Et F e0 Er H. inversion H; subst e0.
    exists before. split; [exact F|]. left. exists command, rest. auto. }
  destruct (run w c1) as [o1|e1] eqn:E1; cbn [bind fst snd app].
  2: { apply (Stop [] c1 (c2 :: c3 :: c4 :: c5 :: npm_commands isFile_npmrc));
       [reflexivity | reflexivity | constructor | exact E1]. }
  destruct (run w c2) as [o2|e2] eqn:E2; cbn [bind fst snd app].
  2: { apply (Stop [c1] c2 (c3 :: c4 :: c5 :: npm_commands isFile_npmrc));
       [reflexivity | reflexivity | repeat constructor; eauto | exact E2]. }
  destruct (run w c3) as [o3|e3] eqn:E3; cbn [bind fst snd app].
  2: { apply (Stop [c1; c2] c3 (c4 :: c5 :: npm_commands isFile_npmrc));
       [reflexivity | reflexivity | repeat constructor; eauto | exact E3]. }
  destruct (run w c4) as [o4|e4] eqn:E4; cbn [bind fst snd app].
  2: { apply (Stop [c1; c2; c3] c4 (c5 :: npm_commands isFile_npmrc));
       [reflexivity | reflexivity | repeat constructor; eauto | exact E4]. }
  destruct (run w c5) as [o5|e5] eqn:E5; cbn [bind fst snd app].
  2: { apply (Stop [c1; c2; c3; c4] c5 (npm_commands isFile_npmrc));
       [reflexivity | reflexivity | repeat constructor; eauto | exact E5]. }
  assert (F5 : Forall (fun c => exists out, run w c = Ok out) [c1; c2; c3; c4; c5])
    by (repeat constructor; eauto).
  destruct isFile_npmrc as [[|]|e'']; cbn [fst snd app].
  - destruct (run w c7) as [o7|e7] eqn:E7; cbn [bind fst snd app]; [discriminate|].
    apply (Stop [c1; c2; c3; c4; c5] c7 []);
      [reflexivity | reflexivity | exact F5 | exact E7].
  - destruct (run w c6) as [o6|e6] eqn:E6; cbn [bind fst snd app].
    2: { apply (Stop [c1; c2; c3; c4; c5] c6 [c7]);
         [reflexivity | reflexivity | exact F5 | exact E6]. }
    destruct (run w c7) as [o7|e7] eqn:E7; cbn [bind fst snd app]; [discriminate|].
    apply (Stop [c1; c2; c3; c4; c5; c6] c7 []);
      [reflexivity | reflexivity | repeat constructor; eauto | exact E7].
  - intros H. inversion H; subst e''.
    exists [c1; c2; c3; c4; c5]. split; [exact F5|]. right. auto.
Qed.

Lemma release_stops_at_failure_witness :
  let w := mkWorld (Ok None)
             (fun command => if JsString.eqb command (str "git push")
                             then Throw (str "rejected") else Ok [])
             true in
  exists before,
    Forall (fun c => exists out, run w c = Ok out) before /\
    ((exists command rest,
        git_commands (str "1.2.3") ++ npm_commands (Ok true) =
          before ++ command :: rest /\
        fst (release w false (str "1.2.3") (Ok true) []) =
          map Ran (before ++ [command]) /\
        run w command = Throw (str "rejected")) \/
     (Ok true = Throw (str "rejected") /\ before = git_commands (str "1.2.3") /\
      fst (release w false (str "1.2.3") (Ok true) []) = map Ran before)).
Proof.
  intros w.
  apply (@release_stops_at_failure w (str "1.2.3") (Ok true) (str "rejected")).
  reflexivity.
Defined.

Lemma m_times_cls p : forall n h b a c k,
  length h = n -> Forall (fun x => p x = true) h ->
  m (times n (Cls p)) (b, h ++ a) c k = k (rev h ++ b, a) c.
Proof.
  induction n as [|n IH]; intros h b a c k L F.
  - destruct h; [reflexivity | discriminate].
  - destruct h as [|x h]; [discriminate|]. inversion F; subst.
    cbn [times m snd fst app]. rewrite H1.
    rewrite IH by (auto; simpl in L; lia).
    cbn [rev]. rewrite <- app_assoc. reflexivity.
Qed.

Lemma m_star_S fuel body st c k :
  m_star (S fuel) body st c k =
  match body st c (fun st' c' =>
          if length (snd st') <? length (snd st)
          then m_star fuel body st' c' k
          else None) with
  | Some res => Some res
  | None => k st c
  end.
Proof. reflexivity. Qed.

Lemma m_Cls_cons p b x a c k :
  m (Cls p) (b, x :: a) c k = if p x then k (x :: b, a) c else None.
Proof. reflexivity. Qed.

Lemma m_Cls_nil p b c k : m (Cls p) (b, []) c k = None.
Proof. reflexivity. Qed.

Lemma m_star_cls p : forall d fuel b a c k res,
  Forall (fun x => p x = true) d -> stops p a -> length d <= fuel ->
  k (rev d ++ b, a) c = Some res ->
  m_star fuel (m (Cls p)) (b, d ++ a) c k = Some res.
Proof.
  induction d as [|x d IH]; intros fuel b a c k res F S L K.
  - cbn [app rev] in *. destruct fuel as [|fuel]; [exact K|].
    rewrite m_star_S. destruct a as [|y a].
    + rewrite m_Cls_nil. exact K.
    + rewrite m_Cls_cons. simpl in S. rewrite S. exact K.
  - destruct fuel as [|fuel]; [simpl in L; lia|]. inversion F; subst.
    cbn [app]. rewrite m_star_S, m_Cls_cons, H1. cbn [snd].
    assert (T : (length (d ++ a) <? length (x :: d ++ a)) = true).
    { apply Nat.ltb_lt. simpl. lia. }
    rewrite T. rewrite (IH fuel (x :: b) a c k res); auto.
    + simpl in L. lia.
    + cbn [rev] in K. rewrite <- app_assoc in K. exact K.
Qed.

Lemma header_m b h d a :
  match b with [] => True | x :: _ => x = "010"%char end ->
  length h = 40 -> Forall (fun x => hex_digit x = true) h ->
  Forall (fun x => dot x = true) d -> stops dot a ->
  m COMMIT_HEADER_REGEX (b, h ++ "$"%char :: d ++ a) [] accept =
  Some ((rev d ++ "$"%char :: rev h ++ b, a), [(2, d); (1, h)]).
Proof.
  intros B L F D S. unfold COMMIT_HEADER_REGEX. cbn [seqs].
  change (m (Seq after_bol_or_lf ?r) ?st ?c ?k)
    with (m after_bol_or_lf st c (fun st' c' => m r st' c' k)).
  unfold after_bol_or_lf at 1. cbn [m fst snd].
  assert (A : match b with [] => true | x :: _ => Ascii.eqb x "010" end = true).
  { destruct b; [reflexivity|]. subst. reflexivity. }
  rewrite A. rewrite (@m_times_cls hex_digit 40 h b _ _ _ L F).
  cbn [app snd fst]. unfold chr at 1. cbn [m snd fst].
  rewrite Ascii.eqb_refl.
  rewrite (@m_star_cls dot d _ ("$"%char :: rev h ++ b) a _ _
             ((rev d ++ "$"%char :: rev h ++ b, a), [(2, d); (1, h)]) D S).
  - reflexivity.
  - cbn [snd]. rewrite length_app. lia.
  - unfold accept. rewrite between_app.
    change (h ++ "$"%char :: d ++ a) with (h ++ ("$"%char :: d ++ a)).
    rewrite between_app. reflexivity.
Qed.

Lemma times_within p n : classes_within p (times n (Cls p)).
Proof. induction n; simpl; auto. Qed.

Lemma header_match_start st st' c :
  Matches COMMIT_HEADER_REGEX st [] st' c ->
  match fst st with [] => True | x :: _ => x = "010"%char end /\
  header_start (snd st).
Proof.
  unfold COMMIT_HEADER_REGEX; cbn [seqs]. intros M.
  apply Matches_Seq_inv in M. destruct M as (st0 & c0 & MA & M).
  apply Matches_Assert_inv in MA. destruct MA as (-> & -> & A).
  apply Matches_Seq_inv in M. destruct M as (st1 & c1 & M1 & M).
  apply Matches_Seq_inv in M. destruct M as (st2 & c2 & M2 & M).
  apply Matches_chr_inv in M2. destruct M2 as (E2 & _ & _).
  apply Matches_Group_inv in M1. destruct M1 as (c1' & M1 & _).
  pose proof (@Matches_plain hex_digit _ _ _ _ _ M1
                (proj1 (times_plain hex_digit 40)) (times_within hex_digit 40))
    as (_ & x & E1 & _ & F).
  apply Matches_Lang in M1; [|apply times_plain].
  destruct M1 as (x' & L & E1' & _).
  assert (x' = x) by (rewrite E1 in E1'; apply app_inv_tail in E1'; congruence).
  subst x'. apply Lang_times_length in L.
  split.
  - destruct (fst st); [exact I|]. apply Ascii.eqb_eq in A. exact A.
  - exists x, (snd st2). rewrite E1, E2. auto.
Qed.

Lemma header_m_None b a :
  ~ (match b with [] => True | x :: _ => x = "010"%char end /\ header_start a) ->
  m COMMIT_HEADER_REGEX (b, a) [] accept = None.
Proof.
  intros N. destruct (m COMMIT_HEADER_REGEX (b, a) [] accept) as [res|] eqn:E;
    [|reflexivity].
  exfalso. apply N. apply m_sound in E. destruct E as (st' & c' & M & _).
  exact (header_match_start M).
Qed.

(** The search passes over positions at which the pattern does not
    match. *)
Lemma exec_at_skip r : forall skip b a,
  (forall s1 x s2, skip = s1 ++ x :: s2 ->
     m r (rev s1 ++ b, x :: s2 ++ a) [] accept = None) ->
  exec_at r b (skip ++ a) = exec_at r (rev skip ++ b) a.
Proof.
  induction skip as [|x skip IH]; intros b a H; [reflexivity|].
  pose proof (H [] x skip eq_refl) as H0. cbn [rev app] in H0.
  cbn [app exec_at]. rewrite H0.
  rewrite IH.
  - cbn [rev]. rewrite <- app_assoc. reflexivity.
  - intros s1 y s2 E. specialize (H (x :: s1) y s2).
    cbn [rev] in H. rewrite <- app_assoc in H. apply H. rewrite E. reflexivity.
Qed.

Lemma matchAll_from_skip r skip b a fuel :
  (forall s1 x s2, skip = s1 ++ x :: s2 ->
     m r (rev s1 ++ b, x :: s2 ++ a) [] accept = None) ->
  matchAll_from fuel r b (skip ++ a) = matchAll_from fuel r (rev skip ++ b) a.
Proof.
  intros H. destruct fuel as [|fuel]; [reflexivity|].
  cbn [matchAll_from]. rewrite (exec_at_skip _ _ _ H). reflexivity.
Qed.

Lemma header_start_nil : ~ header_start [].
Proof. intros (h & rest & E & _). destruct h; discriminate. Qed.

Lemma header_start_LF a : ~ header_start ("010"%char :: a).
Proof.
  intros (h & rest & E & L & F). destruct h as [|x h]; [discriminate|].
  inversion E; subst x. inversion F; subst. discriminate.
Qed.

Lemma header_start_cut B2 after :
  after = [] \/ (exists more, after = "010"%char :: more) ->
  header_start (B2 ++ after) -> header_start B2.
Proof.
  intros [->|(more & ->)]; [rewrite app_nil_r; auto|].
  intros (h & rest & E & L & F).
  change (h ++ "$"%char :: rest) with (h ++ ["$"%char] ++ rest) in E.
  rewrite app_assoc in E. symmetry in E.
  apply app_eq_app in E. destruct E as (l & [[E1 E2]|[E1 E2]]).
  - destruct l as [|y l].
    + exists h, []. rewrite app_nil_r in E1. rewrite <- E1. auto.
    + inversion E2; subst y. exfalso.
      assert (I : In "010"%char (h ++ ["$"%char])).
      { rewrite E1. apply in_or_app. right. left. reflexivity. }
      apply in_app_or in I. destruct I as [I|[I|[]]]; [|discriminate].
      rewrite Forall_forall in F. specialize (F _ I). discriminate.
  - exists h, l. rewrite E1, <- app_assoc. auto.
Qed.

Lemma body_no_header B after b0 :
  header_free B ->
  after = [] \/ (exists more, after = "010"%char :: more) ->
  forall B1 B2, B = B1 ++ B2 ->
  m COMMIT_HEADER_REGEX (rev B1 ++ "010"%char :: b0, B2 ++ after) [] accept = None.
Proof.
  intros HF A B1 B2 E. apply header_m_None. intros [P HS].
  apply (@header_start_cut B2 after A) in HS.
  apply (HF B1 B2 E); [|exact HS].
  destruct B1 as [|y B1 _] using rev_ind; [left; reflexivity|].
  right. rewrite rev_app_distr in P. cbn [rev app] in P. subst y.
  exists B1. reflexivity.
Qed.

Lemma matchAll_from_LF fuel b a :
  matchAll_from fuel COMMIT_HEADER_REGEX b ("010"%char :: a) =
  matchAll_from fuel COMMIT_HEADER_REGEX ("010"%char :: b) a.
Proof.
  change ("010"%char :: a) with (["010"%char] ++ a).
  rewrite matchAll_from_skip; [reflexivity|].
  intros s1 x s2 E. destruct s1 as [|y s1].
  - inversion E; subst. apply header_m_None. intros [_ H].
    exact (@header_start_LF _ H).
  - inversion E. destruct s1; discriminate.
Qed.

Lemma matchAll_from_body fuel B after b0 :
  header_free B ->
  after = [] \/ (exists more, after = "010"%char :: more) ->
  matchAll_from fuel COMMIT_HEADER_REGEX ("010"%char :: b0) (B ++ after) =
  matchAll_from fuel COMMIT_HEADER_REGEX (rev B ++ "010"%char :: b0) after.
Proof.
  intros HF A. apply matchAll_from_skip. intros s1 x s2 E.
  change (x :: s2 ++ after) with ((x :: s2) ++ after).
  apply (@body_no_header B after b0 HF A s1 (x :: s2)). exact E.
Qed.

Lemma exec_at_here r b a st' c :
  m r (b, a) [] accept = Some (st', c) -> exec_at r b a = Some ((b, a), st', c).
Proof. intros H. destruct a; simpl; rewrite H; reflexivity. Qed.

Lemma matchAll_from_end fuel b :
  matchAll_from fuel COMMIT_HEADER_REGEX b [] = [].
Proof.
  destruct fuel; [reflexivity|]. cbn [matchAll_from exec_at].
  rewrite header_m_None; [reflexivity|].
  intros [_ H]. exact (header_start_nil H).
Qed.

Lemma gitLog_cons e es :
  gitLog (e :: es) =
  printed e ++ match es with [] => [] | _ :: _ => "010"%char :: gitLog es end.
Proof.
  unfold gitLog. destruct es as [|e' es]; cbn [map join].
  - rewrite app_nil_r. reflexivity.
  - reflexivity.
Qed.

Lemma matchAll_from_gitLog : forall es b fuel,
  Forall entry_ok es ->
  match b with [] => True | x :: _ => x = "010"%char end ->
  length (gitLog es) < fuel ->
  matchAll_from fuel COMMIT_HEADER_REGEX b (gitLog es) = matches_of (length b) es.
Proof.
  induction es as [|e es IH]; intros b fuel OK P Lf.
  - apply matchAll_from_end.
  - inversion OK as [|? ? Oe Oes]; subst.
    destruct e as [h d B]. destruct Oe as (L & F & D & _ & HF). cbn [entry_hash entry_refs entry_body] in *.
    rewrite gitLog_cons in *.
    set (after := match es with [] => [] | _ :: _ => "010"%char :: gitLog es end) in *.
    assert (A : after = [] \/ (exists more, after = "010"%char :: more)).
    { unfold after. destruct es; [left; reflexivity | right; eexists; reflexivity]. }
    unfold printed in *. cbn [entry_hash entry_refs entry_body] in *.
    assert (E : (h ++ "$"%char :: d ++ LF ++ B) ++ after =
                h ++ "$"%char :: d ++ ("010"%char :: B ++ after)).
    { rewrite <- app_assoc. cbn [app]. rewrite <- app_assoc. reflexivity. }
    rewrite E in *.
    destruct fuel as [|fuel]; [lia|]. cbn [matchAll_from matches_of].
    rewrite (@exec_at_here _ _ _ _ _ (@header_m b h d ("010"%char :: B ++ after) P L F D eq_refl)).
    cbn [result_of fst snd].
    f_equal.
    + f_equal.
      change (h ++ "$"%char :: d ++ "010"%char :: B ++ after)
        with (h ++ ("$"%char :: d) ++ "010"%char :: B ++ after).
      rewrite app_assoc. apply between_app.
    + assert (T : (length ("010"%char :: B ++ after) <?
                   length (h ++ "$"%char :: d ++ "010"%char :: B ++ after)) = true).
      { apply Nat.ltb_lt. cbn [length]. repeat (rewrite length_app; cbn [length]). lia. }
      rewrite T. rewrite matchAll_from_LF, (@matchAll_from_body _ B after _ HF A).
      assert (O : length b + length (printed (mkLogEntry h d B)) + 1 =
                  length ("010"%char :: rev B ++ "010"%char :: rev d ++ "$"%char :: rev h ++ b)).
      { unfold printed. cbn [entry_hash entry_refs entry_body length]. repeat (rewrite length_app; cbn [length]).
        rewrite !length_rev. change (length LF) with 1. lia. }
      unfold after in *. destruct es as [|e' es'].
      * rewrite matchAll_from_end. reflexivity.
      * rewrite matchAll_from_LF. rewrite O. apply IH; auto.
        cbn [length] in Lf. repeat (rewrite length_app in Lf; cbn [length] in Lf). lia.
Qed.

Lemma skipn_length_app (A : Type) (x y : list A) : skipn (length x) (x ++ y) = y.
Proof. induction x; simpl; auto. Qed.

Lemma firstn_length_app (A : Type) (x y : list A) : firstn (length x) (x ++ y) = x.
Proof. induction x; simpl; [destruct y|]; congruence. Qed.

Lemma first_line_cons l1 r :
  ~ In "010"%char l1 -> first_line (l1 ++ "010"%char :: r) = l1.
Proof. intros N. unfold first_line. rewrite (@split_line _ l1 r N). reflexivity. Qed.

Lemma first_line_only l1 : ~ In "010"%char l1 -> first_line l1 = l1.
Proof.
  intros N. unfold first_line, split. rewrite (@split_no_sep _ l1 [] N). reflexivity.
Qed.

Lemma after_first_line_cons l1 r :
  ~ In "010"%char l1 -> after_first_line (l1 ++ "010"%char :: r) = r.
Proof.
  intros N. unfold after_first_line. rewrite (@first_line_cons l1 r N).
  change (S (length l1)) with (length (l1 ++ ["010"%char]) - 0 + 0) || idtac.
  replace (l1 ++ "010"%char :: r) with ((l1 ++ ["010"%char]) ++ r)
    by (rewrite <- app_assoc; reflexivity).
  replace (S (length l1)) with (length (l1 ++ ["010"%char]))
    by (rewrite length_app; simpl; lia).
  apply skipn_length_app.
Qed.

Lemma after_first_line_only l1 : ~ In "010"%char l1 -> after_first_line l1 = [].
Proof.
  intros N. unfold after_first_line. rewrite (@first_line_only l1 N).
  apply skipn_all2. lia.
Qed.

(** The two parts that [commitOf] cuts a body into. *)
Lemma commitOf_parts raw mt prevIndex :
  let body := slice raw (index mt + 42 + length (group_str mt 2)) (prevIndex - 1) in
  commitOf raw mt prevIndex =
  mkCommit (group_str mt 1) (trim (first_line body)) (trim (after_first_line body))
           (versionsOf (group_str mt 2))
           (semverOf (trim (first_line body)) (trim (after_first_line body))).
Proof.
  intros body. unfold commitOf. fold body. clearbody body.
  destruct (indexOf body "010") as [i|] eqn:E.
  - pose proof (@indexOf_Some_split _ _ _ E) as S.
    pose proof (@indexOf_Some _ _ _ E) as N.
    assert (Li : length (firstn i body) = i).
    { apply (f_equal (@length ascii)) in S. rewrite length_app in S. simpl in S.
      rewrite length_firstn in *. lia. }
    unfold slice. rewrite Nat.sub_0_r. cbn [skipn].
    set (l1 := firstn i body) in *. set (r := skipn (i + 1) body) in *.
    clearbody l1 r. clear E. subst body.
    rewrite (@first_line_cons l1 r N), (@after_first_line_cons l1 r N).
    reflexivity.
  - pose proof (@indexOf_None _ _ E) as N.
    rewrite (@first_line_only body N), (@after_first_line_only body N). reflexivity.
Qed.

Lemma trim_LF_end x : trim (x ++ ["010"%char]) = trim x.
Proof.
  change (x ++ ["010"%char]) with ([] ++ x ++ ["010"%char]).
  apply trim_around; repeat constructor.
Qed.

(** Without the line feed at its end, a body has the same subject and the
    same footer. *)
Lemma chopped_body B' :
  trim (first_line B') = trim (first_line (B' ++ ["010"%char])) /\
  trim (after_first_line B') = trim (after_first_line (B' ++ ["010"%char])).
Proof.
  destruct (indexOf B' "010") as [i|] eqn:E.
  - pose proof (@indexOf_Some_split _ _ _ E) as S.
    pose proof (@indexOf_Some _ _ _ E) as N.
    set (l1 := firstn i B') in *. set (r := skipn (i + 1) B') in *.
    clearbody l1 r. subst B'. rewrite <- app_assoc. cbn [app].
    rewrite !(@first_line_cons l1 _ N), !(@after_first_line_cons l1 _ N).
    rewrite trim_LF_end. auto.
  - pose proof (@indexOf_None _ _ E) as N.
    rewrite (@first_line_cons B' [] N), (@after_first_line_cons B' [] N).
    rewrite (@first_line_only B' N), (@after_first_line_only B' N). auto.
Qed.

Lemma group_str_1 i m h d : group_str (mkMatch i m [(2, d); (1, h)]) 1 = h.
Proof. reflexivity. Qed.

Lemma group_str_2 i m h d : group_str (mkMatch i m [(2, d); (1, h)]) 2 = d.
Proof. reflexivity. Qed.

(** The body that [commitOf] cuts out of the text for an entry: the body
    of the entry up to [prevIndex - 1]. *)
Lemma body_of_entry pre h d B after prevIndex m0 :
  length h = 40 ->
  let raw := pre ++ (h ++ "$"%char :: d ++ LF ++ B) ++ after in
  let mt := mkMatch (length pre) m0 [(2, d); (1, h)] in
  slice raw (index mt + 42 + length (group_str mt 2)) (prevIndex - 1) =
  firstn (prevIndex - 1 - (length pre + 42 + length d)) (B ++ after).
Proof.
  intros L raw mt. unfold slice, mt. rewrite group_str_2. cbn [index].
  f_equal. unfold raw.
  replace (pre ++ (h ++ "$"%char :: d ++ LF ++ B) ++ after)
    with ((pre ++ h ++ "$"%char :: d ++ LF) ++ B ++ after).
  - replace (length pre + 42 + length d) with (length (pre ++ h ++ "$"%char :: d ++ LF)).
    + apply skipn_length_app.
    + repeat (rewrite length_app; cbn [length]). change (length LF) with 1. lia.
  - rewrite <- !app_assoc. cbn [app]. rewrite <- !app_assoc. reflexivity.
Qed.

Lemma commitsOf_gitLog : forall es pre,
  Forall entry_ok es ->
  commitsOf (pre ++ gitLog es) (matches_of (length pre) es) =
  (map commit_of_entry es,
   match es with [] => length (pre ++ gitLog es) | _ :: _ => length pre end).
Proof.
  induction es as [|e es IH]; intros pre OK; [reflexivity|].
  inversion OK as [|? ? Oe Oes]; subst.
  cbn [matches_of commitsOf map].
  rewrite gitLog_cons.
  set (after := match es with [] => [] | _ :: _ => "010"%char :: gitLog es end).
  assert (R : commitsOf (pre ++ printed e ++ after)
                (matches_of (length pre + length (printed e) + 1) es) =
              (map commit_of_entry es,
               match es with
               | [] => length (pre ++ printed e ++ after)
               | _ :: _ => length pre + length (printed e) + 1
               end)).
  { unfold after. destruct es as [|e' es']; [reflexivity|].
    replace (pre ++ printed e ++ "010"%char :: gitLog (e' :: es'))
      with ((pre ++ printed e ++ ["010"%char]) ++ gitLog (e' :: es'))
      by (rewrite <- !app_assoc; reflexivity).
    replace (length pre + length (printed e) + 1)
      with (length (pre ++ printed e ++ ["010"%char]))
      by (rewrite !length_app; simpl; lia).
    apply IH. exact Oes. }
  rewrite R. f_equal. f_equal.
  destruct e as [h d B]. destruct Oe as (L & _ & _ & Bend & _).
  cbn [entry_hash entry_refs entry_body] in *.
  rewrite commitOf_parts. rewrite group_str_1, group_str_2.
  unfold printed. cbn [entry_hash entry_refs entry_body].
  rewrite (@body_of_entry pre h d B after _ _ L).
  unfold commit_of_entry. cbn [entry_hash entry_refs entry_body].
  assert (Bd : let body := firstn
                 (match es with
                  | [] => length (pre ++ (h ++ "$"%char :: d ++ LF ++ B) ++ after)
                  | _ :: _ => length pre + length (h ++ "$"%char :: d ++ LF ++ B) + 1
                  end - 1 - (length pre + 42 + length d)) (B ++ after) in
               trim (first_line body) = trim (first_line B) /\
               trim (after_first_line body) = trim (after_first_line B)).
  { unfold after. destruct es as [|e' es'].
    - rewrite !app_nil_r.
      replace (length (pre ++ h ++ "$"%char :: d ++ LF ++ B) - 1 -
               (length pre + 42 + length d)) with (length B - 1)
        by (repeat (rewrite length_app; cbn [length]); change (length LF) with 1; lia).
      destruct Bend as [->|(B' & ->)]; [split; reflexivity|].
      rewrite length_app. cbn [length].
      replace (length B' + 1 - 1) with (length B') by lia.
      rewrite firstn_length_app. apply chopped_body.
    - replace (length pre + length (h ++ "$"%char :: d ++ LF ++ B) + 1 - 1 -
               (length pre + 42 + length d)) with (length B)
        by (repeat (rewrite length_app; cbn [length]); change (length LF) with 1; lia).
      rewrite firstn_length_app. split; reflexivity. }
  cbv zeta in Bd. destruct Bd as [-> ->]. reflexivity.
Qed.

Lemma no_dollar_header_free B : ~ In "$"%char B -> header_free B.
Proof.
  intros N pre post E _ (h & rest & E' & _). apply N. rewrite E, E'.
  apply in_or_app. right. apply in_or_app. right. left. reflexivity.
Qed.

Lemma parseGitLog_gitLog es :
  Forall entry_ok es -> parseGitLog (gitLog es) = map commit_of_entry es.
Proof.
  intros OK. unfold parseGitLog, matchAll.
  rewrite (@matchAll_from_gitLog es [] (S (length (gitLog es))) OK I (Nat.lt_succ_diag_r _)).
  change (gitLog es) with ([] ++ gitLog es) at 1.
  rewrite (@commitsOf_gitLog es [] OK). reflexivity.
Qed.

(** X24: Reading back a history that [git log] printed gives its commits, one
    for each entry and in the same order: the hash, the subject and the
    footer from the body, and the versions of the tags among the ref
    names. *)
Theorem getAllCommits_gitLog w es :
  Forall entry_ok es ->
  run w git_log_command = Ok (gitLog es) ->
  getAllCommits w = Ok (map commit_of_entry es).
Proof.
  intros OK R. unfold getAllCommits. rewrite R, bind_Ok.
  rewrite (@parseGitLog_gitLog es OK). reflexivity.
Qed.

Lemma getAllCommits_gitLog_witness :
  let es := [mkLogEntry (str "0123456789abcdef0123456789abcdef01234567")
                        (str "HEAD -> main") (str "feat: y" ++ LF);
             mkLogEntry (str "89abcdef0123456789abcdef0123456789abcdef")
                        (str "tag: v1.0.0") (str "fix: x" ++ LF)] in
  getAllCommits (world_with (str "1.0.0") (gitLog es)) = Ok (map commit_of_entry es).
Proof.
  intros es. apply getAllCommits_gitLog; [|reflexivity].
  assert (D : forall B, ~ In "$"%char B -> header_free B)
    by exact no_dollar_header_free.
  constructor; [|constructor; [|constructor]].
  - split; [reflexivity|]. split; [repeat constructor|]. split; [repeat constructor|].
    split; [right; exists (str "feat: y"); reflexivity|].
    apply D. simpl. intros H.
    repeat (destruct H as [H|H]; [discriminate|]). exact H.
  - split; [reflexivity|]. split; [repeat constructor|]. split; [repeat constructor|].
    split; [right; exists (str "fix: x"); reflexivity|].
    apply D. simpl. intros H.
    repeat (destruct H as [H|H]; [discriminate|]). exact H.
Defined.

Lemma scan_app_stop (stop : Commit -> bool) newer c older :
  Forall (fun x => stop x = false) newer -> stop c = true ->
  firstn (scan stop (newer ++ c :: older)) (newer ++ c :: older) = newer.
Proof.
  intros F S. induction F as [|x newer Hx F IH]; simpl.
  - rewrite S. reflexivity.
  - rewrite Hx. simpl. rewrite IH. reflexivity.
Qed.

(** X25: In a printed history, the commits to release are those above the
    newest commit with a version tag; with a boundary, those above the
    newest commit whose hash begins with the boundary, in lower case. *)
Theorem window_of_printed_history w newer last older :
  Forall entry_ok (newer ++ last :: older) ->
  run w git_log_command = Ok (gitLog (newer ++ last :: older)) ->
  (Forall (fun e => versionsOf (entry_refs e) = []) newer ->
   versionsOf (entry_refs last) <> [] ->
   getCommitsSinceLastRelease w None = Ok (map commit_of_entry newer)) /\
  (forall boundary,
   boundary <> [] ->
   Forall (fun e => startsWith (entry_hash e) (toLowerCase boundary) = false) newer ->
   startsWith (entry_hash last) (toLowerCase boundary) = true ->
   getCommitsSinceLastRelease w (Some boundary) = Ok (map commit_of_entry newer)).
Proof.
  intros OK R.
  assert (G : getAllCommits w =
              Ok (map commit_of_entry newer ++
                  commit_of_entry last :: map commit_of_entry older)).
  { unfold getAllCommits. rewrite R, bind_Ok, (@parseGitLog_gitLog _ OK).
    rewrite map_app. reflexivity. }
  unfold getCommitsSinceLastRelease. rewrite G. split.
  - intros F T. rewrite bind_Ok. f_equal. unfold windowOf. cbn [truthy]. cbv iota.
    apply scan_app_stop.
    + apply Forall_map. eapply Forall_impl; [|exact F].
      intros e E. cbn [commit_of_entry versions]. rewrite E. reflexivity.
    + cbn [commit_of_entry versions].
      destruct (versionsOf (entry_refs last)); [congruence | reflexivity].
  - intros boundary N F T. rewrite bind_Ok. f_equal. unfold windowOf.
    assert (Tr : truthy (Some boundary) = true) by (destruct boundary; [congruence|reflexivity]).
    rewrite Tr. apply scan_app_stop.
    + apply Forall_map. exact F.
    + exact T.
Qed.

Lemma window_of_printed_history_witness :
  let newer := [mkLogEntry (str "0123456789abcdef0123456789abcdef01234567")
                           (str "HEAD -> main") (str "feat: y" ++ LF)] in
  let last := mkLogEntry (str "89abcdef0123456789abcdef0123456789abcdef")
                         (str "tag: v1.0.0") (str "fix: x" ++ LF) in
  getCommitsSinceLastRelease (world_with (str "1.0.0") (gitLog (newer ++ [last]))) None =
  Ok (map commit_of_entry newer).
Proof.
  intros newer last.
  refine (proj1 (@window_of_printed_history
                   (world_with (str "1.0.0") (gitLog (newer ++ [last])))
                   newer last [] _ eq_refl) _ _).
  - assert (D : forall B, ~ In "$"%char B -> header_free B)
      by exact no_dollar_header_free.
    constructor; [|constructor; [|constructor]].
    + split; [reflexivity|]. split; [repeat constructor|]. split; [repeat constructor|].
      split; [right; exists (str "feat: y"); reflexivity|].
      apply D. simpl. intros H.
      repeat (destruct H as [H|H]; [discriminate|]). exact H.
    + split; [reflexivity|]. split; [repeat constructor|]. split; [repeat constructor|].
      split; [right; exists (str "fix: x"); reflexivity|].
      apply D. simpl. intros H.
      repeat (destruct H as [H|H]; [discriminate|]). exact H.
  - repeat constructor.
  - discriminate.
Defined.

(* ================================================================== *)
(** * The state of the checkout *)
(* ================================================================== *)





